(** * Storefront behaviour: cart, analytics counter, image pipeline, admin flag

    A shallow embedding of the behavioural core of the storefront:

    - [Cart]: the local state of [src/stores/cartStore.ts];
    - [Analytics]: the stored procedure [update_product_analytics] of
      [supabase/migrations/20250630011921_cold_sun.sql] over the table
      [product_analytics] of the base migration;
    - [ImageUtils]: [validateImageFile], [resizeImage] and [imageCache] of
      [src/lib/imageUtils.ts], [validateFileUpload] of [src/lib/debugUtils.ts];
    - [Storage]: [uploadProductImage] of [src/lib/supabaseStorage.ts];
    - [Auth]: [checkAdminStatus] of [src/stores/authStore.ts];
    - [CartModal], [CartSync], [Pages]: the handlers of
      [src/components/CartModal.tsx], the cart store together with its mirror
      in [shopping_carts] and [cart_items] and its analytics call, and the
      handlers of the pages that add to the cart;
    - [Tracking]: the counts [trackProductInteraction] of [src/lib/supabase.ts]
      maintains;
    - [AuthStore]: the other actions of the auth store;
    - [StorageBatch], [AdminProducts]: [uploadProductImages] and
      [deleteProductImage], and the media records written by
      [src/pages/admin/AdminProductsPage.tsx];
    - [ImageLoading]: [loadImageWithRetry] of [src/lib/imageUtils.ts];
    - [Uploader], [UploaderObjects]: the handlers of
      [src/components/ui/ImageUploader.tsx], first as what each does to the
      images it is given, then on image objects that the arrays share;
    - [DebugUtils]: the log of [DebugLogger];
    - [Orders]: [generate_order_number] and its trigger of the base
      migration.

    Conventions.  A JavaScript [number] that holds a count, a size or a pixel
    dimension is an integer of magnitude below 2^53 and is modelled by [Z]; a
    [number] that holds a money amount (a [decimal(10,2)] column read by the
    client) is a binary64 number and is modelled by Rocq's primitive [float],
    whose operations round as JavaScript's do; a decimal literal such as
    [0.1] stands, as in JavaScript, for the binary64 number nearest to it.
    A JavaScript [string] is a [string]; [undefined]/[null] is [None].  SQL
    [integer] is a 32-bit signed integer whose arithmetic raises on overflow;
    a nullable column is an [option]. *)

From Stdlib Require Import ZArith QArith String List Lia Floats.
From stdpp Require Import base option list strings pretty.

Local Open Scope string_scope.
Local Open Scope list_scope.
Local Open Scope Z_scope.

Set Warnings "-inexact-float".

(** ** The cart store *)

Module Cart.

(** [product.media?.[0]?.url]: the product handed to [addItem] is untyped
    ([any]); the fields the store reads are [id], [name], [price] and the
    optional [media] array. *)
Record Media := { url : string }.

Record Product := {
  prod_id : string;
  prod_name : string;
  prod_price : float;
  prod_media : option (list Media)
}.

(** [interface CartItem]. *)
Record CartItem := {
  id : string;
  product_id : string;
  name : string;
  price : float;
  quantity : Z;
  image_url : option string;
  variant_id : option string;
  variant_name : option string
}.

(** The data part of [interface CartState]. *)
Record CartState := {
  items : list CartItem;
  isLoading : bool
}.

(** [set({ items })]: zustand merges the partial state. *)
Definition set_items (s : CartState) (l : list CartItem) : CartState :=
  {| items := l; isLoading := isLoading s |}.

Definition set_isLoading (s : CartState) (b : bool) : CartState :=
  {| items := items s; isLoading := b |}.

(** [{ ...item, quantity }]. *)
Definition with_quantity (item : CartItem) (q : Z) : CartItem :=
  {| id := id item; product_id := product_id item; name := name item;
     price := price item; quantity := q; image_url := image_url item;
     variant_id := variant_id item; variant_name := variant_name item |}.

(** The store as created: [items: [], isLoading: false]. *)
Definition init : CartState := {| items := []; isLoading := false |}.

(** Every action of the store changes the local state synchronously, before
    its first [await]; the analytics call and the mirrored server writes that
    follow never feed back into [items].  The local state machine is therefore
    sequential, and each action is a function of the state it is called on. *)

(** [removeItem]: [items.filter(item => item.product_id !== productId)]. *)
Definition removeItem (productId : string) (s : CartState) : CartState :=
  set_items s (filter (λ item, product_id item ≠ productId) (items s)).

(** [updateQuantity]: [quantity <= 0] delegates to [removeItem]; otherwise
    every line of the product gets the new quantity. *)
Definition updateQuantity (productId : string) (q : Z) (s : CartState)
  : CartState :=
  if decide (q ≤ 0) then removeItem productId s
  else set_items s
         ((λ item, if decide (product_id item = productId)
                   then with_quantity item q else item) <$> items s).

(** [`${product.id}-${Date.now()}`]; [now] is the clock reading. *)
Definition new_id (product : Product) (now : Z) : string :=
  prod_id product +:+ "-" +:+ pretty now.

(** [product.media?.[0]?.url]. *)
Definition first_media_url (product : Product) : option string :=
  m ← prod_media product; url <$> head m.

Definition newItem (product : Product) (q : Z) (now : Z) : CartItem :=
  {| id := new_id product now;
     product_id := prod_id product;
     name := prod_name product;
     price := prod_price product;
     quantity := q;
     image_url := first_media_url product;
     variant_id := None;
     variant_name := None |}.

(** [items.find(item => item.product_id === product.id)]. *)
Definition find_product (productId : string) (l : list CartItem)
  : option CartItem :=
  snd <$> list_find (λ item, product_id item = productId) l.

(** [addItem(product, quantity = 1)]. *)
Definition addItem (product : Product) (q : Z) (now : Z) (s : CartState)
  : CartState :=
  match find_product (prod_id product) (items s) with
  | Some existingItem =>
      updateQuantity (prod_id product) (quantity existingItem + q) s
  | None => set_items s (items s ++ [newItem product q now])
  end.

(** [clearCart]: [set({ items: [] })]. *)
Definition clearCart (s : CartState) : CartState := set_items s [].

(** [getTotalItems]:
    [items.reduce((total, item) => total + item.quantity, 0)]. *)
Definition getTotalItems (s : CartState) : Z :=
  fold_left (λ total item, total + quantity item) (items s) 0.

(** A whole number as a JavaScript [number]: the binary64 number nearest to
    it, which is the number itself below 2^53. *)
Definition number_of_Z (z : Z) : float :=
  SF2Prim (binary_normalize prec emax z 0 false).

(** [getTotalPrice]:
    [items.reduce((total, item) => total + (item.price * item.quantity), 0)],
    in binary64 arithmetic: each product and each sum is rounded. *)
Definition getTotalPrice (s : CartState) : float :=
  fold_left (λ total item,
               (total + price item * number_of_Z (quantity item))%float)
            (items s) 0%float.

(** *** [loadCart] *)

(** The rows of the embedded select of [loadCart]:
    [cart_items (id, product_id, quantity, unit_price,
                 products (name, product_media (url, is_primary)))].
    [is_primary] is a nullable boolean column.  The embedded [products] object
    is [null] when the product row is not visible to the caller (row-level
    security shows only active products); [product_media] is read through
    [?.]. *)
Record ProductMediaRow := {
  pm_url : string;
  pm_is_primary : option bool
}.

Record ProductsEmbed := {
  products_name : string;
  product_media : option (list ProductMediaRow)
}.

Record CartItemRow := {
  row_id : string;
  row_product_id : string;
  row_quantity : Z;
  unit_price : float;
  products : option ProductsEmbed
}.

Record ShoppingCartRow := {
  cart_id : string;
  cart_items : option (list CartItemRow)
}.

(** What [await supabase.from('shopping_carts').select(..).maybeSingle()] gives:
    the promise rejects ([Rejected]), or it resolves to [{ data }], where [data]
    is [null] when the user has no [shopping_carts] row and also when the query
    failed (the client then resolves with [data: null] and an error object that
    [loadCart] does not read). *)
Inductive CartResponse :=
| Rejected
| Resolved (data : option ShoppingCartRow).

(** [m.is_primary] as a condition: [null] is falsy. *)
Definition truthy (b : option bool) : bool := default false b.

(** [item.products.product_media?.find((m: any) => m.is_primary)?.url]. *)
Definition primary_url (p : ProductsEmbed) : option string :=
  m ← product_media p;
  (pm_url ∘ snd) <$> list_find (λ r, truthy (pm_is_primary r) = true) m.

(** The arrow function mapped over [cart.cart_items]; [item.products.name]
    throws a [TypeError] ([None]) when [item.products] is [null]. *)
Definition line_of_row (item : CartItemRow) : option CartItem :=
  p ← products item;
  Some {| id := row_id item;
          product_id := row_product_id item;
          name := products_name p;
          price := unit_price item;
          quantity := row_quantity item;
          image_url := primary_url p;
          variant_id := None;
          variant_name := None |}.

(** The [try] block of [loadCart]: [Some items'] when [set({ items })] is
    reached with [items'], [None] when it is not (rejected promise, exception
    in the mapping, or the guard [if (cart?.cart_items)] fails). *)
Definition loadCart_try (response : CartResponse) : option (list CartItem) :=
  match response with
  | Rejected => None
  | Resolved data =>
      cart ← data;
      rows ← cart_items cart;
      mapM line_of_row rows
  end.

(** [loadCart]; [signed_in] is [user] of the auth store being non-null.  The
    [finally] block resets [isLoading] on every path past the first guard. *)
Definition loadCart (signed_in : bool) (response : CartResponse)
  (s : CartState) : CartState :=
  if negb signed_in then s
  else
    let s1 := set_isLoading s true in
    let s2 := match loadCart_try response with
              | Some l => set_items s1 l
              | None => s1
              end in
    set_isLoading s2 false.

(** *** Runs of the store *)

(** A call [addItem(product, quantity)] made when the clock reads [now]. *)
Record AddCall := {
  call_product : Product;
  call_quantity : Z;
  call_now : Z
}.

Definition add_call (s : CartState) (c : AddCall) : CartState :=
  addItem (call_product c) (call_quantity c) (call_now c) s.

(** A sequence of [addItem] calls on a cart. *)
Definition add_all (calls : list AddCall) (s : CartState) : CartState :=
  fold_left add_call calls s.

(** The four local actions of the store that the cart modal and the product
    pages invoke. *)
Inductive Action :=
| AddItem (product : Product) (q : Z) (now : Z)
| UpdateQuantity (productId : string) (q : Z)
| RemoveItem (productId : string)
| ClearCart.

Definition step (s : CartState) (a : Action) : CartState :=
  match a with
  | AddItem product q now => addItem product q now s
  | UpdateQuantity productId q => updateQuantity productId q s
  | RemoveItem productId => removeItem productId s
  | ClearCart => clearCart s
  end.

Definition run (actions : list Action) (s : CartState) : CartState :=
  fold_left step actions s.

(** *** Reference quantities of a run of [addItem] calls *)

(** The sum of the quantities added. *)
Definition quantities_added (calls : list AddCall) : Z :=
  foldr (λ c acc, call_quantity c + acc) 0 calls.

(** The quantities added for one product. *)
Definition quantity_added_of (productId : string) (calls : list AddCall) : Z :=
  quantities_added
    (filter (λ c, prod_id (call_product c) = productId) calls).

(** The first call that adds the product: its price is the snapshot. *)
Definition first_add (productId : string) (calls : list AddCall)
  : option AddCall :=
  snd <$> list_find (λ c, prod_id (call_product c) = productId) calls.

(** The products added, in the order of their first add. *)
Definition products_added (calls : list AddCall) : list string :=
  fold_left (λ acc c, if decide (prod_id (call_product c) ∈ acc) then acc
                      else acc ++ [prod_id (call_product c)])
            calls [].

(** The price of a product at its first add. *)
Definition snapshot (productId : string) (calls : list AddCall) : float :=
  match first_add productId calls with
  | Some c => prod_price (call_product c)
  | None => 0%float
  end.

(** What the calls make of [getTotalPrice()]: over the products added, in the
    order of their first add, the binary64 sum of the snapshot price times
    the quantity added. *)
Definition price_added (calls : list AddCall) : float :=
  fold_left (λ total productId,
               (total
                + snapshot productId calls
                  * number_of_Z (quantity_added_of productId calls))%float)
            (products_added calls) 0%float.

(** The rational number a finite binary64 number stands for. *)
Definition value (x : float) : Q :=
  match Prim2SF x with
  | S754_finite s m e =>
      ((if s then -1 else 1) * inject_Z (Z.pos m) * Qpower 2 e)%Q
  | _ => 0%Q
  end.

(** "The sum over cart lines of price times quantity", computed without
    rounding. *)
Definition sum_lines (l : list CartItem) : Q :=
  foldr (λ item acc,
           (value (price item) * inject_Z (quantity item) + acc)%Q) 0%Q l.

(** At most one line per product. *)
Definition one_line_per_product (s : CartState) : Prop :=
  NoDup (product_id <$> items s).

(** A local line that reflects a [cart_items] row: its id, product, unit
    price and quantity, and the name and primary media URL of its product. *)
Definition line_reflects_row (r : CartItemRow) (line : CartItem) : Prop :=
  id line = row_id r ∧ product_id line = row_product_id r ∧
  price line = unit_price r ∧ quantity line = row_quantity r ∧
  ∃ p, products r = Some p ∧ name line = products_name p ∧
       image_url line = primary_url p.

(** The [cart_items] rows the server holds for the user, as the response
    reports them: none when the user has no [shopping_carts] row. *)
Definition server_rows (response : CartResponse) : list CartItemRow :=
  match response with
  | Resolved (Some cart) => default [] (cart_items cart)
  | _ => []
  end.

(** "[loadCart] replaces the local items wholesale with the server-side cart
    contents", one local line per row. *)
Definition replaces_wholesale (response : CartResponse) (s : CartState)
  : Prop :=
  Forall2 line_reflects_row (server_rows response)
          (items (loadCart true response s)).

(** The reducer of [getTotalItems] started from [a]. *)
Definition total_from (a : Z) (l : list CartItem) : Z :=
  fold_left (λ total item, total + quantity item) l a.

(** The first case of [addItem] as a reading of "increases that line's
    quantity by [q] and changes no other field of any line": the line that
    [find] returns is replaced by itself with the larger quantity, in place. *)
Definition increases_found_line_only (product : Product) (q now : Z)
  (s : CartState) : Prop :=
  ∀ existingItem,
    find_product (prod_id product) (items s) = Some existingItem →
    ∃ i, items s !! i = Some existingItem ∧
         items (addItem product q now s)
         = <[i := with_quantity existingItem (quantity existingItem + q)]>
             (items s).

(** *** Sample data *)

Definition product_A : Product :=
  {| prod_id := "A"; prod_name := "Shirt"; prod_price := 10%float;
     prod_media := Some [ {| url := "https://cdn.example/a.jpg" |} ] |}.

Definition product_B : Product :=
  {| prod_id := "B"; prod_name := "Scarf"; prod_price := 5%float;
     prod_media := None |}.

(** Product A after its price was changed. *)
Definition product_A_repriced : Product :=
  {| prod_id := "A"; prod_name := "Shirt"; prod_price := 12%float;
     prod_media := Some [ {| url := "https://cdn.example/a.jpg" |} ] |}.

Definition line_A : CartItem :=
  {| id := "A-1"; product_id := "A"; name := "Shirt"; price := 10%float;
     quantity := 2; image_url := None; variant_id := None;
     variant_name := None |}.

Definition line_B : CartItem :=
  {| id := "B-2"; product_id := "B"; name := "Scarf"; price := 5%float;
     quantity := 1; image_url := None; variant_id := None;
     variant_name := None |}.

Definition cart_AB : CartState :=
  {| items := [line_A; line_B]; isLoading := false |}.

(** A cart as [loadCart] builds it from two [cart_items] rows of one product
    (nothing in the schema makes [(cart_id, product_id)] unique). *)
Definition line_A_again : CartItem :=
  {| id := "row-2"; product_id := "A"; name := "Shirt"; price := 10%float;
     quantity := 5; image_url := None; variant_id := None;
     variant_name := None |}.

Definition cart_AA : CartState :=
  {| items := [line_A; line_A_again]; isLoading := false |}.

(** "2 units of product A (price 10.00) then 1 unit of product B (price
    5.00)". *)
Definition scenario : list AddCall :=
  [ {| call_product := product_A; call_quantity := 2;
       call_now := 1751241600000 |};
    {| call_product := product_B; call_quantity := 1;
       call_now := 1751241601000 |} ].

(** Product A added, its price changed, product A added again. *)
Definition scenario_repriced : list AddCall :=
  [ {| call_product := product_A; call_quantity := 1;
       call_now := 1751241600000 |};
    {| call_product := product_A_repriced; call_quantity := 1;
       call_now := 1751241601000 |} ].

(** A product priced 0.10, added three times, one unit each. *)
Definition product_D : Product :=
  {| prod_id := "D"; prod_name := "Button"; prod_price := 0.1%float;
     prod_media := None |}.

Definition product_E : Product :=
  {| prod_id := "E"; prod_name := "Thread"; prod_price := 0.2%float;
     prod_media := None |}.

Definition product_F : Product :=
  {| prod_id := "F"; prod_name := "Needle"; prod_price := 0.3%float;
     prod_media := None |}.

(** One unit each of three products priced 0.10, 0.20 and 0.30, and the same
    three added in the opposite order. *)
Definition scenario_small_change : list AddCall :=
  [ {| call_product := product_D; call_quantity := 1;
       call_now := 1751241600000 |};
    {| call_product := product_E; call_quantity := 1;
       call_now := 1751241601000 |};
    {| call_product := product_F; call_quantity := 1;
       call_now := 1751241602000 |} ].

Definition scenario_small_change_reversed : list AddCall :=
  [ {| call_product := product_F; call_quantity := 1;
       call_now := 1751241600000 |};
    {| call_product := product_E; call_quantity := 1;
       call_now := 1751241601000 |};
    {| call_product := product_D; call_quantity := 1;
       call_now := 1751241602000 |} ].

Definition scenario_dimes : list AddCall :=
  [ {| call_product := product_D; call_quantity := 1;
       call_now := 1751241600000 |};
    {| call_product := product_D; call_quantity := 1;
       call_now := 1751241601000 |};
    {| call_product := product_D; call_quantity := 1;
       call_now := 1751241602000 |} ].

(** The server-side cart of a user: one row for product A, with a primary
    image. *)
Definition row_A : CartItemRow :=
  {| row_id := "9f1c"; row_product_id := "A"; row_quantity := 4;
     unit_price := 10%float;
     products := Some {| products_name := "Shirt";
                         product_media := Some
                           [ {| pm_url := "https://cdn.example/a-2.jpg";
                                pm_is_primary := Some false |};
                             {| pm_url := "https://cdn.example/a.jpg";
                                pm_is_primary := Some true |} ] |} |}.

Definition server_cart_A : ShoppingCartRow :=
  {| cart_id := "c-1"; cart_items := Some [row_A] |}.

(** The same cart when the product of its row is not visible to the user. *)
Definition server_cart_hidden : ShoppingCartRow :=
  {| cart_id := "c-1";
     cart_items := Some [ {| row_id := "9f1c"; row_product_id := "A";
                             row_quantity := 4; unit_price := 10%float;
                             products := None |} ] |}.

Definition line_A_from_server : CartItem :=
  {| id := "9f1c"; product_id := "A"; name := "Shirt"; price := 10%float;
     quantity := 4; image_url := Some "https://cdn.example/a.jpg";
     variant_id := None; variant_name := None |}.

End Cart.

(** ** The analytics counter *)

Module Analytics.

Definition uuid := string.

(** Errors a statement of the procedure can raise. *)
Inductive sql_error :=
| numeric_value_out_of_range   (* 22003: integer out of range *)
| foreign_key_violation.       (* 23503 *)

Inductive sql_result (A : Type) :=
| Ok (a : A)
| Raise (e : sql_error).
Arguments Ok {A} a.
Arguments Raise {A} e.

Definition sql_bind {A B} (m : sql_result A) (f : A → sql_result B)
  : sql_result B :=
  match m with
  | Ok a => f a
  | Raise e => Raise e
  end.

Notation "x ←! m ; k" := (sql_bind m (λ x, k))
  (at level 20, m at level 100, k at level 200, only parsing).

(** SQL [integer]: 32 bits, signed. *)
Definition int4_min : Z := -2147483648.
Definition int4_max : Z := 2147483647.
Definition int4 (z : Z) : Prop := int4_min ≤ z ≤ int4_max.

(** [a + b] on nullable [integer] operands: NULL if an operand is NULL, an
    error if the sum leaves the type. *)
Definition int4_add (a b : option Z) : sql_result (option Z) :=
  match a, b with
  | Some x, Some y =>
      if decide (int4 (x + y)) then Ok (Some (x + y))
      else Raise numeric_value_out_of_range
  | _, _ => Ok None
  end.

(** A row of [product_analytics].  Only [id] and [date] are declared
    [NOT NULL]; [date] is a day number and [created_at] an instant. *)
Record AnalyticsRow := {
  id : uuid;
  product_id : option uuid;
  date : Z;
  views : option Z;
  likes : option Z;
  saves : option Z;
  shares : option Z;
  cart_adds : option Z;
  purchases : option Z;
  revenue : option Q;
  created_at : option Z
}.

(** The part of the database the procedure reads and writes: the keys of
    [products] (for the foreign key of [product_analytics.product_id]) and the
    rows of [product_analytics]. *)
Record Database := {
  products : list uuid;
  product_analytics : list AnalyticsRow
}.

(** What the session supplies to one call: [CURRENT_DATE], [now()] and the
    value [gen_random_uuid()] draws for the [id] default. *)
Record Session := {
  CURRENT_DATE : Z;
  now : Z;
  gen_random_uuid : uuid
}.

(** [CASE WHEN p_metric = 'col' THEN p_increment ELSE 0 END]; a NULL
    [p_metric] makes the comparison NULL, which selects [ELSE]. *)
Definition case_metric (p_metric : option string) (col : string)
  (p_increment : option Z) : option Z :=
  if decide (p_metric = Some col) then p_increment else Some 0.

(** The arbiter of [ON CONFLICT (product_id, date)]: the row that already
    holds the key of the proposed row.  A NULL [product_id] conflicts with
    nothing. *)
Definition conflicts (p_product_id : option uuid) (d : Z) (r : AnalyticsRow)
  : Prop :=
  is_Some p_product_id ∧ product_id r = p_product_id ∧ date r = d.

Global Instance conflicts_dec p d r : Decision (conflicts p d r).
Proof. unfold conflicts. apply _. Defined.

Definition conflicting_row (p_product_id : option uuid) (d : Z)
  (table : list AnalyticsRow) : option (nat * AnalyticsRow) :=
  list_find (conflicts p_product_id d) table.

(** The row proposed by [INSERT ... VALUES]; [revenue] and [created_at] take
    their column defaults. *)
Definition proposed_row (ses : Session) (p_product_id : option uuid)
  (p_metric : option string) (p_increment : option Z) : AnalyticsRow :=
  {| id := gen_random_uuid ses;
     product_id := p_product_id;
     date := CURRENT_DATE ses;
     views := case_metric p_metric "views" p_increment;
     likes := case_metric p_metric "likes" p_increment;
     saves := case_metric p_metric "saves" p_increment;
     shares := case_metric p_metric "shares" p_increment;
     cart_adds := case_metric p_metric "cart_adds" p_increment;
     purchases := case_metric p_metric "purchases" p_increment;
     revenue := Some 0%Q;
     created_at := Some (now ses) |}.

(** [DO UPDATE SET col = product_analytics.col + CASE ... END] for the six
    counters; the other columns keep their values. *)
Definition do_update (p_metric : option string) (p_increment : option Z)
  (r : AnalyticsRow) : sql_result AnalyticsRow :=
  v ←! int4_add (views r) (case_metric p_metric "views" p_increment);
  l ←! int4_add (likes r) (case_metric p_metric "likes" p_increment);
  s ←! int4_add (saves r) (case_metric p_metric "saves" p_increment);
  h ←! int4_add (shares r) (case_metric p_metric "shares" p_increment);
  c ←! int4_add (cart_adds r) (case_metric p_metric "cart_adds" p_increment);
  u ←! int4_add (purchases r) (case_metric p_metric "purchases" p_increment);
  Ok {| id := id r; product_id := product_id r; date := date r;
        views := v; likes := l; saves := s; shares := h;
        cart_adds := c; purchases := u;
        revenue := revenue r; created_at := created_at r |}.

(** The foreign key [product_id REFERENCES products(id)], checked for an
    inserted row; NULL references nothing. *)
Definition references_product (db : Database) (p : option uuid) : Prop :=
  match p with
  | Some x => x ∈ products db
  | None => True
  end.

Global Instance references_product_dec db p :
  Decision (references_product db p).
Proof. destruct p; simpl; apply _. Defined.

Definition with_analytics (db : Database) (t : list AnalyticsRow) : Database :=
  {| products := products db; product_analytics := t |}.

(** [update_product_analytics(p_product_id, p_metric, p_increment DEFAULT 1)].
    The [integer] argument is in range by its type.  A statement that raises
    leaves the database as it was. *)
Definition update_product_analytics (ses : Session)
  (p_product_id : option uuid) (p_metric : option string)
  (p_increment : option Z) (db : Database) : sql_result Database :=
  match conflicting_row p_product_id (CURRENT_DATE ses)
          (product_analytics db) with
  | Some (i, r) =>
      r' ←! do_update p_metric p_increment r;
      Ok (with_analytics db (<[i := r']> (product_analytics db)))
  | None =>
      if decide (references_product db p_product_id)
      then Ok (with_analytics db
                 (product_analytics db
                    ++ [proposed_row ses p_product_id p_metric p_increment]))
      else Raise foreign_key_violation
  end.

(** [trackProductInteraction] of [src/lib/supabase.ts] calls the procedure with
    [p_increment: 1]; errors are logged and dropped. *)
Definition trackProductInteraction (ses : Session) (productId : uuid)
  (metric : string) (db : Database) : Database :=
  match update_product_analytics ses (Some productId) (Some metric)
          (Some 1) db with
  | Ok db' => db'
  | Raise _ => db
  end.

(** The six counters. *)
Inductive metric := Views | Likes | Saves | Shares | CartAdds | Purchases.

Global Instance metric_eq_dec : EqDecision metric.
Proof. solve_decision. Defined.

Definition metric_name (m : metric) : string :=
  match m with
  | Views => "views" | Likes => "likes" | Saves => "saves"
  | Shares => "shares" | CartAdds => "cart_adds" | Purchases => "purchases"
  end.

Definition counter (m : metric) (r : AnalyticsRow) : option Z :=
  match m with
  | Views => views r | Likes => likes r | Saves => saves r
  | Shares => shares r | CartAdds => cart_adds r | Purchases => purchases r
  end.

(** The row of [table] for product [p] on day [d]. *)
Definition row_for (p : uuid) (d : Z) (table : list AnalyticsRow)
  : option AnalyticsRow :=
  snd <$> conflicting_row (Some p) d table.

(** The [UNIQUE(product_id, date)] constraint. *)
Definition unique_product_date (table : list AnalyticsRow) : Prop :=
  ∀ i j r1 r2, table !! i = Some r1 → table !! j = Some r2 →
    is_Some (product_id r1) → product_id r1 = product_id r2 →
    date r1 = date r2 → i = j.

(** Two rows agree outside the six counters. *)
Definition same_outside_counters (r r' : AnalyticsRow) : Prop :=
  id r' = id r ∧ product_id r' = product_id r ∧ date r' = date r ∧
  revenue r' = revenue r ∧ created_at r' = created_at r.

(** Every stored counter is an [integer]. *)
Definition well_typed_row (r : AnalyticsRow) : Prop :=
  ∀ m v, counter m r = Some v → int4 v.

Definition well_typed (db : Database) : Prop :=
  ∀ r, r ∈ product_analytics db → well_typed_row r.

(** "Inserts a row for [(p, today)] with column [m] set to [k] and the other
    five counters zero (when no row for [(p, today)] exists), or adds [k] to
    column [m] of the existing row leaving the other five counters
    unchanged"; in both cases every other row and every other column is as
    before. *)
Definition inserts_or_adds (ses : Session) (p : uuid) (m : metric) (k : Z)
  (db : Database) : Prop :=
  let call := update_product_analytics ses (Some p) (Some (metric_name m))
                                       (Some k) db in
  match row_for p (CURRENT_DATE ses) (product_analytics db) with
  | None =>
      ∃ r, call = Ok (with_analytics db (product_analytics db ++ [r])) ∧
           product_id r = Some p ∧ date r = CURRENT_DATE ses ∧
           counter m r = Some k ∧
           ∀ m', m' ≠ m → counter m' r = Some 0
  | Some r =>
      ∃ i r' v,
        product_analytics db !! i = Some r ∧
        call = Ok (with_analytics db (<[i := r']> (product_analytics db))) ∧
        counter m r = Some v ∧ counter m r' = Some (v + k) ∧
        (∀ m', m' ≠ m → counter m' r' = counter m' r) ∧
        same_outside_counters r r'
  end.

(** Two calls in a row, in sessions [ses1] and [ses2]. *)
Definition twice (ses1 ses2 : Session) (p : uuid) (m : metric) (k : Z)
  (db : Database) : sql_result Database :=
  db1 ←! update_product_analytics ses1 (Some p) (Some (metric_name m))
                                  (Some k) db;
  update_product_analytics ses2 (Some p) (Some (metric_name m)) (Some k) db1.

(** *** Sample data *)

Definition today : Session :=
  {| CURRENT_DATE := 20269; now := 1751241600;
     gen_random_uuid := "6a1e" |}.

Definition later_today : Session :=
  {| CURRENT_DATE := 20269; now := 1751245200;
     gen_random_uuid := "77c0" |}.

Definition row_p (v : option Z) : AnalyticsRow :=
  {| id := "0b5d"; product_id := Some "p"; date := 20269;
     views := v; likes := Some 3; saves := Some 0; shares := Some 0;
     cart_adds := Some 1; purchases := Some 0;
     revenue := Some 0%Q; created_at := Some 1751241000 |}.

Definition db_empty : Database :=
  {| products := ["p"]; product_analytics := [] |}.

(** The counter of views of [p] has reached the largest [integer]. *)
Definition db_full : Database :=
  {| products := ["p"]; product_analytics := [row_p (Some 2147483647)] |}.

(** The counter of views of [p] is NULL. *)
Definition db_null : Database :=
  {| products := ["p"]; product_analytics := [row_p None] |}.

Definition db_some : Database :=
  {| products := ["p"]; product_analytics := [row_p (Some 41)] |}.

End Analytics.

(** ** Image utilities *)

Module ImageUtils.

(** [IMAGE_CONFIG]. *)
Definition STORAGE_BUCKET : string := "product-images".
Definition MAX_FILE_SIZE : Z := 5 * 1024 * 1024.
Definition ALLOWED_TYPES : list string :=
  ["image/jpeg"; "image/png"; "image/webp"].

Record Size := { width : Z; height : Z }.

Definition THUMBNAIL_SIZE : Size := {| width := 200; height := 200 |}.
Definition MEDIUM_SIZE : Size := {| width := 600; height := 600 |}.
Definition LARGE_SIZE : Size := {| width := 1200; height := 1200 |}.
Definition JPEG_QUALITY : Z := 85.

(** The fields of a DOM [File] that the pipeline reads. *)
Record File := {
  file_name : string;
  size : Z;
  type : string
}.

(** [validateImageFile]: [{ isValid, error? }]. *)
Record ImageValidation := {
  isValid : bool;
  error : option string
}.

Definition validateImageFile (file : File) : ImageValidation :=
  if decide (type file ∉ ALLOWED_TYPES) then
    {| isValid := false;
       error := Some ("Invalid file type. Allowed types: "
                      +:+ String.concat ", " ALLOWED_TYPES) |}
  else if decide (size file > MAX_FILE_SIZE) then
    {| isValid := false;
       error := Some ("File too large. Maximum size: "
                      +:+ pretty (MAX_FILE_SIZE / (1024 * 1024)) +:+ "MB") |}
  else {| isValid := true; error := None |}.

(** [validateFileUpload] of [debugUtils.ts]: [{ valid, error? }].  Its one
    caller, [uploadProductImage], passes no [options], so [maxSize] and
    [allowedTypes] are the defaults written in the function. *)
Record FileValidation := {
  valid : bool;
  upload_error : option string
}.

Definition validateFileUpload (file : File) : FileValidation :=
  let maxSize := 5 * 1024 * 1024 in
  let allowedTypes := ["image/jpeg"; "image/png"; "image/webp"] in
  if decide (size file > maxSize) then
    {| valid := false;
       upload_error := Some ("File size exceeds "
                             +:+ pretty (maxSize / (1024 * 1024))
                             +:+ "MB limit") |}
  else if decide (type file ∉ allowedTypes) then
    {| valid := false;
       upload_error := Some ("File type " +:+ type file
                             +:+ " not allowed. Allowed types: "
                             +:+ String.concat ", " allowedTypes) |}
  else {| valid := true; upload_error := None |}.

(** *** [resizeImage] *)

(** A promise that has settled. *)
Inductive Promise (A : Type) :=
| Resolve (a : A)
| Reject (message : string).
Arguments Resolve {A} a.
Arguments Reject {A} message.

(** "Calculate new dimensions": the values of [width] and [height] after the
    conditional, computed from the size [img.width] x [img.height] of the
    decoded image.  The quotient is a fraction in general.  (For the sizes of
    real images, where [h * maxWidth + w] stays below 2^53, the binary64
    quotient and the exact one have the same integer part, which is all the
    canvas keeps of it.) *)
Definition new_dimensions (w h maxWidth maxHeight : Z) : Q * Q :=
  if decide (w > h) then
    if decide (w > maxWidth)
    then (inject_Z maxWidth, (inject_Z (h * maxWidth) / inject_Z w)%Q)
    else (inject_Z w, inject_Z h)
  else
    if decide (h > maxHeight)
    then ((inject_Z (w * maxHeight) / inject_Z h)%Q, inject_Z maxHeight)
    else (inject_Z w, inject_Z h).

(** Conversion of a number to the IDL type [unsigned long]: truncated to an
    integer and reduced modulo 2^32. *)
Definition to_unsigned_long (q : Q) : Z :=
  (Qnum q ÷ Z.pos (Qden q)) `mod` 2 ^ 32.

(** [canvas.width = width]: the attribute reflects an [unsigned long]; a value
    above 2147483647 is replaced by the default of the attribute. *)
Definition canvas_attribute (default_value : Z) (q : Q) : Z :=
  let n := to_unsigned_long q in
  if decide (n ≤ 2147483647) then n else default_value.

(** The bitmap of the canvas after both assignments; 300 and 150 are the
    defaults of [width] and [height]. *)
Definition canvas_dimensions (w h maxWidth maxHeight : Z) : Size :=
  let d := new_dimensions w h maxWidth maxHeight in
  {| width := canvas_attribute 300 d.1; height := canvas_attribute 150 d.2 |}.

(** The image the blob encodes: always JPEG, of the size of the canvas. *)
Record Blob := {
  blob_type : string;
  blob_width : Z;
  blob_height : Z;
  blob_quality : Q
}.

(** [canvas.toBlob(callback, 'image/jpeg', quality)]: the callback receives
    [null] when the bitmap has no pixels or the image cannot be encoded
    ([encodes = false]). *)
Definition toBlob (encodes : bool) (canvas : Size) (quality : Q)
  : option Blob :=
  if decide (width canvas = 0 ∨ height canvas = 0) then None
  else if encodes then
    Some {| blob_type := "image/jpeg"; blob_width := width canvas;
            blob_height := height canvas; blob_quality := quality |}
  else None.

(** [resizeImage(file, maxWidth, maxHeight, quality = 0.8)].  [decoded] is the
    natural size of the image when [img.onload] fires, [None] when
    [img.onerror] fires. *)
Definition resizeImage (decoded : option Size) (encodes : bool)
  (maxWidth maxHeight : Z) (quality : Q) : Promise Blob :=
  match decoded with
  | None => Reject "Failed to load image for resizing"
  | Some img =>
      let canvas :=
        canvas_dimensions (width img) (height img) maxWidth maxHeight in
      match toBlob encodes canvas quality with
      | Some blob => Resolve blob
      | None => Reject "Failed to resize image"
      end
  end.

(** *** [imageCache] *)

(** A JavaScript [Map<string, string>]: entries in insertion order, one per
    key; [set] on a present key keeps the position of its entry. *)
Abbreviation JsMap := (list (string * string)).

Definition map_get (key : string) (m : JsMap) : option string :=
  snd ∘ snd <$> list_find (λ kv, kv.1 = key) m.

Definition map_has (key : string) (m : JsMap) : bool :=
  bool_decide (key ∈ m.*1).

Definition map_set (key value : string) (m : JsMap) : JsMap :=
  if map_has key m
  then (λ kv, if decide (kv.1 = key) then (key, value) else kv) <$> m
  else m ++ [(key, value)].

Definition map_delete (key : string) (m : JsMap) : JsMap :=
  filter (λ kv, kv.1 ≠ key) m.

Definition map_size (m : JsMap) : Z := Z.of_nat (length m).

(** [cache.keys().next().value]. *)
Definition first_key (m : JsMap) : option string := fst <$> head m.

(** [imageCache.get]. *)
Definition get (key : string) (cache : JsMap) : option string :=
  map_get key cache.

(** [imageCache.set]: "Limit cache size to prevent memory issues". *)
Definition set (key value : string) (cache : JsMap) : JsMap :=
  let cache1 :=
    if decide (map_size cache > 100) then
      match first_key cache with
      | Some firstKey => map_delete firstKey cache
      | None => cache
      end
    else cache in
  map_set key value cache1.

(** [imageCache.clear]. *)
Definition clear (cache : JsMap) : JsMap := [].

(** The operations of the cache; [get] returns a value and leaves the map as
    it is. *)
Inductive CacheOp :=
| CacheGet (key : string)
| CacheSet (key value : string)
| CacheClear.

Definition cache_step (cache : JsMap) (op : CacheOp) : JsMap :=
  match op with
  | CacheGet _ => cache
  | CacheSet key value => set key value cache
  | CacheClear => clear cache
  end.

Definition cache_run (ops : list CacheOp) (cache : JsMap) : JsMap :=
  fold_left cache_step ops cache.

(** Keys [k0], [k1], ... *)
Definition nth_key (i : nat) : string := "k" +:+ pretty i.

Definition set_fresh_keys (n : nat) : list CacheOp :=
  (λ i, CacheSet (nth_key i) "url") <$> seq 0 n.

(** The aspect ratio [w'/h'] of [out] equals [w/h], cross-multiplied. *)
Definition same_aspect (w h : Z) (out : Size) : Prop :=
  width out * h = w * height out.

(** What every reachable cache satisfies: one entry per key, at most 101
    entries. *)
Definition cache_inv (cache : JsMap) : Prop :=
  NoDup cache.*1 ∧ map_size cache ≤ 101.

End ImageUtils.

(** ** Upload to storage *)

Module Storage.
Import ImageUtils.

(** [interface UploadResult]. *)
Record UploadResult := {
  url : string;
  path : string;
  error : option string
}.

Inductive Stage := validating | resizing | uploading | complete | failed.

(** [interface UploadProgress]; [failed] is the stage ['error']. *)
Record UploadProgress := {
  progress : Z;
  stage : Stage
}.

(** The objects of a bucket, by path. *)
Abbreviation Bucket := (list (string * Blob)).

(** What the function does to the outside, in order.  Console logging and the
    performance checkpoints do not influence the result and are left out; the
    progress callback returns normally. *)
Inductive Effect :=
| OnProgress (p : UploadProgress)
| CallResizeImage (file : File) (maxWidth maxHeight : Z) (quality : Q)
| CallStorageUpload (bucket path : string) (blob : Blob)
| CallGetPublicUrl (bucket path : string).

(** What the environment decides during one upload. *)
Record Env := {
  decoded : option Size;        (* the image as decoded by the browser *)
  encodes : bool;               (* whether the canvas can be encoded *)
  date_now : Z;                 (* [Date.now()] *)
  service_error : option string; (* a failure of the storage service *)
  data_path : string → string;  (* [data.path] of the reply to an upload
                                   sent under the given path *)
  public_url : string → string  (* [getPublicUrl(path).data.publicUrl] *)
}.

(** [storage.from(bucket).upload(path, blob, { upsert: false })].  The storage
    client does not keep the path it is given: it cleans it (empty folders
    go, so [products/a//b.jpg] becomes [products/a/b.jpg]), the object is
    stored under the cleaned path and the reply carries that path as
    [data.path].  The client is no part of this repository, so the path of
    the reply is left to the environment.  The service refuses an occupied
    path. *)
Definition storage_upload (env : Env) (objects : Bucket) (path : string)
  (blob : Blob) : Bucket * option string :=
  match service_error env with
  | Some msg => (objects, Some msg)
  | None =>
      if bool_decide (data_path env path ∈ objects.*1)
      then (objects, Some "The resource already exists")
      else (objects ++ [(data_path env path, blob)], None)
  end.

Record Outcome := {
  result : UploadResult;
  effects : list Effect;
  objects_after : Bucket
}.

Definition failure (msg : option string) : UploadResult :=
  {| url := ""; path := ""; error := msg |}.

(** [uploadProductImage(file, productId, index = 0, onProgress)]. *)
Definition uploadProductImage (env : Env) (file : File) (productId : string)
  (index : Z) (objects : Bucket) : Outcome :=
  let e1 : list Effect :=
    [OnProgress {| progress := 10; stage := validating |}] in
  let fileValidation := validateFileUpload file in
  if negb (valid fileValidation) then
    {| result := failure (Some ("File validation failed: "
                   +:+ default "undefined" (upload_error fileValidation)));
       effects := e1; objects_after := objects |}
  else
  let validation := validateImageFile file in
  if negb (isValid validation) then
    {| result := failure (ImageUtils.error validation);
       effects := e1; objects_after := objects |}
  else
  let quality := (inject_Z JPEG_QUALITY / 100)%Q in
  let e2 : list Effect :=
    e1 ++ [OnProgress {| progress := 30; stage := resizing |};
           CallResizeImage file (width LARGE_SIZE) (height LARGE_SIZE)
                           quality] in
  match resizeImage (decoded env) (encodes env)
          (width LARGE_SIZE) (height LARGE_SIZE) quality with
  | Reject msg =>
      (* the [catch] block *)
      {| result := failure (Some msg);
         effects := e2 ++ [OnProgress {| progress := 0; stage := failed |}];
         objects_after := objects |}
  | Resolve resizedBlob =>
      let fileName := productId +:+ "-" +:+ pretty index +:+ "-"
                      +:+ pretty (date_now env) +:+ ".jpg" in
      let filePath := "products/" +:+ fileName in
      let e3 : list Effect :=
        e2 ++ [OnProgress {| progress := 60; stage := uploading |};
               CallStorageUpload STORAGE_BUCKET filePath resizedBlob] in
      match storage_upload env objects filePath resizedBlob with
      | (objects', Some msg) =>
          {| result := failure (Some msg); effects := e3;
             objects_after := objects' |}
      | (objects', None) =>
          (* [getPublicUrl(data.path)] and [{ url: publicUrl,
             path: data.path }] *)
          {| result := {| url := public_url env (data_path env filePath);
                          path := data_path env filePath;
                          error := None |};
             effects := e3 ++ [CallGetPublicUrl STORAGE_BUCKET
                                 (data_path env filePath);
                               OnProgress {| progress := 100;
                                             stage := complete |}];
             objects_after := objects' |}
      end
  end.

(** The effects that load or transmit the image. *)
Definition resizes_or_uploads (e : Effect) : bool :=
  match e with
  | OnProgress _ => false
  | CallResizeImage _ _ _ _ => true
  | CallStorageUpload _ _ _ => true
  | CallGetPublicUrl _ _ => true
  end.

(** An [UploadResult] reports an error when its [error] field is set. *)
Definition is_error (r : UploadResult) : Prop := is_Some (error r).

(** *** Sample data *)

Definition png_6MB : File :=
  {| file_name := "banner.png"; size := 6 * 1024 * 1024;
     type := "image/png" |}.

Definition jpeg_1MB : File :=
  {| file_name := "shirt.jpg"; size := 1024 * 1024; type := "image/jpeg" |}.

Definition upload_env : Env :=
  {| decoded := Some {| width := 4000; height := 3000 |};
     encodes := true;
     date_now := 1751241600000;
     service_error := None;
     data_path := λ path, path;  (* the sample paths hold no empty folder *)
     public_url := λ path,
       "https://project.supabase.co/storage/v1/object/public/product-images/"
       +:+ path |}.

End Storage.

(** ** The auth store *)

Module Auth.

Record User := {
  user_id : string;
  email : option string
}.

(** The data part of [interface AuthState]. *)
Record AuthState := {
  user : option User;
  isLoading : bool;
  isAdmin : bool
}.

Definition set_isAdmin (s : AuthState) (b : bool) : AuthState :=
  {| user := user s; isLoading := isLoading s; isAdmin := b |}.

(** The selected column of a [user_profiles] row: [is_admin boolean DEFAULT
    false], nullable. *)
Record ProfileRow := {
  is_admin : option bool
}.

(** What [await ...select('is_admin').eq('id', user.id).maybeSingle()] gives:
    the promise rejects, or it resolves to [{ data, error }] with [data] the
    profile row or [null]. *)
Inductive ProfileResponse :=
| QueryRejected (reason : string)
| QueryResolved (data : option ProfileRow) (error : option string).

(** How an [async] function ends: it returns in a state, or it throws. *)
Inductive Completion :=
| Returns (s : AuthState)
| Throws (reason : string).

(** The body of the [try] block of [checkAdminStatus]. *)
Definition checkAdminStatus_try (response : ProfileResponse) (s : AuthState)
  : Completion :=
  match response with
  | QueryRejected reason => Throws reason
  | QueryResolved data error =>
      match error with
      | Some _ => Returns (set_isAdmin s false)
      | None =>
          (* [data?.is_admin || false] *)
          let isAdmin := default false (data ≫= is_admin) in
          Returns (set_isAdmin s isAdmin)
      end
  end.

(** [checkAdminStatus]: without a user it returns at once; the [catch] block
    turns an exception of the body into [isAdmin: false]. *)
Definition checkAdminStatus (response : ProfileResponse) (s : AuthState)
  : Completion :=
  match user s with
  | None => Returns s
  | Some _ =>
      match checkAdminStatus_try response s with
      | Returns s' => Returns s'
      | Throws _ => Returns (set_isAdmin s false)
      end
  end.

(** *** Sample data *)

Definition alice : User :=
  {| user_id := "5d0e"; email := Some "alice@example.com" |}.

(** Alice has signed in; the flag still holds what an earlier session left. *)
Definition signed_in : AuthState :=
  {| user := Some alice; isLoading := false; isAdmin := true |}.

End Auth.

(** ** The cart modal *)

Module CartModal.
Import Cart.

(** The handlers of [src/components/CartModal.tsx] wrap the store actions in
    [try]/[catch] and report with a toast; on the local state they act as the
    actions do. *)

(** [handleQuantityChange(productId, quantity)]. *)
Definition handleQuantityChange (productId : string) (q : Z) (s : CartState)
  : CartState :=
  updateQuantity productId q s.

(** The minus button of a line:
    [handleQuantityChange(item.product_id, item.quantity - 1)]. *)
Definition minus (item : CartItem) (s : CartState) : CartState :=
  handleQuantityChange (product_id item) (quantity item - 1) s.

(** The plus button:
    [handleQuantityChange(item.product_id, item.quantity + 1)]. *)
Definition plus (item : CartItem) (s : CartState) : CartState :=
  handleQuantityChange (product_id item) (quantity item + 1) s.

(** [handleRemoveItem(item.product_id)]. *)
Definition handleRemoveItem (productId : string) (s : CartState) : CartState :=
  removeItem productId s.

(** Every line holds at least one unit. *)
Definition positive_quantities (s : CartState) : Prop :=
  ∀ item, item ∈ items s → 1 ≤ quantity item.

(** An action that adds at least one unit when it adds. *)
Definition adds_units (a : Action) : Prop :=
  match a with
  | AddItem _ q _ => 1 ≤ q
  | _ => True
  end.

End CartModal.

(** ** The cart store with its server mirror and its analytics call *)

Module CartSync.
Import Cart.

(** The columns of [shopping_carts] and [cart_items] that the store reads and
    writes.  A row of [cart_items] written by the store carries its cart and
    its product; [unit_price] (stored as [decimal(10,2)]), [variant_id],
    [created_at] and [updated_at] are left out. *)
Record ShoppingCart := {
  sc_id : string;
  sc_user_id : option string
}.

Record CartItemDb := {
  ci_id : string;
  ci_cart_id : option string;
  ci_product_id : option string;
  ci_quantity : Z
}.

Record Server := {
  shopping_carts : list ShoppingCart;
  cart_items : list CartItemDb
}.

(** The local store, the two tables and the analytics tables. *)
Record World := {
  local : CartState;
  server : Server;
  analytics : Analytics.Database
}.

(** How an awaited [select] ends: with the rows, with an error object (then
    [data] is [null]), or by rejecting. *)
Inductive Reply := Answered | Errored | Rejected.

(** What the network and the backend decide during one action of the store.
    Each action sends at most one [select], one cart [insert] and one write
    to [cart_items]; [write_ok] says whether the write arrives and passes the
    policies, the column types and the foreign keys. *)
Record Net := {
  rpc_ok : bool;
  rpc_session : Analytics.Session;
  select_reply : Reply;
  insert_cart_ok : bool;
  new_cart_id : string;
  write_ok : bool;
  new_item_id : string
}.

(** [trackProductInteraction(product.id, 'cart_adds')] as awaited by
    [addItem]: it has its own [try]/[catch] and always returns. *)
Definition track (net : Net) (productId metric : string)
  (db : Analytics.Database) : Analytics.Database :=
  if rpc_ok net
  then Analytics.trackProductInteraction (rpc_session net) productId metric db
  else db.

(** [.from('shopping_carts').select('id').eq('user_id', user.id)
    .maybeSingle()]: no row gives [null], one row gives it, several rows are
    an error. *)
Definition cart_of (uid : string) (sv : Server) : option ShoppingCart :=
  match filter (λ c, sc_user_id c = Some uid) (shopping_carts sv) with
  | [c] => Some c
  | _ => None
  end.

(** [const { data: cart } = await ...]: [None] when the promise rejects, which
    leaves the [try] block. *)
Definition select_cart (net : Net) (uid : string) (sv : Server)
  : option (option ShoppingCart) :=
  match select_reply net with
  | Rejected => None
  | Errored => Some None
  | Answered => Some (cart_of uid sv)
  end.

(** [.from('shopping_carts').insert({ user_id }).select('id').single()]: the
    primary key and [UNIQUE(user_id)] are enforced; [newCart?.id]. *)
Definition insert_cart (net : Net) (uid : string) (sv : Server)
  : Server * option string :=
  if insert_cart_ok net
     && bool_decide (new_cart_id net ∉ sc_id <$> shopping_carts sv)
     && bool_decide (Some uid ∉ sc_user_id <$> shopping_carts sv)
  then ({| shopping_carts :=
             shopping_carts sv
               ++ [{| sc_id := new_cart_id net; sc_user_id := Some uid |}];
           cart_items := cart_items sv |},
        Some (new_cart_id net))
  else (sv, None).

(** [.from('cart_items').insert({ cart_id, product_id, quantity,
    unit_price })]. *)
Definition insert_item (net : Net) (cartId : string) (product : Product)
  (q : Z) (sv : Server) : Server :=
  if write_ok net && bool_decide (new_item_id net ∉ ci_id <$> cart_items sv)
  then {| shopping_carts := shopping_carts sv;
          cart_items :=
            cart_items sv
              ++ [{| ci_id := new_item_id net; ci_cart_id := Some cartId;
                     ci_product_id := Some (prod_id product);
                     ci_quantity := q |}] |}
  else sv.

Definition with_cart_items (sv : Server) (l : list CartItemDb) : Server :=
  {| shopping_carts := shopping_carts sv; cart_items := l |}.

(** The rows a filter [.eq('cart_id', cart.id).eq('product_id', productId)]
    selects. *)
Definition in_cart_of_product (cartId productId : string) (r : CartItemDb)
  : Prop :=
  ci_cart_id r = Some cartId ∧ ci_product_id r = Some productId.

Global Instance in_cart_of_product_dec c p r :
  Decision (in_cart_of_product c p r).
Proof. unfold in_cart_of_product. apply _. Defined.

(** [.update({ quantity }).eq('cart_id', ..).eq('product_id', ..)]. *)
Definition update_items (net : Net) (cartId productId : string) (q : Z)
  (sv : Server) : Server :=
  if write_ok net
  then with_cart_items sv
         ((λ r, if decide (in_cart_of_product cartId productId r)
                then {| ci_id := ci_id r; ci_cart_id := ci_cart_id r;
                        ci_product_id := ci_product_id r;
                        ci_quantity := q |}
                else r) <$> cart_items sv)
  else sv.

(** [.delete().eq('cart_id', ..).eq('product_id', ..)]. *)
Definition delete_items (net : Net) (cartId productId : string) (sv : Server)
  : Server :=
  if write_ok net
  then with_cart_items sv
         (filter (λ r, ¬ in_cart_of_product cartId productId r)
                 (cart_items sv))
  else sv.

(** [.delete().eq('cart_id', cart.id)]. *)
Definition delete_cart_items (net : Net) (cartId : string) (sv : Server)
  : Server :=
  if write_ok net
  then with_cart_items sv
         (filter (λ r, ci_cart_id r ≠ Some cartId) (cart_items sv))
  else sv.

(** "Sync with database if user is logged in": the [try] block of
    [removeItem].  [user] is the user of the auth store when the action
    starts. *)
Definition sync_remove (net : Net) (user : option Auth.User)
  (productId : string) (sv : Server) : Server :=
  match user with
  | None => sv
  | Some u =>
      match select_cart net (Auth.user_id u) sv with
      | Some (Some cart) => delete_items net (sc_id cart) productId sv
      | _ => sv
      end
  end.

(** The [try] block of [updateQuantity]. *)
Definition sync_update (net : Net) (user : option Auth.User)
  (productId : string) (q : Z) (sv : Server) : Server :=
  match user with
  | None => sv
  | Some u =>
      match select_cart net (Auth.user_id u) sv with
      | Some (Some cart) => update_items net (sc_id cart) productId q sv
      | _ => sv
      end
  end.

(** The [try] block of [clearCart]. *)
Definition sync_clear (net : Net) (user : option Auth.User) (sv : Server)
  : Server :=
  match user with
  | None => sv
  | Some u =>
      match select_cart net (Auth.user_id u) sv with
      | Some (Some cart) => delete_cart_items net (sc_id cart) sv
      | _ => sv
      end
  end.

(** The [try] block of [addItem]: find the cart of the user or create it,
    then insert the line. *)
Definition sync_add (net : Net) (user : option Auth.User) (product : Product)
  (q : Z) (sv : Server) : Server :=
  match user with
  | None => sv
  | Some u =>
      match select_cart net (Auth.user_id u) sv with
      | None => sv
      | Some cart =>
          let '(sv1, cartId) :=
            match cart with
            | Some c => (sv, Some (sc_id c))
            | None => insert_cart net (Auth.user_id u) sv
            end in
          match cartId with
          | Some cid => insert_item net cid product q sv1
          | None => sv1
          end
      end
  end.

(** [removeItem]. *)
Definition removeItem (net : Net) (user : option Auth.User)
  (productId : string) (w : World) : World :=
  {| local := set_items (local w)
                (filter (λ item, product_id item ≠ productId)
                        (items (local w)));
     server := sync_remove net user productId (server w);
     analytics := analytics w |}.

(** [updateQuantity]: with [quantity <= 0] it awaits [removeItem] and
    returns. *)
Definition updateQuantity (net : Net) (user : option Auth.User)
  (productId : string) (q : Z) (w : World) : World :=
  if decide (q ≤ 0) then removeItem net user productId w
  else
    {| local := set_items (local w)
                  ((λ item, if decide (product_id item = productId)
                            then with_quantity item q else item)
                     <$> items (local w));
       server := sync_update net user productId q (server w);
       analytics := analytics w |}.

(** [addItem]: the analytics call and the mirror happen only for a product
    that enters the cart. *)
Definition addItem (net : Net) (user : option Auth.User) (product : Product)
  (q now : Z) (w : World) : World :=
  match find_product (prod_id product) (items (local w)) with
  | Some existingItem =>
      updateQuantity net user (prod_id product)
                     (quantity existingItem + q) w
  | None =>
      {| local := set_items (local w)
                    (items (local w) ++ [newItem product q now]);
         server := sync_add net user product q (server w);
         analytics := track net (prod_id product) "cart_adds" (analytics w) |}
  end.

(** [clearCart]. *)
Definition clearCart (net : Net) (user : option Auth.User) (w : World)
  : World :=
  {| local := set_items (local w) [];
     server := sync_clear net user (server w);
     analytics := analytics w |}.

(** One action of the store, run to its end. *)
Definition step (net : Net) (user : option Auth.User) (w : World)
  (a : Action) : World :=
  match a with
  | AddItem product q now => addItem net user product q now w
  | UpdateQuantity productId q => updateQuantity net user productId q w
  | RemoveItem productId => removeItem net user productId w
  | ClearCart => clearCart net user w
  end.

(** A sequence of actions, each with what the network decided for it, run one
    after the other. *)
Definition run (user : option Auth.User) (steps : list (Net * Action))
  (w : World) : World :=
  fold_left (λ w0 na, step na.1 user w0 na.2) steps w.

(** Every request of the action is answered and carried out. *)
Definition online (net : Net) : Prop :=
  select_reply net = Answered ∧ insert_cart_ok net = true ∧
  write_ok net = true.

(** The constraints of the two tables: primary keys, [UNIQUE(user_id)] and
    the foreign key of [cart_items.cart_id]. *)
Record constraints (sv : Server) : Prop := {
  carts_pkey : NoDup (sc_id <$> shopping_carts sv);
  carts_user_key : NoDup (omap sc_user_id (shopping_carts sv));
  items_pkey : NoDup (ci_id <$> cart_items sv);
  items_cart_fkey :
    ∀ r cid, r ∈ cart_items sv → ci_cart_id r = Some cid →
      cid ∈ sc_id <$> shopping_carts sv
}.

(** The product and the quantity of a server row and of a local line. *)
Definition row_content (r : CartItemDb) : option string * Z :=
  (ci_product_id r, ci_quantity r).

Definition line_content (item : CartItem) : option string * Z :=
  (Some (product_id item), quantity item).

(** The rows of the cart of a user. *)
Definition rows_of_user (uid : string) (sv : Server) : list CartItemDb :=
  match cart_of uid sv with
  | Some c => filter (λ r, ci_cart_id r = Some (sc_id c)) (cart_items sv)
  | None => []
  end.

(** The mirror is exact: the rows of the user's cart carry, in order, the
    product and the quantity of the local lines. *)
Definition mirrored (uid : string) (w : World) : Prop :=
  row_content <$> rows_of_user uid (server w)
  = line_content <$> items (local w).

(** The ids the backend draws for new rows are fresh. *)
Definition fresh_ids (net : Net) (sv : Server) : Prop :=
  (new_cart_id net ∉ sc_id <$> shopping_carts sv) ∧
  (new_item_id net ∉ ci_id <$> cart_items sv).

(** The server after one action, seen from a cart [cid] that the action does
    not write to. *)
Definition untouched (cid : string) (sv sv' : Server) : Prop :=
  filter (λ r, ci_cart_id r = Some cid) (cart_items sv')
  = filter (λ r, ci_cart_id r = Some cid) (cart_items sv).

(** Every action of the sequence is carried out by the backend. *)
Fixpoint carried_out (user : option Auth.User) (steps : list (Net * Action))
  (w : World) : Prop :=
  match steps with
  | [] => True
  | na :: rest =>
      online na.1 ∧ fresh_ids na.1 (server w) ∧
      carried_out user rest (step na.1 user w na.2)
  end.

(** What the query of [loadCart] reports of a stored row: its id, product and
    quantity, with the product embedded (it is visible to the user). *)
Definition reported (stored : CartItemDb) (row : CartItemRow) : Prop :=
  row_id row = ci_id stored ∧
  ci_product_id stored = Some (row_product_id row) ∧
  row_quantity row = ci_quantity stored ∧
  is_Some (products row).

(** The answer of [.from('shopping_carts').select(`id, cart_items (...)`)
    .eq('user_id', user.id).maybeSingle()] on the tables [sv]: [null] when the
    user has no cart, else the cart with its rows, in some order. *)
Definition reports (uid : string) (sv : Server) (response : CartResponse)
  : Prop :=
  match cart_of uid sv with
  | None => response = Resolved None
  | Some c =>
      ∃ stored rows,
        stored ≡ₚ rows_of_user uid sv ∧ Forall2 reported stored rows ∧
        response
        = Resolved (Some {| cart_id := sc_id c;
                            Cart.cart_items := Some rows |})
  end.

(** *** Sample data *)

(** An action that the backend carries out, drawing the given ids. *)
Definition net_ok (cartId itemId : string) : Net :=
  {| rpc_ok := true; rpc_session := Analytics.today;
     select_reply := Answered; insert_cart_ok := true;
     new_cart_id := cartId; write_ok := true; new_item_id := itemId |}.

(** An action during which the network is down. *)
Definition net_down : Net :=
  {| rpc_ok := false; rpc_session := Analytics.today;
     select_reply := Rejected; insert_cart_ok := false;
     new_cart_id := "c-0"; write_ok := false; new_item_id := "i-0" |}.

Definition world_empty : World :=
  {| local := init;
     server := {| shopping_carts := []; cart_items := [] |};
     analytics := Analytics.db_empty |}.

(** Two products added, one quantity changed, one product removed. *)
Definition session_steps : list (Net * Action) :=
  [ (net_ok "c-1" "i-1", AddItem product_A 2 1751241600000);
    (net_ok "c-2" "i-2", AddItem product_B 1 1751241601000);
    (net_ok "c-3" "i-3", UpdateQuantity "A" 3);
    (net_ok "c-4" "i-4", RemoveItem "B") ].

(** What [loadCart] receives after [session_steps]. *)
Definition session_response : CartResponse :=
  Resolved (Some {| cart_id := "c-1";
                    Cart.cart_items := Some
                      [ {| row_id := "i-1"; row_product_id := "A";
                           row_quantity := 3; unit_price := 10%float;
                           products := Some {| products_name := "Shirt";
                                               product_media := None |} |} ]
                 |}).

End CartSync.

(** ** Counting interactions, and the pages that add to the cart *)

Module Tracking.
Import Analytics.

(** The count of metric [m] for product [p] on day [d]: the counter of the
    row of [(p, d)], 0 without a row or with a NULL counter. *)
Definition count (m : metric) (p : uuid) (d : Z) (db : Database) : Z :=
  match row_for p d (product_analytics db) with
  | Some r => default 0 (counter m r)
  | None => 0
  end.

(** Calls of [trackProductInteraction(productId, metric)], one per session,
    one after the other. *)
Definition track_all (sessions : list Session) (productId : uuid)
  (metric : string) (db : Database) : Database :=
  fold_left (λ db0 ses, trackProductInteraction ses productId metric db0)
            sessions db.

(** The counter [m] of today's row of [p], if there is a row, is not NULL. *)
Definition counted (m : metric) (p : uuid) (d : Z) (db : Database) : Prop :=
  ∀ r, row_for p d (product_analytics db) = Some r → is_Some (counter m r).

(** *** Sample data *)

Definition three_sessions : list Session :=
  [ today; later_today;
    {| CURRENT_DATE := 20269; now := 1751248800;
       gen_random_uuid := "81aa" |} ].

End Tracking.

Module Pages.
Import Cart CartSync.

(** [handleAddToCart] of the product card of the feed: [await
    addItem(product)], then [trackProductInteraction(product.id,
    'cart_adds')] once more, not awaited; [net2] is what the network decides
    for that second call.  The state is the one after both have settled. *)
Definition feed_handleAddToCart (net net2 : Net) (user : option Auth.User)
  (product : Product) (now : Z) (w : World) : World :=
  let w1 := addItem net user product 1 now w in
  {| local := local w1; server := server w1;
     analytics := track net2 (prod_id product) "cart_adds" (analytics w1) |}.

(** [handleAddToCart] of [src/pages/SearchPage.tsx] and of the wishlist:
    [await addItem(product)]. *)
Definition search_handleAddToCart (net : Net) (user : option Auth.User)
  (product : Product) (now : Z) (w : World) : World :=
  addItem net user product 1 now w.

(** *** Sample data *)

Definition product_p : Product :=
  {| prod_id := "p"; prod_name := "Saree"; prod_price := 30%float;
     prod_media := None |}.

Definition net_later : Net :=
  {| rpc_ok := true; rpc_session := Analytics.later_today;
     select_reply := Answered; insert_cart_ok := true;
     new_cart_id := "c-9"; write_ok := true; new_item_id := "i-9" |}.

Definition world_some : World :=
  {| local := init;
     server := {| shopping_carts := []; cart_items := [] |};
     analytics := Analytics.db_some |}.

End Pages.

(** ** The other actions of the auth store *)

Module AuthStore.
Import Auth.

Definition set_user (s : AuthState) (u : option User) : AuthState :=
  {| user := u; isLoading := isLoading s; isAdmin := isAdmin s |}.

Definition set_isLoading (s : AuthState) (b : bool) : AuthState :=
  {| user := user s; isLoading := b; isAdmin := isAdmin s |}.

(** The store as [create] builds it. *)
Definition init : AuthState :=
  {| user := None; isLoading := true; isAdmin := false |}.

(** What [await supabase.auth.getUser()] gives: the promise rejects, or it
    resolves to [{ data: { user } }]. *)
Inductive GetUserResponse :=
| GetUserRejected
| GetUserResolved (u : option User).

(** What [await supabase.auth.signInWithPassword(..)] and [signUp(..)] give:
    the promise rejects, or it resolves to [{ data, error }]. *)
Inductive AuthResponse :=
| AuthRejected
| AuthResolved (data_user : option User) (error : option string).

(** How an action ends: the state it leaves, and [{ error }] when it returns
    ([None] when it throws). *)
Record Ended := {
  state : AuthState;
  returned : option (option string)
}.

(** [await get().checkAdminStatus()] inside another action: the state when
    it returns, [None] when it throws. *)
Definition awaited (c : Completion) : option AuthState :=
  match c with
  | Returns s => Some s
  | Throws _ => None
  end.

(** [initialize]: the [try] block with its [catch]; registering the listener
    changes no field of the store. *)
Definition initialize (g : GetUserResponse) (r : ProfileResponse)
  (s : AuthState) : AuthState :=
  match g with
  | GetUserRejected => set_isLoading s false
  | GetUserResolved u =>
      let s1 := {| user := u; isLoading := false; isAdmin := isAdmin s |} in
      match u with
      | Some _ =>
          match awaited (checkAdminStatus r s1) with
          | Some s2 => s2
          | None => set_isLoading s1 false
          end
      | None => s1
      end
  end.

(** The listener registered by [initialize], called with [session?.user]. *)
Definition onAuthStateChange (session_user : option User)
  (r : ProfileResponse) (s : AuthState) : AuthState :=
  let s1 := set_user s session_user in    (* [session?.user || null] *)
  match session_user with
  | Some _ => default s1 (awaited (checkAdminStatus r s1))
  | None => set_isAdmin s1 false
  end.

(** [signIn(email, password)]. *)
Definition signIn (resp : AuthResponse) (r : ProfileResponse) (s : AuthState)
  : Ended :=
  match resp with
  | AuthRejected => {| state := s; returned := None |}
  | AuthResolved (Some u) None =>
      let s1 := set_user s (Some u) in
      match awaited (checkAdminStatus r s1) with
      | Some s2 => {| state := s2; returned := Some None |}
      | None => {| state := s1; returned := None |}
      end
  | AuthResolved _ error => {| state := s; returned := Some error |}
  end.

(** [signUp(email, password)]; the insert into [user_profiles] has its own
    [try]/[catch] and changes no field of the store. *)
Definition signUp (resp : AuthResponse) (s : AuthState) : Ended :=
  match resp with
  | AuthRejected => {| state := s; returned := None |}
  | AuthResolved (Some u) None =>
      {| state := set_user s (Some u); returned := Some None |}
  | AuthResolved _ error => {| state := s; returned := Some error |}
  end.

(** [signOut()]; [rejected] says that [supabase.auth.signOut()] rejects, an
    error it resolves with is not read. *)
Definition signOut (rejected : bool) (s : AuthState) : Ended :=
  if rejected then {| state := s; returned := None |}
  else {| state := {| user := None; isLoading := isLoading s;
                      isAdmin := false |};
          returned := Some None |}.

(** What happens to the store, with what the backend answers. *)
Inductive Action :=
| Initialize (g : GetUserResponse) (r : ProfileResponse)
| AuthChange (session_user : option User) (r : ProfileResponse)
| SignIn (resp : AuthResponse) (r : ProfileResponse)
| SignUp (resp : AuthResponse)
| SignOut (rejected : bool)
| CheckAdminStatus (r : ProfileResponse).

Definition step (s : AuthState) (a : Action) : AuthState :=
  match a with
  | Initialize g r => initialize g r s
  | AuthChange u r => onAuthStateChange u r s
  | SignIn resp r => state (signIn resp r s)
  | SignUp resp => state (signUp resp s)
  | SignOut rejected => state (signOut rejected s)
  | CheckAdminStatus r => default s (awaited (checkAdminStatus r s))
  end.

Definition run (actions : list Action) (s : AuthState) : AuthState :=
  fold_left step actions s.

(** [initialize] is the first action only. *)
Definition after_start (a : Action) : Prop :=
  match a with
  | Initialize _ _ => False
  | _ => True
  end.

(** The profile query answers, without error, with a row whose [is_admin] is
    [true]. *)
Definition says_admin (r : ProfileResponse) : Prop :=
  ∃ row, r = QueryResolved (Some row) None ∧ is_admin row = Some true.

(** *** Sample data *)

Definition admin_row : ProfileRow := {| is_admin := Some true |}.

Definition bob : User :=
  {| user_id := "77aa"; email := Some "bob@example.com" |}.

(** Alice, an admin, signs in, a profile check fails, Bob signs up, signs
    out. *)
Definition a_session : list Action :=
  [ SignIn (AuthResolved (Some alice) None)
           (QueryResolved (Some admin_row) None);
    CheckAdminStatus (QueryRejected "network");
    SignUp (AuthResolved (Some bob) None);
    SignOut false ].

End AuthStore.

(** ** Batch upload, deletion and the media records of a product *)

Module StorageBatch.
Import ImageUtils Storage.

(** [uploadProductImages(files, productId, onProgress)]: the loop started at
    index [i]; each file comes with what the environment decides during its
    upload. *)
Fixpoint uploadProductImages_from (i : Z) (uploads : list (Env * File))
  (productId : string) (objects : Bucket) : list UploadResult * Bucket :=
  match uploads with
  | [] => ([], objects)
  | (env, file) :: rest =>
      let o := uploadProductImage env file productId i objects in
      let '(results, objects') :=
        uploadProductImages_from (i + 1) rest productId (objects_after o) in
      (result o :: results, objects')
  end.

Definition uploadProductImages (uploads : list (Env * File))
  (productId : string) (objects : Bucket) : list UploadResult * Bucket :=
  uploadProductImages_from 0 uploads productId objects.

(** [deleteProductImage(path)]: [storage.from(bucket).remove([path])];
    [fails] says that the service reports an error or the request rejects.
    Removing a path that holds no object is no error. *)
Definition deleteProductImage (fails : bool) (path : string)
  (objects : Bucket) : bool * Bucket :=
  if fails then (false, objects)
  else (true, filter (λ o, o.1 ≠ path) objects).

(** A string as a condition: the empty string is falsy. *)
Definition nonempty (s : string) : bool := bool_decide (s ≠ "").

(** [result.error] as a condition. *)
Definition has_error (r : UploadResult) : bool :=
  match error r with
  | Some msg => nonempty msg
  | None => false
  end.

End StorageBatch.

Module AdminProducts.
Import ImageUtils Storage StorageBatch.

(** A row of [product_media] as [onSubmit] inserts it; [media_type] is
    ['image']. *)
Record MediaRecord := {
  media_product_id : string;
  media_url : string;
  is_primary : bool;
  display_order : Z;
  alt_text : string
}.

(** How [await supabase.from('product_media').insert(mediaRecord)] ends: the
    row is inserted, the request resolves with an error, or it rejects. *)
Inductive InsertReply := Inserted | Refused | Failed.

(** What the backend decides for the record of index [i]: how its insert
    ends, and whether the clean-up of its file fails. *)
Record Backend := {
  insert_reply : Z → InsertReply;
  delete_fails : Z → bool
}.

(** How the loop over the upload results ends. *)
Record MediaOutcome := {
  saved : list MediaRecord;          (* [product_media] afterwards *)
  mediaInserts : list UploadResult;
  bucket : Bucket;
  thrown : bool
}.

(** [if (result.error || !result.url) continue]. *)
Definition skipped (r : UploadResult) : bool :=
  has_error r || negb (nonempty (url r)).

(** "Insert media records into database": the loop from index [i]. *)
Fixpoint media_records (be : Backend) (productId name : string) (i : Z)
  (results : list UploadResult) (table : list MediaRecord)
  (objects : Bucket) : MediaOutcome :=
  match results with
  | [] => {| saved := table; mediaInserts := []; bucket := objects;
             thrown := false |}
  | r :: rest =>
      if skipped r then
        media_records be productId name (i + 1) rest table objects
      else
        let mediaRecord :=
          {| media_product_id := productId;
             media_url := url r;
             is_primary := bool_decide (i = 0);
             display_order := i;
             alt_text := name +:+ " - Image " +:+ pretty (i + 1) |} in
        match insert_reply be i with
        | Inserted =>
            let o := media_records be productId name (i + 1) rest
                                   (table ++ [mediaRecord]) objects in
            {| saved := saved o; mediaInserts := r :: mediaInserts o;
               bucket := bucket o; thrown := thrown o |}
        | Refused =>
            (* clean up the uploaded file, then [throw mediaError] *)
            {| saved := table; mediaInserts := [];
               bucket := if nonempty (path r)
                         then (deleteProductImage (delete_fails be i)
                                                  (path r) objects).2
                         else objects;
               thrown := true |}
        | Failed =>
            (* the [catch] block throws the error on *)
            {| saved := table; mediaInserts := []; bucket := objects;
               thrown := true |}
        end
  end.

(** The bucket after the insert of the record of [r] at index [i] has not
    gone through. *)
Definition cleaned_up (be : Backend) (i : Z) (r : UploadResult)
  (objects : Bucket) : Bucket :=
  match insert_reply be i with
  | Refused =>
      if nonempty (path r)
      then (deleteProductImage (delete_fails be i) (path r) objects).2
      else objects
  | _ => objects
  end.

(** What ended the block "Upload images if any", if anything did: one of its
    three [throw]s, or the call [toast.warning(message)].  [toast] is the
    default export of react-hot-toast, which has [success], [error],
    [loading] and [custom] but no [warning]: the call throws a TypeError. *)
Inductive Thrown :=
| AllUploadsFailed       (* ['All image uploads failed'] *)
| MediaError             (* [throw mediaError] *)
| NoRecordsSaved         (* ['Failed to save any image records to database'] *)
| ToastWarning.          (* [toast.warning is not a function] *)

(** The body of the block "Upload images if any" of [onSubmit]: the batch
    upload, then the records; [table] holds the rows of [product_media]
    before. *)
Definition upload_and_record (be : Backend) (uploads : list (Env * File))
  (productId name : string) (table : list MediaRecord) (objects : Bucket)
  : MediaOutcome * option Thrown :=
  let '(uploadResults, objects1) :=
    uploadProductImages uploads productId objects in
  let successfulUploads :=
    filter (λ r, has_error r = false ∧ nonempty (url r) = true)
           uploadResults in
  if bool_decide (length successfulUploads = 0%nat) then
    ({| saved := table; mediaInserts := []; bucket := objects1;
        thrown := true |}, Some AllUploadsFailed)
  else
    let o := media_records be productId name 0 uploadResults table objects1 in
    if thrown o then (o, Some MediaError)
    else if bool_decide (length (mediaInserts o) = 0%nat) then
      ({| saved := saved o; mediaInserts := []; bucket := bucket o;
          thrown := true |}, Some NoRecordsSaved)
    else if bool_decide (length successfulUploads < length uploadResults)%nat
    then
      (* [toast.warning(message)] *)
      ({| saved := saved o; mediaInserts := mediaInserts o;
          bucket := bucket o; thrown := true |}, Some ToastWarning)
    else (o, None).

(** "Upload images if any": [if (productImages.length > 0) { ... }]. *)
Definition save_images (be : Backend) (uploads : list (Env * File))
  (productId name : string) (table : list MediaRecord) (objects : Bucket)
  : MediaOutcome * option Thrown :=
  match uploads with
  | [] =>
      ({| saved := table; mediaInserts := []; bucket := objects;
          thrown := false |}, None)
  | _ :: _ => upload_and_record be uploads productId name table objects
  end.

(** *** Sample data *)

(** A backend that inserts every record. *)
Definition inserts_all : Backend :=
  {| insert_reply := λ _, Inserted; delete_fails := λ _, false |}.

(** Two files are submitted: a PNG of 6MB, which the validation refuses, and
    a JPEG of 1MB. *)
Definition two_files : list (Env * File) :=
  [(upload_env, png_6MB); (upload_env, jpeg_1MB)].

End AdminProducts.

(** ** Loading an image with retries *)

Module ImageLoading.
Import ImageUtils.

Definition FALLBACK_PRODUCT_IMAGE : string :=
  "https://images.pexels.com/photos/4465124/pexels-photo-4465124.jpeg?auto=compress&cs=tinysrgb&w=800".

(** How [loadImageWithRetry] ends: the URL it returns and the delays it
    waited, in order, in milliseconds. *)
Record Loaded := {
  src : string;
  waited : list Z
}.

(** The [for] loop of [loadImageWithRetry] from [attempt] on.  [loads k] says
    whether the image loads at the [k]-th attempt; [fuel] bounds the
    iterations still to run. *)
Fixpoint attempts (loads : Z → bool) (url : string) (maxRetries delay : Z)
  (attempt : Z) (fuel : nat) : Loaded :=
  match fuel with
  | O => {| src := FALLBACK_PRODUCT_IMAGE; waited := [] |}
  | S fuel' =>
      if decide (attempt ≤ maxRetries) then
        if loads attempt then {| src := url; waited := [] |}
        else if decide (attempt = maxRetries) then
          {| src := FALLBACK_PRODUCT_IMAGE; waited := [] |}
        else
          let r := attempts loads url maxRetries delay (attempt + 1) fuel' in
          {| src := src r; waited := delay * attempt :: waited r |}
      else {| src := FALLBACK_PRODUCT_IMAGE; waited := [] |}
  end.

(** [loadImageWithRetry(url, maxRetries = 3, delay = 1000)], for a whole
    number of retries: the loop runs at most [maxRetries] times. *)
Definition loadImageWithRetry (loads : Z → bool) (url : string)
  (maxRetries delay : Z) : Loaded :=
  attempts loads url maxRetries delay 1 (Z.to_nat maxRetries).

(** *** Sample data *)

(** The image loads at the third attempt. *)
Definition loads_third (k : Z) : bool := bool_decide (k = 3).

(** A box that is wider than tall. *)
Definition banner_bounds : Size := {| width := 1200; height := 300 |}.

End ImageLoading.

(** ** The debug logger *)

Module DebugUtils.

Inductive Level := info | warn | error.

(** [interface LogEntry]; [data] is left out. *)
Record LogEntry := {
  timestamp : Z;
  category : string;
  level : Level;
  message : string
}.

Definition maxLogs : nat := 1000.

(** [array.slice(-n)] for [n > 0]: the last [n] elements, all of them when
    there are fewer. *)
Definition slice_last {A} (n : nat) (l : list A) : list A :=
  drop (length l - n) l.

(** [addLog]: push, then "keep only the most recent logs". *)
Definition addLog (entry : LogEntry) (logs : list LogEntry) : list LogEntry :=
  let logs1 := logs ++ [entry] in
  if decide (maxLogs < length logs1)%nat then slice_last maxLogs logs1
  else logs1.

(** [clearLogs]. *)
Definition clearLogs (logs : list LogEntry) : list LogEntry := [].

(** The calls that change the log: [info], [warn] and [error] add the entry
    they build, [clearLogs] empties it. *)
Inductive LogOp :=
| Log (entry : LogEntry)
| Clear.

Definition log_step (logs : list LogEntry) (op : LogOp) : list LogEntry :=
  match op with
  | Log entry => addLog entry logs
  | Clear => clearLogs logs
  end.

Definition log_run (ops : list LogOp) (logs : list LogEntry)
  : list LogEntry :=
  fold_left log_step ops logs.

(** The entries logged since the last [clearLogs], oldest first. *)
Fixpoint since_clear (ops : list LogOp) (acc : list LogEntry)
  : list LogEntry :=
  match ops with
  | [] => acc
  | Log entry :: rest => since_clear rest (acc ++ [entry])
  | Clear :: rest => since_clear rest []
  end.

End DebugUtils.

(** ** Order numbers *)

Module Orders.
Import Stdlib.Strings.Ascii.

Fixpoint repeat_char (fill : ascii) (n : nat) : string :=
  match n with
  | O => ""
  | S n' => String fill (repeat_char fill n')
  end.

(** The first [n] characters of a string. *)
Fixpoint string_take (n : nat) (s : string) : string :=
  match n, s with
  | S n', String c s' => String c (string_take n' s')
  | _, _ => ""
  end.

(** SQL [lpad(string, length, fill)] with a fill of one character: a string
    shorter than [length] is filled up on the left, a longer one is cut to
    its first [length] characters. *)
Definition lpad (s : string) (len : nat) (fill : ascii) : string :=
  if decide (String.length s < len)%nat
  then repeat_char fill (len - String.length s) +:+ s
  else string_take len s.

(** [nextval('order_number_seq')]: the sequence starts at 1 and steps by 1;
    its state is the number of values drawn so far. *)
Definition nextval (seq : Z) : Z * Z := (seq + 1, seq + 1).

(** [generate_order_number()]; [today] is [to_char(now(), 'YYYYMMDD')].  The
    result comes with the state of the sequence afterwards. *)
Definition generate_order_number (today : string) (seq : Z) : string * Z :=
  let '(n, seq') := nextval seq in
  ("ORD-" +:+ today +:+ "-" +:+ lpad (pretty n) 6 "0"%char, seq').

(** The trigger [set_order_number] before an insert into [orders]: the value
    of [NEW.order_number] afterwards. *)
Definition set_order_number (today : string)
  (new_order_number : option string) (seq : Z) : string * Z :=
  match new_order_number with
  | None => generate_order_number today seq
  | Some given => (given, seq)
  end.

End Orders.

(** ** The image uploader *)

Module Uploader.
Import ImageUtils.

(** Each handler is given here as what it does to the images it finds: a
    function from the list of images of the render in which it is called to
    the list it passes to [onImagesChange].  That is the whole of a handler
    only when nothing else touches the image objects while it runs;
    [UploaderObjects] below has the objects themselves, and the calls that
    overlap. *)

(** [interface UploadedImage]: [file] is the resized image under the name of
    the picked file; [uploadProgress] and [error] are not written by the
    handlers below. *)
Record UploadedImage := {
  img_id : string;
  img_name : string;
  img_blob : Blob;
  preview : string;
  isMain : bool
}.

Definition with_isMain (img : UploadedImage) (b : bool) : UploadedImage :=
  {| img_id := img_id img; img_name := img_name img;
     img_blob := img_blob img; preview := preview img; isMain := b |}.

(** The props the handlers read. *)
Record Props := {
  maxImages : Z;
  allowReorder : bool;
  allowMainSelection : bool
}.

(** [maxImages = 5, allowReorder = true, allowMainSelection = false]. *)
Definition default_props : Props :=
  {| maxImages := 5; allowReorder := true; allowMainSelection := false |}.

(** A picked file with what the browser makes of it: how it decodes, whether
    the canvas encodes, the id and the object URL drawn for it. *)
Record Picked := {
  picked_file : File;
  picked_decoded : option Size;
  picked_encodes : bool;
  picked_id : string;
  picked_preview : string
}.

(** The body of the loop of [handleFileSelect]; [was_empty] is
    [images.length === 0]. *)
Definition process (was_empty : bool) (newImages : list UploadedImage)
  (p : Picked) : list UploadedImage :=
  if isValid (validateImageFile (picked_file p)) then
    match resizeImage (picked_decoded p) (picked_encodes p)
            (width LARGE_SIZE) (height LARGE_SIZE)
            (inject_Z JPEG_QUALITY / 100)%Q with
    | Resolve resizedBlob =>
        newImages
          ++ [{| img_id := picked_id p;
                 img_name := file_name (picked_file p);
                 img_blob := resizedBlob;
                 preview := picked_preview p;
                 isMain := was_empty
                           && bool_decide (length newImages = 0%nat) |}]
    | Reject _ => newImages
    end
  else newImages.

(** [handleFileSelect(files)]: the images passed to [onImagesChange], or the
    images as they are when it is not called. *)
Definition handleFileSelect (props : Props) (files : option (list Picked))
  (images : list UploadedImage) : list UploadedImage :=
  match files with
  | None => images
  | Some fileArray =>
      let remainingSlots := maxImages props - Z.of_nat (length images) in
      if decide (Z.of_nat (length fileArray) > remainingSlots) then images
      else
        let newImages :=
          fold_left (process (bool_decide (length images = 0%nat)))
                    fileArray [] in
        if decide (0 < length newImages)%nat then images ++ newImages
        else images
  end.

(** [removeImage(index)]; reading [newImages[index].preview] throws for an
    index outside the array. *)
Definition removeImage (index : nat) (images : list UploadedImage)
  : list UploadedImage :=
  match images !! index with
  | None => images
  | Some _ =>
      let newImages := delete index images in
      match newImages with
      | first :: rest =>
          if existsb isMain newImages then newImages
          else with_isMain first true :: rest
      | [] => newImages
      end
  end.

(** [setMainImage(index)]. *)
Definition setMainImage (props : Props) (index : nat)
  (images : list UploadedImage) : list UploadedImage :=
  if allowMainSelection props
  then imap (λ i img, with_isMain img (bool_decide (i = index))) images
  else images.

(** [handleImageDrop(e, dropIndex)] with the [draggedIndex] of the state.
    [None] stands for the case that the dragged index is outside the array,
    where the handler works on [undefined]. *)
Definition handleImageDrop (props : Props) (draggedIndex : option nat)
  (dropIndex : nat) (images : list UploadedImage)
  : option (list UploadedImage) :=
  match draggedIndex with
  | None => Some images
  | Some dragged =>
      if negb (allowReorder props) || bool_decide (dragged = dropIndex)
      then Some images
      else
        match images !! dragged with
        | None => None
        | Some draggedImage =>
            let removed := delete dragged images in
            let newImages :=
              take dropIndex removed ++ draggedImage :: drop dropIndex removed
            in
            Some (if bool_decide (dropIndex = 0%nat ∨ dragged = 0%nat)
                  then imap (λ i img,
                               with_isMain img (bool_decide (i = 0%nat)))
                            newImages
                  else newImages)
        end
  end.

(** The handlers that can be called, with their arguments. *)
Inductive Action :=
| FileSelect (files : option (list Picked))
| Remove (index : nat)
| SetMain (index : nat)
| ImageDrop (draggedIndex : option nat) (dropIndex : nat).

(** The number of images marked as main. *)
Definition mains (images : list UploadedImage) : nat :=
  length (filter (λ img, isMain img = true) images).

(** What the handlers maintain: at most [maxImages] images; one main image
    as soon as there is an image; and, when the main image cannot be chosen,
    it is the first. *)
Definition uploader_inv (props : Props) (images : list UploadedImage)
  : Prop :=
  Z.of_nat (length images) ≤ maxImages props ∧
  (images ≠ [] → mains images = 1%nat) ∧
  (allowMainSelection props = false →
   ∀ img, head images = Some img → isMain img = true).

(** *** Sample data *)

Definition picked (name id : string) : Picked :=
  {| picked_file := {| file_name := name; size := 1024 * 1024;
                       type := "image/jpeg" |};
     picked_decoded := Some {| width := 4000; height := 3000 |};
     picked_encodes := true;
     picked_id := id;
     picked_preview := "blob:" +:+ id |}.

End Uploader.

(** ** The image uploader with its image objects shared *)

Module UploaderObjects.
Import ImageUtils Uploader.

(** The handlers of the uploader copy the array of images before they change
    it ([[...images]], [images.map]), but they do not copy the image objects:
    [removeImage] and [handleImageDrop] write [isMain] into the objects of
    the array they were given, and a call of [handleFileSelect] keeps, while
    it awaits [resizeImage], the [images] of the render in which it was
    called.  Here the image objects live in a store, by address; an array of
    images is a list of addresses; a call of [handleFileSelect] that awaits is
    part of the state; and the [images] prop is the array [onImagesChange]
    was called with last. *)
Abbreviation Store := (list UploadedImage).

(** A call of [handleFileSelect] that awaits [resizeImage]: the [images] of
    its closure and the files it was given. *)
Record Resizing := {
  captured : list nat;
  files : list Picked
}.

Record State := {
  store : Store;
  images : list nat;
  resizing : list Resizing
}.

(** The uploader as first rendered: no image, nothing awaited. *)
Definition init : State := {| store := []; images := []; resizing := [] |}.

Definition set_images (st : State) (refs : list nat) : State :=
  {| store := store st; images := refs; resizing := resizing st |}.

(** The image objects of an array. *)
Definition objects (s : Store) (refs : list nat) : list UploadedImage :=
  omap (λ r, s !! r) refs.

(** The images the uploader shows. *)
Definition shown (st : State) : list UploadedImage :=
  objects (store st) (images st).

(** [img.isMain] of the object at an address. *)
Definition is_main (s : Store) (r : nat) : bool :=
  match s !! r with
  | Some img => isMain img
  | None => false
  end.

(** [handleFileSelect(files)] up to its first [await]: the check of the
    remaining slots, against the [images] of the render.  (A call none of
    whose files is valid awaits nothing; it ends without a call of
    [onImagesChange], as it does here when it is resumed.) *)
Definition handleFileSelect (props : Props) (fs : option (list Picked))
  (st : State) : State :=
  match fs with
  | None => st
  | Some fileArray =>
      let remainingSlots := maxImages props - Z.of_nat (length (images st)) in
      if decide (Z.of_nat (length fileArray) > remainingSlots) then st
      else {| store := store st; images := images st;
              resizing := resizing st
                          ++ [{| captured := images st;
                                 files := fileArray |}] |}
  end.

(** The rest of [handleFileSelect], from the moment its last [resizeImage]
    settles: the new image objects are created and [onImagesChange] is called
    with [[...images, ...newImages]], [images] being the array the call was
    started with.  Between the [await]s of one call only its local
    [newImages] changes, so the loop is taken in one step. *)
Definition resume (k : nat) (st : State) : State :=
  match resizing st !! k with
  | None => st
  | Some call =>
      let newImages :=
        fold_left (process (bool_decide (length (captured call) = 0%nat)))
                  (files call) [] in
      if decide (0 < length newImages)%nat then
        {| store := store st ++ newImages;
           images := captured call
                     ++ seq (length (store st)) (length newImages);
           resizing := delete k (resizing st) |}
      else {| store := store st; images := images st;
              resizing := delete k (resizing st) |}
  end.

(** [removeImage(index)]: [newImages[0].isMain = true] writes into the object
    that the array given to the handler holds too. *)
Definition removeImage (index : nat) (st : State) : State :=
  match images st !! index with
  | None => st
  | Some _ =>
      let newImages := delete index (images st) in
      match newImages with
      | first :: _ =>
          if existsb (is_main (store st)) newImages
          then set_images st newImages
          else {| store := alter (λ img, with_isMain img true) first
                                 (store st);
                  images := newImages;
                  resizing := resizing st |}
      | [] => set_images st newImages
      end
  end.

(** [setMainImage(index)]: [{ ...img, isMain: i === index }] makes new
    objects. *)
Definition setMainImage (props : Props) (index : nat) (st : State) : State :=
  if allowMainSelection props then
    let newImages :=
      imap (λ i img, with_isMain img (bool_decide (i = index))) (shown st) in
    {| store := store st ++ newImages;
       images := seq (length (store st)) (length newImages);
       resizing := resizing st |}
  else st.

(** [newImages.forEach((img, i) => { img.isMain = i === 0 })], from position
    [i] on. *)
Fixpoint forEach_isMain (i : nat) (refs : list nat) (s : Store) : Store :=
  match refs with
  | [] => s
  | r :: rest =>
      forEach_isMain (S i) rest
        (alter (λ img, with_isMain img (bool_decide (i = 0%nat))) r s)
  end.

(** [handleImageDrop(e, dropIndex)]; [None] as in [Uploader]. *)
Definition handleImageDrop (props : Props) (draggedIndex : option nat)
  (dropIndex : nat) (st : State) : option State :=
  match draggedIndex with
  | None => Some st
  | Some dragged =>
      if negb (allowReorder props) || bool_decide (dragged = dropIndex)
      then Some st
      else
        match images st !! dragged with
        | None => None
        | Some draggedImage =>
            let removed := delete dragged (images st) in
            let newImages :=
              take dropIndex removed ++ draggedImage :: drop dropIndex removed
            in
            Some {| store :=
                      if bool_decide (dropIndex = 0%nat ∨ dragged = 0%nat)
                      then forEach_isMain 0 newImages (store st)
                      else store st;
                    images := newImages;
                    resizing := resizing st |}
        end
  end.

(** What happens to the uploader: a handler is called, or the call of
    [handleFileSelect] that is [k]-th among those awaiting goes on to its
    end. *)
Inductive Event :=
| Call (a : Action)
| Resume (k : nat).

Definition step (props : Props) (st : State) (e : Event) : option State :=
  match e with
  | Call (FileSelect fs) => Some (handleFileSelect props fs st)
  | Call (Remove index) => Some (removeImage index st)
  | Call (SetMain index) => Some (setMainImage props index st)
  | Call (ImageDrop draggedIndex dropIndex) =>
      handleImageDrop props draggedIndex dropIndex st
  | Resume k => Some (resume k st)
  end.

Fixpoint run (props : Props) (events : list Event) (st : State)
  : option State :=
  match events with
  | [] => Some st
  | e :: rest => st' ← step props st e; run props rest st'
  end.

(** The button of [setMainImage] belongs to an image that is shown. *)
Definition rendered (st : State) (e : Event) : Prop :=
  match e with
  | Call (SetMain index) => (index < length (images st))%nat
  | _ => True
  end.

(** No handler is called while a call of [handleFileSelect] awaits. *)
Definition apart (st : State) (e : Event) : Prop :=
  match e with
  | Call _ => resizing st = []
  | Resume _ => True
  end.

(** The events come one at a time, each on what is rendered. *)
Fixpoint one_at_a_time (props : Props) (events : list Event) (st : State)
  : Prop :=
  match events with
  | [] => True
  | e :: rest =>
      rendered st e ∧ apart st e ∧
      match step props st e with
      | Some st' => one_at_a_time props rest st'
      | None => True
      end
  end.

(** The array [refs] holds, in the store [s], the image objects [l], each
    once. *)
Definition represents (s : Store) (refs : list nat)
  (l : list UploadedImage) : Prop :=
  NoDup refs ∧ Forall2 (λ r img, s !! r = Some img) refs l.

(** The array rendered holds the image objects [l]. *)
Definition holds (st : State) (l : list UploadedImage) : Prop :=
  represents (store st) (images st) l.

(** What holds between two events that come one at a time: the array holds
    every image once, the images are as [Uploader] wants them, and a call of
    [handleFileSelect] that awaits was started on the array that is
    rendered. *)
Definition settled (props : Props) (st : State) : Prop :=
  ∃ l, holds st l ∧ uploader_inv props l ∧
       (resizing st = [] ∨
        ∃ fs, resizing st = [{| captured := images st; files := fs |}] ∧
              ¬ (Z.of_nat (length fs)
                 > maxImages props - Z.of_nat (length (images st)))).

(** *** Sample data *)

(** Three files are picked and resized; a fourth is picked, and while it is
    resized the first image is removed. *)
Definition removal_during_resize : list Event :=
  [ Call (FileSelect (Some [picked "a.jpg" "img-1"; picked "b.jpg" "img-2";
                            picked "c.jpg" "img-3"]));
    Resume 0;
    Call (FileSelect (Some [picked "d.jpg" "img-4"]));
    Call (Remove 0);
    Resume 0 ].

(** The same, the removal coming after the resize. *)
Definition removal_after_resize : list Event :=
  [ Call (FileSelect (Some [picked "a.jpg" "img-1"; picked "b.jpg" "img-2";
                            picked "c.jpg" "img-3"]));
    Resume 0;
    Call (FileSelect (Some [picked "d.jpg" "img-4"]));
    Resume 0;
    Call (Remove 0) ].

End UploaderObjects.

(** * Properties *)

(** ** The cart store *)

Module CartFacts.
Import Cart.

Lemma items_set_items s l : items (set_items s l) = l.
Proof. reflexivity. Qed.

Lemma find_product_Some productId l item :
  find_product productId l = Some item →
  item ∈ l ∧ product_id item = productId.
Proof.
  unfold find_product. intros H.
  destruct (list_find _ l) as [[i x]|] eqn:E; simplify_eq/=.
  apply list_find_Some in E as (Hi & Hx & _).
  split; [by eapply list_elem_of_lookup_2 | done].
Qed.

Lemma find_product_None productId l :
  find_product productId l = None →
  ∀ item, item ∈ l → product_id item ≠ productId.
Proof.
  unfold find_product. intros H.
  destruct (list_find _ l) as [[i x]|] eqn:E; simplify_eq/=.
  apply list_find_None in E. intros item Hin.
  by eapply Forall_forall in E.
Qed.

Lemma find_product_is_Some productId l item :
  item ∈ l → product_id item = productId →
  is_Some (find_product productId l).
Proof.
  intros Hin Hp. destruct (find_product productId l) eqn:E; [by eexists|].
  by eapply find_product_None in E.
Qed.

(** The product ids of the lines after [updateQuantity] with a positive
    quantity are those before. *)
Lemma product_id_with_quantity productId q (l : list CartItem) :
  product_id <$> ((λ item, if decide (product_id item = productId)
                           then with_quantity item q else item) <$> l)
  = product_id <$> l.
Proof.
  rewrite <- list_fmap_compose. apply list_fmap_ext.
  intros i item _. simpl. by case_decide.
Qed.

Lemma removeItem_one_line productId s :
  one_line_per_product s → one_line_per_product (removeItem productId s).
Proof.
  unfold one_line_per_product. simpl.
  intros H. eapply sublist_NoDup; [exact H|].
  apply fmap_sublist, sublist_filter.
Qed.

Lemma updateQuantity_one_line productId q s :
  one_line_per_product s → one_line_per_product (updateQuantity productId q s).
Proof.
  unfold updateQuantity. case_decide; [apply removeItem_one_line|].
  unfold one_line_per_product. simpl. by rewrite product_id_with_quantity.
Qed.

Lemma addItem_one_line product q now s :
  one_line_per_product s → one_line_per_product (addItem product q now s).
Proof.
  intros Hs. unfold addItem.
  destruct (find_product _ _) as [existing|] eqn:E.
  - by apply updateQuantity_one_line.
  - unfold one_line_per_product in *. simpl. rewrite fmap_app. simpl.
    apply NoDup_app. split_and!; [done| |apply NoDup_singleton].
    intros x Hx ->%list_elem_of_singleton.
    apply list_elem_of_fmap in Hx as (item & Hid & Hin).
    by eapply find_product_None in E.
Qed.

Lemma step_one_line a s :
  one_line_per_product s → one_line_per_product (step s a).
Proof.
  destruct a; simpl.
  - apply addItem_one_line.
  - apply updateQuantity_one_line.
  - apply removeItem_one_line.
  - intros _. apply NoDup_nil_2.
Qed.

Lemma run_one_line actions s :
  one_line_per_product s → one_line_per_product (run actions s).
Proof.
  revert s. induction actions as [|a actions IH]; intros s Hs; [done|].
  simpl. apply IH. by apply step_one_line.
Qed.

Lemma one_line_unambiguous s item1 item2 :
  one_line_per_product s → item1 ∈ items s → item2 ∈ items s →
  product_id item1 = product_id item2 → item1 = item2.
Proof.
  unfold one_line_per_product. intros Hnd H1 H2 Heq.
  apply list_elem_of_lookup in H1 as [i Hi], H2 as [j Hj].
  assert (i = j) as ->; [|congruence].
  eapply NoDup_lookup; [done| |].
  - rewrite list_lookup_fmap, Hi. reflexivity.
  - rewrite list_lookup_fmap, Hj. simpl. by rewrite Heq.
Qed.

(** C10.  Starting from the empty cart, after every sequence of [addItem],
    [updateQuantity], [removeItem] and [clearCart] the cart holds at most one
    line per [product_id], so a product id designates at most one line. *)
Theorem cart_one_line_per_product (actions : list Action) :
  one_line_per_product (run actions init) ∧
  ∀ item1 item2,
    item1 ∈ items (run actions init) → item2 ∈ items (run actions init) →
    product_id item1 = product_id item2 → item1 = item2.
Proof.
  assert (one_line_per_product (run actions init)) as H.
  { apply run_one_line. apply NoDup_nil_2. }
  split; [done|]. intros item1 item2. by apply one_line_unambiguous.
Qed.

(** *** [updateQuantity] and [removeItem] *)

Lemma removeItem_removes productId s item :
  item ∈ items (removeItem productId s) → product_id item ≠ productId.
Proof. simpl. by intros [? _]%list_elem_of_filter. Qed.

Lemma updateQuantity_positive productId q s :
  1 ≤ q →
  updateQuantity productId q s =
  set_items s ((λ item, if decide (product_id item = productId)
                        then with_quantity item q else item) <$> items s).
Proof. intros Hq. unfold updateQuantity. case_decide; [lia|done]. Qed.

Lemma updateQuantity_nonpositive productId q s :
  q ≤ 0 → updateQuantity productId q s = removeItem productId s.
Proof. intros Hq. unfold updateQuantity. by case_decide. Qed.

(** What is left of a list of lines when the lines of a product go: the other
    lines, as they were and in their order. *)
Lemma lines_of_other_products productId (l : list CartItem) :
  let l' := filter (λ item, product_id item ≠ productId) l in
  (∀ item, item ∈ l' ↔ item ∈ l ∧ product_id item ≠ productId) ∧
  l' `sublist_of` l ∧
  (∀ l1 e l2,
     l = l1 ++ e :: l2 → product_id e = productId →
     (∀ item, item ∈ l1 ++ l2 → product_id item ≠ productId) →
     l' = l1 ++ l2) ∧
  ((∀ item, item ∈ l → product_id item ≠ productId) → l' = l).
Proof.
  assert (∀ k : list CartItem,
            (∀ item, item ∈ k → product_id item ≠ productId) →
            filter (λ item, product_id item ≠ productId) k = k) as Hall.
  { induction k as [|x k IH]; intros H; [done|].
    rewrite filter_cons, decide_True by (apply H; by left).
    f_equal. apply IH. intros item Hin. apply H. by right. }
  split_and!.
  - intros item. rewrite list_elem_of_filter. tauto.
  - apply sublist_filter.
  - intros l1 e l2 -> He Hothers.
    rewrite filter_app, filter_cons, decide_False by tauto.
    rewrite <- filter_app. by apply Hall.
  - apply Hall.
Qed.

(** C4.  [updateQuantity(id, q)] with [q <= 0] gives exactly the state
    [removeItem(id)] gives (so for [q = 0] and [q = -1]), and that state is
    the cart without the lines of the product: a line is in it exactly when
    it was in the cart and belongs to another product, the lines left are in
    the order they had, a cart with one line of the product loses just that
    line, a cart with no line of the product is unchanged, and [isLoading]
    is as it was.  With [q >= 1] it keeps the number and order of the
    lines, gives quantity [q] to every line of the product, changes no other
    field of these lines, and leaves every other line and [isLoading] as they
    were. *)
Theorem updateQuantity_spec (productId : string) (q : Z) (s : CartState) :
  (q ≤ 0 →
     updateQuantity productId q s = removeItem productId s ∧
     isLoading (updateQuantity productId q s) = isLoading s ∧
     (∀ item, item ∈ items (updateQuantity productId q s) ↔
              item ∈ items s ∧ product_id item ≠ productId) ∧
     items (updateQuantity productId q s) `sublist_of` items s ∧
     (∀ l1 e l2,
        items s = l1 ++ e :: l2 → product_id e = productId →
        (∀ item, item ∈ l1 ++ l2 → product_id item ≠ productId) →
        items (updateQuantity productId q s) = l1 ++ l2) ∧
     ((∀ item, item ∈ items s → product_id item ≠ productId) →
      updateQuantity productId q s = s)) ∧
  updateQuantity productId 0 s = removeItem productId s ∧
  updateQuantity productId (-1) s = removeItem productId s ∧
  (1 ≤ q →
     isLoading (updateQuantity productId q s) = isLoading s ∧
     length (items (updateQuantity productId q s)) = length (items s) ∧
     ∀ i item, items s !! i = Some item →
       ∃ item', items (updateQuantity productId q s) !! i = Some item' ∧
         (product_id item ≠ productId → item' = item) ∧
         (product_id item = productId →
            quantity item' = q ∧ id item' = id item ∧
            product_id item' = product_id item ∧ name item' = name item ∧
            price item' = price item ∧ image_url item' = image_url item ∧
            variant_id item' = variant_id item ∧
            variant_name item' = variant_name item)).
Proof.
  split_and!.
  - intros Hq. rewrite updateQuantity_nonpositive by done.
    destruct (lines_of_other_products productId (items s))
      as (Hin & Hsub & Hone & Hnone).
    split_and!; try done.
    intros H. unfold removeItem, set_items. rewrite (Hnone H). by destruct s.
  - by apply updateQuantity_nonpositive.
  - by apply updateQuantity_nonpositive.
  - intros Hq. rewrite updateQuantity_positive by done. simpl.
    split_and!; [done|by rewrite length_fmap|].
    intros i item Hi. rewrite list_lookup_fmap, Hi. simpl.
    eexists. split; [done|]. case_decide.
    + split; [done|]. intros _. by repeat split.
    + by split.
Qed.

Lemma updateQuantity_spec_witness :
  items (updateQuantity "A" (-1) cart_AB) = [line_B] ∧
  isLoading (updateQuantity "A" (-1) cart_AB) = false ∧
  removeItem "A" cart_AB = {| items := [line_B]; isLoading := false |} ∧
  updateQuantity "C" 0 cart_AB = cart_AB ∧
  length (items (updateQuantity "A" 7 cart_AB)) = 2%nat.
Proof.
  destruct (updateQuantity_spec "A" (-1) cart_AB) as [H _].
  destruct (updateQuantity_spec "C" 0 cart_AB) as [H0 _].
  destruct (updateQuantity_spec "A" 7 cart_AB) as (_ & _ & _ & H7).
  destruct H as (Heq & Hload & _ & _ & Hone & _); [lia|].
  destruct H0 as (_ & _ & _ & _ & _ & Hnone); [lia|].
  assert (items (updateQuantity "A" (-1) cart_AB) = [line_B]) as Hitems.
  { apply (Hone [] line_A [line_B]); [reflexivity | reflexivity |].
    intros item ->%list_elem_of_singleton. discriminate. }
  split_and!.
  - exact Hitems.
  - exact Hload.
  - rewrite <- Heq.
    destruct (updateQuantity "A" (-1) cart_AB) as [l b].
    simpl in Hitems, Hload. by rewrite Hitems, Hload.
  - apply Hnone. intros item Hin. unfold cart_AB in Hin. simpl in Hin.
    repeat (apply elem_of_cons in Hin as [->|Hin]; [discriminate|]).
    by apply elem_of_nil in Hin.
  - destruct H7 as (_ & -> & _); [lia | reflexivity].
Defined.

(** *** [addItem] *)

Lemma find_product_lookup productId (l : list CartItem) item :
  find_product productId l = Some item → ∃ i, l !! i = Some item.
Proof.
  intros [Hin _]%find_product_Some. by apply list_elem_of_lookup.
Qed.

(** In a cart with one line per product, giving a quantity to the lines of a
    product rewrites one position of the list. *)
Lemma fmap_with_quantity_insert (l : list CartItem) i item q :
  NoDup (product_id <$> l) → l !! i = Some item →
  (λ x, if decide (product_id x = product_id item)
        then with_quantity x q else x) <$> l
  = <[i := with_quantity item q]> l.
Proof.
  intros Hnd Hi. apply list_eq. intros j.
  rewrite list_lookup_fmap.
  destruct (decide (i = j)) as [<-|Hne].
  - rewrite Hi, list_lookup_insert_eq by (by eapply lookup_lt_Some).
    simpl. by rewrite decide_True.
  - rewrite list_lookup_insert_ne by done.
    destruct (l !! j) as [x|] eqn:Hj; [|done]. simpl.
    case_decide as Hp; [|done]. exfalso. apply Hne.
    eapply NoDup_lookup; [exact Hnd| |].
    + rewrite list_lookup_fmap, Hi. reflexivity.
    + rewrite list_lookup_fmap, Hj. simpl. by rewrite Hp.
Qed.

(** C3 (amended).  If the cart has a line of the product and [e] is the first
    one, [addItem(p, q)] is [updateQuantity(p.id, e.quantity + q)]: when
    [e.quantity + q >= 1] every line of the product gets the quantity
    [e.quantity + q] and nothing else changes, so that in a cart with one line
    per product exactly that line has its quantity increased by [q]; when
    [e.quantity + q <= 0] the lines of the product are removed.  If the cart
    has no line of the product, a line with id [productId-timestamp], the given
    quantity and the name, price and first media URL of the product is
    appended and the existing lines are unchanged.  [isLoading] is
    unchanged. *)
Theorem addItem_spec (product : Product) (q now : Z) (s : CartState) :
  isLoading (addItem product q now s) = isLoading s ∧
  match find_product (prod_id product) (items s) with
  | Some e =>
      addItem product q now s
      = updateQuantity (prod_id product) (quantity e + q) s ∧
      (1 ≤ quantity e + q →
         items (addItem product q now s)
         = (λ item, if decide (product_id item = prod_id product)
                    then with_quantity item (quantity e + q) else item)
             <$> items s ∧
         (one_line_per_product s → increases_found_line_only product q now s)) ∧
      (quantity e + q ≤ 0 →
         items (addItem product q now s)
         = filter (λ item, product_id item ≠ prod_id product) (items s))
  | None =>
      ∃ line,
        items (addItem product q now s) = items s ++ [line] ∧
        id line = prod_id product +:+ "-" +:+ pretty now ∧
        product_id line = prod_id product ∧
        name line = prod_name product ∧
        price line = prod_price product ∧
        quantity line = q ∧
        image_url line = (m ← prod_media product; url <$> head m)
  end.
Proof.
  unfold addItem.
  destruct (find_product _ _) as [e|] eqn:E.
  - split.
    { unfold updateQuantity. by case_decide. }
    split_and!; [done| |].
    + intros Hq. rewrite updateQuantity_positive by done. simpl.
      split; [done|]. intros Hone e' He'.
      unfold addItem. rewrite E in He'. injection He' as <-.
      rewrite E, updateQuantity_positive by done. simpl.
      destruct (find_product_lookup _ _ _ E) as [i Hi].
      exists i. split; [done|].
      apply find_product_Some in E as [_ <-].
      by apply fmap_with_quantity_insert.
    + intros Hq. by rewrite updateQuantity_nonpositive.
  - split; [done|]. by eexists.
Qed.

Lemma addItem_spec_witness :
  items (addItem product_A 1 1751241602000 cart_AB)
  = [with_quantity line_A 3; line_B] ∧
  items (addItem product_A (-2) 1751241602000 cart_AB) = [line_B].
Proof.
  pose proof (addItem_spec product_A 1 1751241602000 cart_AB) as [_ H1].
  pose proof (addItem_spec product_A (-2) 1751241602000 cart_AB) as [_ H2].
  change (find_product (prod_id product_A) (items cart_AB))
    with (Some line_A) in H1, H2.
  split.
  - destruct H1 as (_ & H1 & _). destruct H1 as [-> _]; [simpl; lia|].
    reflexivity.
  - destruct H2 as (_ & _ & H2). rewrite H2; [reflexivity | simpl; lia].
Defined.

(** C3, as stated, fails on a cart with two lines of one product: adding one
    unit of the product sets the quantity of both lines to that of the first
    plus one, so a line other than the one found changes (5 becomes 3).  It
    also fails when the new quantity is not positive: [addItem] with the
    quantity -2 for a product present with 2 units removes the line. *)
Lemma addItem_changes_other_lines :
  ¬ increases_found_line_only product_A 1 1751241602000 cart_AA ∧
  ¬ increases_found_line_only product_A (-2) 1751241602000 cart_AB.
Proof.
  split.
  - intros H. destruct (H line_A eq_refl) as (i & Hi & Heq).
    destruct i as [|[|i]]; vm_compute in Hi; [|discriminate..].
    vm_compute in Heq. discriminate.
  - intros H. destruct (H line_A eq_refl) as (i & Hi & Heq).
    apply (f_equal length) in Heq. rewrite length_insert in Heq.
    vm_compute in Heq. discriminate.
Qed.

(** *** Totals of a run of [addItem] calls *)

Section totals.

Implicit Types (calls : list AddCall) (c : AddCall) (l : list CartItem).

Lemma total_from_shift a l : total_from a l = a + total_from 0 l.
Proof.
  revert a. induction l as [|x l IH]; intros a.
  - unfold total_from. simpl. lia.
  - unfold total_from in *. simpl.
    rewrite (IH (a + quantity x)), (IH (0 + quantity x)). lia.
Qed.

Lemma total_from_cons a x l :
  total_from a (x :: l) = a + quantity x + total_from 0 l.
Proof.
  change (total_from a (x :: l)) with (total_from (a + quantity x) l).
  apply total_from_shift.
Qed.

Lemma total_from_app a l1 l2 :
  total_from a (l1 ++ l2) = total_from a l1 + total_from 0 l2.
Proof.
  unfold total_from. rewrite fold_left_app.
  apply (total_from_shift _ l2).
Qed.

(** Giving the quantity [q] to the one line of a product changes the total
    by the difference. *)
Lemma total_from_with_quantity l item q :
  NoDup (product_id <$> l) → item ∈ l →
  total_from 0
    ((λ x, if decide (product_id x = product_id item)
           then with_quantity x q else x) <$> l)
  = total_from 0 l + (q - quantity item).
Proof.
  intros Hnd Hin. apply list_elem_of_lookup in Hin as [i Hi].
  rewrite (fmap_with_quantity_insert l i item q Hnd Hi).
  rewrite <- (take_drop_middle l i item Hi) at 2.
  rewrite insert_take_drop by (by eapply lookup_lt_Some).
  rewrite !total_from_app, !total_from_cons. simpl. lia.
Qed.

Lemma quantities_added_app calls1 calls2 :
  quantities_added (calls1 ++ calls2)
  = quantities_added calls1 + quantities_added calls2.
Proof.
  unfold quantities_added. induction calls1 as [|c calls1 IH]; simpl; lia.
Qed.

Lemma quantity_added_of_snoc productId calls c :
  quantity_added_of productId (calls ++ [c])
  = quantity_added_of productId calls
    + (if decide (prod_id (call_product c) = productId)
       then call_quantity c else 0).
Proof.
  unfold quantity_added_of. rewrite filter_app, quantities_added_app.
  f_equal. rewrite filter_cons, filter_nil.
  case_decide; simpl; lia.
Qed.

Lemma quantity_added_of_absent productId calls :
  (∀ c, c ∈ calls → prod_id (call_product c) ≠ productId) →
  quantity_added_of productId calls = 0.
Proof.
  intros H. unfold quantity_added_of.
  induction calls as [|c calls IH]; [done|].
  rewrite filter_cons. rewrite decide_False.
  - apply IH. intros c' Hc'. apply H. by right.
  - apply H. by left.
Qed.

Lemma first_add_snoc_found productId calls c c0 :
  first_add productId calls = Some c0 →
  first_add productId (calls ++ [c]) = Some c0.
Proof.
  unfold first_add. intros H.
  destruct (list_find _ calls) as [[i x]|] eqn:E; simplify_eq/=.
  by erewrite list_find_app_l.
Qed.

Lemma first_add_snoc_absent productId calls c :
  (∀ c', c' ∈ calls → prod_id (call_product c') ≠ productId) →
  prod_id (call_product c) = productId →
  first_add productId (calls ++ [c]) = Some c.
Proof.
  unfold first_add. intros H Hc.
  rewrite list_find_app_r.
  - simpl. by rewrite decide_True.
  - apply list_find_None, Forall_forall. intros x Hx. by apply H.
Qed.

Lemma products_added_snoc calls c :
  products_added (calls ++ [c])
  = if decide (prod_id (call_product c) ∈ products_added calls)
    then products_added calls
    else products_added calls ++ [prod_id (call_product c)].
Proof. unfold products_added. by rewrite fold_left_app. Qed.

(** What holds of the cart after the calls [calls] on the empty cart, when
    every quantity is at least 1. *)
Record totals_inv calls (s : CartState) : Prop := {
  inv_one_line : one_line_per_product s;
  inv_order : product_id <$> items s = products_added calls;
  inv_lines : ∀ item, item ∈ items s →
    1 ≤ quantity item ∧
    quantity item = quantity_added_of (product_id item) calls ∧
    ∃ c, first_add (product_id item) calls = Some c ∧
         price item = prod_price (call_product c);
  inv_added : ∀ c, c ∈ calls →
    ∃ item, item ∈ items s ∧ product_id item = prod_id (call_product c);
  inv_total : getTotalItems s = quantities_added calls
}.

Lemma totals_inv_init : totals_inv [] init.
Proof.
  split; simpl.
  - apply NoDup_nil_2.
  - reflexivity.
  - intros item Hin. by apply elem_of_nil in Hin.
  - intros c Hin. by apply elem_of_nil in Hin.
  - reflexivity.
Qed.

Lemma totals_inv_step calls s c :
  totals_inv calls s → 1 ≤ call_quantity c →
  totals_inv (calls ++ [c]) (add_call s c).
Proof.
  intros [Hone Horder Hlines Hadded Htotal] Hq.
  unfold add_call, addItem.
  destruct (find_product _ _) as [e|] eqn:E.
  - (* the product has a line *)
    destruct (find_product_Some _ _ _ E) as [He Hpe].
    destruct (Hlines e He) as (He1 & Heq & c0 & Hc0 & Hprice).
    rewrite updateQuantity_positive by lia.
    split; simpl.
    + unfold one_line_per_product. simpl. by rewrite product_id_with_quantity.
    + rewrite product_id_with_quantity, products_added_snoc, decide_True;
        [done|].
      rewrite <- Horder, <- Hpe. by apply list_elem_of_fmap_2.
    + intros item' Hin.
      apply list_elem_of_fmap in Hin as (item & -> & Hin).
      destruct (Hlines item Hin) as (Hi1 & Hieq & ci & Hci & Hiprice).
      case_decide as Hp.
      * assert (item = e) as ->
          by (eapply one_line_unambiguous; eauto; congruence).
        simpl. split_and!; [lia| |].
        -- rewrite quantity_added_of_snoc, decide_True by congruence. lia.
        -- exists c0. split; [|done]. by apply first_add_snoc_found.
      * split_and!; [done| |].
        -- rewrite quantity_added_of_snoc, decide_False by congruence. lia.
        -- exists ci. split; [|done]. by apply first_add_snoc_found.
    + intros c' [Hc'|Hc']%elem_of_app.
      * destruct (Hadded c' Hc') as (item & Hin & Hp).
        eexists. split; [by apply list_elem_of_fmap_2|].
        by case_decide.
      * apply list_elem_of_singleton in Hc' as ->.
        eexists. split; [by apply (list_elem_of_fmap_2 _ _ e)|].
        simpl. by case_decide.
    + unfold getTotalItems in *. simpl.
      fold (total_from 0 (items s)) in Htotal.
      rewrite <- Hpe.
      match goal with |- ?lhs = _ =>
        change lhs with (total_from 0
          ((λ x, if decide (product_id x = product_id e)
                 then with_quantity x (quantity e + call_quantity c) else x)
             <$> items s)) end.
      rewrite total_from_with_quantity by done.
      rewrite quantities_added_app, Htotal. unfold quantities_added. simpl. lia.
  - (* a new line *)
    pose proof (find_product_None _ _ E) as Hnone.
    assert (∀ c', c' ∈ calls →
              prod_id (call_product c') ≠ prod_id (call_product c)) as Hfresh.
    { intros c' Hc' Heq. destruct (Hadded c' Hc') as (item & Hin & Hp).
      apply (Hnone item Hin). congruence. }
    split; simpl.
    + pose proof (addItem_one_line (call_product c) (call_quantity c)
                    (call_now c) s Hone) as H.
      unfold addItem in H. by rewrite E in H.
    + rewrite fmap_app, products_added_snoc, decide_False, Horder; [done|].
      rewrite <- Horder. intros (item & Heq & Hin)%list_elem_of_fmap.
      by apply (Hnone item Hin).
    + intros item [Hin|Hin]%elem_of_app.
      * destruct (Hlines item Hin) as (Hi1 & Hieq & ci & Hci & Hiprice).
        split_and!; [done| |].
        -- rewrite quantity_added_of_snoc, decide_False; [lia|].
           intros Heq. by apply (Hnone item Hin).
        -- exists ci. split; [|done]. by apply first_add_snoc_found.
      * apply list_elem_of_singleton in Hin as ->. simpl.
        split_and!; [done| |].
        -- rewrite quantity_added_of_snoc, decide_True by done.
           rewrite quantity_added_of_absent by done. lia.
        -- exists c. split; [|done]. by apply first_add_snoc_absent.
    + intros c' [Hc'|Hc']%elem_of_app.
      * destruct (Hadded c' Hc') as (item & Hin & Hp).
        exists item. split; [|done]. apply elem_of_app. by left.
      * apply list_elem_of_singleton in Hc' as ->.
        eexists. split.
        { apply elem_of_app. right. by apply list_elem_of_singleton. }
        done.
    + unfold getTotalItems in *. simpl.
      rewrite fold_left_app. simpl. rewrite Htotal, quantities_added_app.
      unfold quantities_added. simpl. lia.
Qed.

Lemma totals_inv_add_all calls :
  (∀ c, c ∈ calls → 1 ≤ call_quantity c) →
  totals_inv calls (add_all calls init).
Proof.
  induction calls as [|c calls IH] using rev_ind; intros Hq.
  - apply totals_inv_init.
  - unfold add_all. rewrite fold_left_app. simpl.
    apply totals_inv_step.
    + apply IH. intros c' Hc'. apply Hq, elem_of_app. by left.
    + apply Hq, elem_of_app. right. by apply list_elem_of_singleton.
Qed.

End totals.

Lemma fold_left_fmap_ext {A B C} (f : C → B → C) (g : C → A → C)
    (h : A → B) (l : list A) (a : C) :
  (∀ x, x ∈ l → ∀ a', g a' x = f a' (h x)) →
  fold_left g l a = fold_left f (h <$> l) a.
Proof.
  revert a. induction l as [|x l IH]; intros a H; [done|].
  simpl. rewrite H by left. apply IH. intros y Hy. apply H. by right.
Qed.

(** The binary64 total of a cart that the calls [calls] built is the one the
    calls determine. *)
Lemma getTotalPrice_price_added (calls : list AddCall) (s : CartState) :
  totals_inv calls s → getTotalPrice s = price_added calls.
Proof.
  intros [_ Horder Hlines _ _]. unfold getTotalPrice, price_added.
  rewrite <- Horder. apply fold_left_fmap_ext.
  intros item Hin total.
  destruct (Hlines item Hin) as (_ & -> & c & Hc & ->).
  unfold snapshot. by rewrite Hc.
Qed.




(** *** [loadCart] *)

Lemma line_of_row_reflects r line :
  line_of_row r = Some line → line_reflects_row r line.
Proof.
  unfold line_of_row, line_reflects_row. intros H.
  destruct (products r) as [p|]; simplify_eq/=.
  split_and!; try done. by exists p.
Qed.

Lemma loadCart_try_rows cart rows :
  cart_items cart = Some rows →
  (∀ r, r ∈ rows → is_Some (products r)) →
  ∃ lines, loadCart_try (Resolved (Some cart)) = Some lines ∧
           Forall2 line_reflects_row rows lines.
Proof.
  intros Hrows Hall. simpl. rewrite Hrows. simpl.
  assert (is_Some (mapM line_of_row rows)) as [lines Hlines].
  { apply mapM_is_Some, Forall_forall. intros r Hr.
    destruct (Hall r Hr) as [p Hp]. unfold line_of_row. simpl.
    rewrite Hp. by eexists. }
  exists lines. split; [done|].
  apply mapM_Some in Hlines.
  eapply Forall2_impl; [exact Hlines|]. apply line_of_row_reflects.
Qed.

(** C5 (amended).  For a signed-in user, when the query returns the user's
    cart row and every [cart_items] row in it carries its product,
    [loadCart()] replaces the local items, whatever they were, by one line per
    row, in order, with the id, product, unit price and quantity of the row and
    the name and first primary media URL of its product; when the user has no
    cart row, the query fails or a row lacks its product, the local items are
    left as they were.  [isLoading] ends [false]; without a user nothing
    changes. *)
Theorem loadCart_spec (response : CartResponse) (s : CartState) :
  loadCart false response s = s ∧
  isLoading (loadCart true response s) = false ∧
  (∀ cart rows,
     response = Resolved (Some cart) → cart_items cart = Some rows →
     (∀ r, r ∈ rows → is_Some (products r)) →
     Forall2 line_reflects_row rows (items (loadCart true response s)) ∧
     ∀ s0, items (loadCart true response s0)
           = items (loadCart true response s)) ∧
  (response = Rejected ∨ response = Resolved None ∨
   (∃ cart, response = Resolved (Some cart) ∧
            (cart_items cart = None ∨
             ∃ rows r, cart_items cart = Some rows ∧ r ∈ rows ∧
                       products r = None)) →
   items (loadCart true response s) = items s).
Proof.
  split_and!; [done|done| |].
  - intros cart rows -> Hrows Hall.
    destruct (loadCart_try_rows cart rows Hrows Hall) as (lines & Htry & Hl).
    unfold loadCart. simpl negb. cbv iota. rewrite Htry. simpl.
    split; [done|]. intros s0. reflexivity.
  - intros Hcase. unfold loadCart. simpl negb. cbv iota.
    assert (loadCart_try response = None) as ->; [|done].
    destruct Hcase as [->| [->| (cart & -> & Hc)]]; [done|done|].
    simpl. destruct Hc as [->|(rows & r & -> & Hr & Hp)]; [done|]. simpl.
    destruct (mapM line_of_row rows) as [lines|] eqn:E; [|done].
    apply mapM_Some in E.
    apply list_elem_of_lookup in Hr as [i Hi].
    destruct (Forall2_lookup_l _ _ _ _ _ E Hi) as (line & _ & Hline).
    unfold line_of_row in Hline. rewrite Hp in Hline. done.
Qed.

(** A cart of one row for product A, whose product has a primary image. *)
Lemma loadCart_spec_witness :
  Forall2 line_reflects_row [row_A]
    (items (loadCart true (Resolved (Some server_cart_A)) cart_AB)) ∧
  items (loadCart true (Resolved (Some server_cart_A)) cart_AB)
  = [line_A_from_server] ∧
  items (loadCart true (Resolved None) cart_AB) = items cart_AB.
Proof.
  split_and!.
  - destruct (loadCart_spec (Resolved (Some server_cart_A)) cart_AB)
      as (_ & _ & H & _).
    apply (H server_cart_A [row_A] eq_refl eq_refl).
    intros r ->%list_elem_of_singleton. by eexists.
  - reflexivity.
  - destruct (loadCart_spec (Resolved None) cart_AB) as (_ & _ & _ & H).
    apply H. right. by left.
Defined.

(** C5, as stated, fails for a signed-in user without a [shopping_carts] row:
    the server holds no cart lines for the user, and the two local lines
    stay.  It also fails when a row of the server-side cart comes without its
    product: the local lines stay then too. *)
Lemma loadCart_keeps_guest_cart :
  ¬ replaces_wholesale (Resolved None) cart_AB ∧
  ¬ replaces_wholesale (Resolved (Some server_cart_hidden)) cart_AB.
Proof.
  unfold replaces_wholesale. simpl. split.
  - intros H. inversion H.
  - intros H. apply Forall2_length in H. discriminate H.
Qed.

End CartFacts.

(** ** The analytics counter *)

Module AnalyticsFacts.
Import Analytics.

Lemma case_metric_name (m m' : metric) (k : option Z) :
  case_metric (Some (metric_name m)) (metric_name m') k
  = if decide (m = m') then k else Some 0.
Proof. destruct m, m'; reflexivity. Qed.

Lemma int4_add_zero (a : option Z) :
  (∀ v, a = Some v → int4 v) → int4_add a (Some 0) = Ok a.
Proof.
  intros H. destruct a as [v|]; [|done]. simpl.
  rewrite Z.add_0_r. rewrite decide_True; [done|]. by apply H.
Qed.

Lemma int4_add_fits (v k : Z) :
  int4 (v + k) → int4_add (Some v) (Some k) = Ok (Some (v + k)).
Proof. intros H. simpl. by rewrite decide_True. Qed.

Lemma int4_add_overflow (v k : Z) :
  ¬ int4 (v + k) →
  int4_add (Some v) (Some k) = Raise numeric_value_out_of_range.
Proof. intros H. simpl. by rewrite decide_False. Qed.

(** The column names of [do_update] and [proposed_row] as [metric_name]s. *)
Ltac name_columns :=
  change "views" with (metric_name Views);
  change "likes" with (metric_name Likes);
  change "saves" with (metric_name Saves);
  change "shares" with (metric_name Shares);
  change "cart_adds" with (metric_name CartAdds);
  change "purchases" with (metric_name Purchases).

Ltac decides :=
  repeat (case_decide; [try discriminate | try done]).

Ltac counters r Hwt :=
  repeat match goal with
  | |- context [int4_add ?a (Some 0)] =>
      rewrite (int4_add_zero a)
        by first [ apply (Hwt Views) | apply (Hwt Likes) | apply (Hwt Saves)
                 | apply (Hwt Shares) | apply (Hwt CartAdds)
                 | apply (Hwt Purchases) ]
  end.

(** [DO UPDATE] on a row whose counter [m] holds [v]: the sum fits. *)
Lemma do_update_fits (m : metric) (k v : Z) (r : AnalyticsRow) :
  well_typed_row r → counter m r = Some v → int4 (v + k) →
  ∃ r', do_update (Some (metric_name m)) (Some k) r = Ok r' ∧
        counter m r' = Some (v + k) ∧
        (∀ m', m' ≠ m → counter m' r' = counter m' r) ∧
        same_outside_counters r r'.
Proof.
  intros Hwt Hv Hfit. unfold do_update. name_columns.
  rewrite !(case_metric_name m).
  destruct m; simpl in Hv; decides; rewrite Hv, (int4_add_fits v k Hfit);
    counters r Hwt; simpl;
    (eexists; split; [reflexivity|]; simpl;
     split_and!; [done| |done];
     intros m' Hm'; destruct m'; simpl; congruence).
Qed.

(** The sum leaves the type. *)
Lemma do_update_overflow (m : metric) (k v : Z) (r : AnalyticsRow) :
  well_typed_row r → counter m r = Some v → ¬ int4 (v + k) →
  do_update (Some (metric_name m)) (Some k) r
  = Raise numeric_value_out_of_range.
Proof.
  intros Hwt Hv Hfit. unfold do_update. name_columns.
  rewrite !(case_metric_name m).
  destruct m; simpl in Hv; decides;
    rewrite Hv, (int4_add_overflow v k Hfit); counters r Hwt; reflexivity.
Qed.

(** The counter is NULL: it stays NULL, and the row is as before. *)
Lemma do_update_null (m : metric) (k : Z) (r : AnalyticsRow) :
  well_typed_row r → counter m r = None →
  do_update (Some (metric_name m)) (Some k) r = Ok r.
Proof.
  intros Hwt Hv. unfold do_update. name_columns.
  rewrite !(case_metric_name m).
  destruct m; simpl in Hv; decides; rewrite Hv; simpl;
    counters r Hwt; simpl; rewrite <- ?Hv; by destruct r.
Qed.

Lemma row_for_Some p d (t : list AnalyticsRow) r :
  row_for p d t = Some r →
  ∃ i, conflicting_row (Some p) d t = Some (i, r) ∧ t !! i = Some r ∧
       product_id r = Some p ∧ date r = d.
Proof.
  unfold row_for. intros H.
  destruct (conflicting_row (Some p) d t) as [[i x]|] eqn:E; simplify_eq/=.
  exists i. split; [done|].
  apply list_find_Some in E as (Hi & (_ & Hp & Hd) & _). done.
Qed.

Lemma row_for_None p d (t : list AnalyticsRow) :
  row_for p d t = None → conflicting_row (Some p) d t = None.
Proof.
  unfold row_for. by destruct (conflicting_row (Some p) d t) as [[i x]|].
Qed.

Lemma proposed_row_counters ses p (m : metric) k :
  let r := proposed_row ses (Some p) (Some (metric_name m)) (Some k) in
  product_id r = Some p ∧ date r = CURRENT_DATE ses ∧
  counter m r = Some k ∧ (∀ m', m' ≠ m → counter m' r = Some 0).
Proof.
  simpl. split_and!; [done|done| |].
  - destruct m; reflexivity.
  - intros m' Hm'. destruct m, m'; try reflexivity; congruence.
Qed.

Section one_call.

Context (ses : Session) (p : uuid) (m : metric) (k : Z) (db : Database).


Lemma update_inserts :
  row_for p (CURRENT_DATE ses) (product_analytics db) = None →
  p ∈ products db →
  update_product_analytics ses (Some p) (Some (metric_name m)) (Some k) db
  = Ok (with_analytics db
         (product_analytics db
            ++ [proposed_row ses (Some p) (Some (metric_name m)) (Some k)])).
Proof.
  intros Hrow Hp. unfold update_product_analytics.
  rewrite (row_for_None _ _ _ Hrow). by rewrite decide_True.
Qed.

Lemma update_foreign_key :
  row_for p (CURRENT_DATE ses) (product_analytics db) = None →
  p ∉ products db →
  update_product_analytics ses (Some p) (Some (metric_name m)) (Some k) db
  = Raise foreign_key_violation.
Proof.
  intros Hrow Hp. unfold update_product_analytics.
  rewrite (row_for_None _ _ _ Hrow). by rewrite decide_False.
Qed.

Lemma update_adds r v :
  well_typed db →
  row_for p (CURRENT_DATE ses) (product_analytics db) = Some r →
  counter m r = Some v → int4 (v + k) →
  ∃ i r', product_analytics db !! i = Some r ∧
          update_product_analytics ses (Some p) (Some (metric_name m))
                                   (Some k) db
          = Ok (with_analytics db (<[i := r']> (product_analytics db))) ∧
          counter m r' = Some (v + k) ∧
          (∀ m', m' ≠ m → counter m' r' = counter m' r) ∧
          same_outside_counters r r'.
Proof.
  intros Hwt Hrow Hv Hfit.
  destruct (row_for_Some _ _ _ _ Hrow) as (i & Hfind & Hi & _).
  assert (well_typed_row r) as Hr by (eapply Hwt, list_elem_of_lookup_2, Hi).
  destruct (do_update_fits m k v r Hr Hv Hfit) as (r' & Hupd & Hr').
  exists i, r'. split; [done|]. split; [|done].
  unfold update_product_analytics. by rewrite Hfind, Hupd.
Qed.

Lemma update_overflow r v :
  well_typed db →
  row_for p (CURRENT_DATE ses) (product_analytics db) = Some r →
  counter m r = Some v → ¬ int4 (v + k) →
  update_product_analytics ses (Some p) (Some (metric_name m)) (Some k) db
  = Raise numeric_value_out_of_range.
Proof.
  intros Hwt Hrow Hv Hfit.
  destruct (row_for_Some _ _ _ _ Hrow) as (i & Hfind & Hi & _).
  assert (well_typed_row r) as Hr by (eapply Hwt, list_elem_of_lookup_2, Hi).
  unfold update_product_analytics.
  by rewrite Hfind, (do_update_overflow m k v r Hr Hv Hfit).
Qed.

Lemma update_null r :
  well_typed db →
  row_for p (CURRENT_DATE ses) (product_analytics db) = Some r →
  counter m r = None →
  update_product_analytics ses (Some p) (Some (metric_name m)) (Some k) db
  = Ok db.
Proof.
  intros Hwt Hrow Hv.
  destruct (row_for_Some _ _ _ _ Hrow) as (i & Hfind & Hi & _).
  assert (well_typed_row r) as Hr by (eapply Hwt, list_elem_of_lookup_2, Hi).
  unfold update_product_analytics.
  rewrite Hfind, (do_update_null m k r Hr Hv). simpl.
  rewrite list_insert_id by done. by destruct db.
Qed.

End one_call.

(** *** Two calls on the same day *)

Lemma conflicting_row_snoc p d (t : list AnalyticsRow) r :
  conflicting_row (Some p) d t = None →
  product_id r = Some p → date r = d →
  conflicting_row (Some p) d (t ++ [r]) = Some (length t, r).
Proof.
  intros Hnone Hp Hd. unfold conflicting_row in *.
  rewrite list_find_app_r by done. simpl.
  rewrite decide_True; [done|]. by split; [eexists|].
Qed.

Lemma conflicting_row_insert p d (t : list AnalyticsRow) i r r' :
  conflicting_row (Some p) d t = Some (i, r) →
  product_id r' = product_id r → date r' = date r →
  conflicting_row (Some p) d (<[i := r']> t) = Some (i, r').
Proof.
  unfold conflicting_row. intros Hfind Hp Hd.
  apply list_find_Some in Hfind as (Hi & (Hs & Hrp & Hrd) & Hleast).
  apply list_find_insert_Some. right. left.
  split_and!; [done|done|by eapply lookup_lt_Some| |done].
  split_and!; [done|congruence|congruence].
Qed.

Lemma twice_inserted (ses1 ses2 : Session) (p : uuid) (db : Database) :
  CURRENT_DATE ses2 = CURRENT_DATE ses1 →
  row_for p (CURRENT_DATE ses1) (product_analytics db) = None →
  p ∈ products db →
  ∃ r, twice ses1 ses2 p Views 1 db
       = Ok (with_analytics db (product_analytics db ++ [r])) ∧
       product_id r = Some p ∧ date r = CURRENT_DATE ses1 ∧
       views r = Some 2 ∧ likes r = Some 0 ∧ saves r = Some 0 ∧
       shares r = Some 0 ∧ cart_adds r = Some 0 ∧ purchases r = Some 0.
Proof.
  intros Hday Hrow Hp. unfold twice.
  rewrite (update_inserts ses1 p Views 1 db Hrow Hp). simpl.
  unfold update_product_analytics. simpl product_analytics.
  rewrite Hday.
  rewrite (conflicting_row_snoc p (CURRENT_DATE ses1) (product_analytics db)
             (proposed_row ses1 (Some p) (Some "views") (Some 1)))
    by (try apply row_for_None; done).
  simpl. rewrite insert_app_r_alt, Nat.sub_diag by done. simpl.
  eexists. split; [reflexivity|]. done.
Qed.

Lemma twice_added (ses1 ses2 : Session) (p : uuid) (db : Database) r v :
  CURRENT_DATE ses2 = CURRENT_DATE ses1 → well_typed db →
  row_for p (CURRENT_DATE ses1) (product_analytics db) = Some r →
  views r = Some v → int4 (v + 2) →
  ∃ i r2, product_analytics db !! i = Some r ∧
          twice ses1 ses2 p Views 1 db
          = Ok (with_analytics db (<[i := r2]> (product_analytics db))) ∧
          views r2 = Some (v + 2) ∧
          (∀ m', m' ≠ Views → counter m' r2 = counter m' r) ∧
          same_outside_counters r r2.
Proof.
  intros Hday Hwt Hrow Hv Hfit.
  destruct (row_for_Some _ _ _ _ Hrow) as (i & Hfind & Hi & _).
  assert (well_typed_row r) as Hr by (eapply Hwt, list_elem_of_lookup_2, Hi).
  assert (int4 v) as Hv4 by (by apply (Hr Views)).
  assert (int4 (v + 1)) as Hfit1 by (unfold int4 in *; lia).
  destruct (do_update_fits Views 1 v r Hr Hv Hfit1)
    as (r1 & Hupd1 & Hv1 & Hothers1 & Hsame1).
  assert (well_typed_row r1) as Hr1.
  { intros m' v'. destruct (decide (m' = Views)) as [->|Hne].
    - rewrite Hv1. by intros [= <-].
    - rewrite Hothers1 by done. apply Hr. }
  assert (int4 (v + 1 + 1)) as Hfit2
    by (by replace (v + 1 + 1) with (v + 2) by lia).
  destruct (do_update_fits Views 1 (v + 1) r1 Hr1 Hv1 Hfit2)
    as (r2 & Hupd2 & Hv2 & Hothers2 & Hsame2).
  exists i, r2. split; [done|].
  split_and!.
  - change (metric_name Views) with "views" in Hupd1, Hupd2.
    unfold twice. change (metric_name Views) with "views".
    unfold update_product_analytics at 1.
    rewrite Hfind, Hupd1. simpl.
    unfold update_product_analytics. simpl product_analytics. rewrite Hday.
    destruct Hsame1 as (_ & Hp1 & Hd1 & _).
    rewrite (conflicting_row_insert p _ _ i r r1 Hfind Hp1 Hd1).
    rewrite Hupd2. simpl. by rewrite list_insert_insert_eq.
  - simpl in Hv2. rewrite Hv2. f_equal. lia.
  - intros m' Hm'. by rewrite Hothers2, Hothers1.
  - destruct Hsame1 as (? & ? & ? & ? & ?), Hsame2 as (? & ? & ? & ? & ?).
    unfold same_outside_counters. split_and!; congruence.
Qed.

(** *** The state stays a state of the table *)

Lemma proposed_row_well_typed ses p (m : metric) k :
  int4 k →
  well_typed_row (proposed_row ses (Some p) (Some (metric_name m)) (Some k)).
Proof.
  intros Hk m' v.
  destruct (proposed_row_counters ses p m k) as (_ & _ & Hm & Hothers).
  destruct (decide (m' = m)) as [->|Hne].
  - rewrite Hm. by intros [= <-].
  - rewrite Hothers by done. intros [= <-].
    unfold int4, int4_min, int4_max. lia.
Qed.

(** A call that returns leaves every counter an [integer] and keeps
    [(product_id, date)] unique. *)
Lemma update_product_analytics_invariant
  (ses : Session) (p : uuid) (m : metric) (k : Z) (db db' : Database) :
  int4 k → well_typed db → unique_product_date (product_analytics db) →
  update_product_analytics ses (Some p) (Some (metric_name m)) (Some k) db
  = Ok db' →
  well_typed db' ∧ unique_product_date (product_analytics db') ∧
  products db' = products db.
Proof.
  intros Hk Hwt Huniq Hcall.
  destruct (row_for p (CURRENT_DATE ses) (product_analytics db))
    as [r|] eqn:Hrow.
  - destruct (row_for_Some _ _ _ _ Hrow) as (i & Hfind & Hi & Hp & Hd).
    destruct (counter m r) as [v|] eqn:Hv.
    + destruct (decide (int4 (v + k))) as [Hfit|Hover].
      * destruct (update_adds ses p m k db r v Hwt Hrow Hv Hfit)
          as (j & r' & Hj & Hcall' & Hm & Hothers & Hsame).
        rewrite Hcall' in Hcall. injection Hcall as <-. simpl.
        split_and!; [| |done].
        -- intros x Hx. apply list_elem_of_lookup in Hx as [n Hn].
           apply list_lookup_insert_Some in Hn as [(-> & -> & _)|[_ Hn]].
           ++ intros m' v'. destruct (decide (m' = m)) as [->|Hne].
              ** rewrite Hm. by intros [= <-].
              ** rewrite Hothers by done.
                 eapply Hwt, list_elem_of_lookup_2, Hj.
           ++ eapply Hwt, list_elem_of_lookup_2, Hn.
        -- destruct Hsame as (_ & Hp' & Hd' & _).
           intros a b r1 r2 Ha Hb.
           apply list_lookup_insert_Some in Ha as [(-> & -> & _)|[Hna Ha]];
             apply list_lookup_insert_Some in Hb as [(-> & -> & _)|[Hnb Hb]];
             [done| | |by apply Huniq].
           ++ rewrite Hp', Hd'. by apply Huniq.
           ++ rewrite Hp', Hd'. by apply Huniq.
      * by rewrite (update_overflow ses p m k db r v Hwt Hrow Hv Hover)
          in Hcall.
    + rewrite (update_null ses p m k db r Hwt Hrow Hv) in Hcall.
      by injection Hcall as <-.
  - unfold update_product_analytics in Hcall.
    rewrite (row_for_None _ _ _ Hrow) in Hcall.
    case_decide as Hfk; [|done]. injection Hcall as <-. simpl.
    split_and!; [| |done].
    + intros x [Hx|Hx]%elem_of_app; [by apply Hwt|].
      apply list_elem_of_singleton in Hx as ->.
      by apply proposed_row_well_typed.
    + apply row_for_None, list_find_None in Hrow.
      intros a b r1 r2 Ha Hb Hsome Hpid Hdate.
      apply lookup_app_Some in Ha as [Ha|[Hla Ha]];
        apply lookup_app_Some in Hb as [Hb|[Hlb Hb]].
      * by eapply Huniq.
      * apply list_lookup_singleton_Some in Hb as [Hb <-].
        exfalso. eapply Forall_lookup_1 in Hrow; [|exact Ha].
        apply Hrow. split; [by eexists|]. simpl in *. by split.
      * apply list_lookup_singleton_Some in Ha as [Ha <-].
        exfalso. eapply Forall_lookup_1 in Hrow; [|exact Hb].
        apply Hrow. split; [by eexists|]. simpl in *. by split.
      * apply list_lookup_singleton_Some in Ha as [Ha _].
        apply list_lookup_singleton_Some in Hb as [Hb _]. lia.
Qed.

(** Under the constraint, the row of a product for a day is the only one. *)
Lemma row_for_unique p d (t : list AnalyticsRow) r i :
  unique_product_date t → t !! i = Some r →
  product_id r = Some p → date r = d → row_for p d t = Some r.
Proof.
  intros Huniq Hi Hp Hd. unfold row_for, conflicting_row.
  destruct (list_find _ t) as [[j x]|] eqn:E.
  - apply list_find_Some in E as (Hj & (_ & Hxp & Hxd) & _). simpl.
    assert (j = i) as ->; [|congruence].
    eapply (Huniq j i x r Hj Hi); [rewrite Hxp; by eexists|congruence..].
  - apply list_find_None in E. eapply Forall_lookup_1 in E; [|exact Hi].
    exfalso. apply E. split; [by eexists|done].
Qed.

(** *** The procedure *)

(** C1 (amended).  For every product [p] of the catalogue, every metric [m]
    of the six, every [integer] increment [k] and every well-typed state of
    the table: when no row for [(p, today)] exists the call inserts one with
    column [m] set to [k] and the other five counters zero; when one exists
    whose column [m] is not NULL and whose sum with [k] is an [integer], the
    call adds [k] to column [m] of that row; every other counter, column and
    row is left unchanged.  If the sum leaves the 32-bit range the call raises
    and changes nothing; a NULL counter stays NULL.  Calling with
    [('views', 1)] twice on one day from a table without a row for the day
    yields [views = 2] and the other counters zero, and from an existing row
    [views] is larger by 2 and the other counters are unchanged. *)
Theorem update_product_analytics_spec
  (ses : Session) (p : uuid) (m : metric) (k : Z) (db : Database) :
  int4 k → well_typed db →
  ((row_for p (CURRENT_DATE ses) (product_analytics db) = None →
    p ∈ products db) →
   (∀ r, row_for p (CURRENT_DATE ses) (product_analytics db) = Some r →
         ∃ v, counter m r = Some v ∧ int4 (v + k)) →
   inserts_or_adds ses p m k db) ∧
  (∀ r v, row_for p (CURRENT_DATE ses) (product_analytics db) = Some r →
          counter m r = Some v → ¬ int4 (v + k) →
          update_product_analytics ses (Some p) (Some (metric_name m))
                                   (Some k) db
          = Raise numeric_value_out_of_range) ∧
  (∀ r, row_for p (CURRENT_DATE ses) (product_analytics db) = Some r →
        counter m r = None →
        update_product_analytics ses (Some p) (Some (metric_name m))
                                 (Some k) db
        = Ok db) ∧
  (∀ ses2, CURRENT_DATE ses2 = CURRENT_DATE ses →
     (row_for p (CURRENT_DATE ses) (product_analytics db) = None →
      p ∈ products db →
      ∃ r, twice ses ses2 p Views 1 db
           = Ok (with_analytics db (product_analytics db ++ [r])) ∧
           product_id r = Some p ∧ date r = CURRENT_DATE ses ∧
           views r = Some 2 ∧ likes r = Some 0 ∧ saves r = Some 0 ∧
           shares r = Some 0 ∧ cart_adds r = Some 0 ∧ purchases r = Some 0) ∧
     (∀ r v, row_for p (CURRENT_DATE ses) (product_analytics db) = Some r →
             views r = Some v → int4 (v + 2) →
             ∃ i r2, product_analytics db !! i = Some r ∧
                     twice ses ses2 p Views 1 db
                     = Ok (with_analytics db
                             (<[i := r2]> (product_analytics db))) ∧
                     views r2 = Some (v + 2) ∧
                     (∀ m', m' ≠ Views → counter m' r2 = counter m' r) ∧
                     same_outside_counters r r2)).
Proof.
  intros Hk Hwt. split_and!.
  - intros Hprod Hfits. unfold inserts_or_adds. cbv zeta.
    destruct (row_for p (CURRENT_DATE ses) (product_analytics db))
      as [r|] eqn:Hrow.
    + destruct (Hfits r eq_refl) as (v & Hv & Hfit).
      destruct (update_adds ses p m k db r v Hwt Hrow Hv Hfit)
        as (i & r' & Hi & Hcall & Hr').
      by exists i, r', v.
    + eexists. split; [by apply update_inserts; auto|].
      apply proposed_row_counters.
  - intros r v. by apply update_overflow.
  - intros r. by apply update_null.
  - intros ses2 Hday. split.
    + by apply twice_inserted.
    + intros r v. by apply twice_added.
Qed.

Lemma well_typed_db_empty : well_typed db_empty.
Proof. intros r Hr. by apply elem_of_nil in Hr. Qed.

Lemma well_typed_db_some : well_typed db_some.
Proof.
  intros r Hr%list_elem_of_singleton. subst r.
  intros m v. destruct m; intros [= <-]; unfold int4, int4_min, int4_max; lia.
Qed.

Lemma well_typed_db_full : well_typed db_full.
Proof.
  intros r Hr%list_elem_of_singleton. subst r.
  intros m v. destruct m; intros [= <-]; unfold int4, int4_min, int4_max; lia.
Qed.

(** The first view of the day inserts the row; a view of a product seen 41
    times makes 42. *)
Lemma update_product_analytics_spec_witness :
  inserts_or_adds today "p" Views 1 db_empty ∧
  inserts_or_adds today "p" Views 1 db_some.
Proof.
  split.
  - apply (update_product_analytics_spec today "p" Views 1 db_empty).
    + unfold int4, int4_min, int4_max. lia.
    + apply well_typed_db_empty.
    + intros _. by apply list_elem_of_singleton.
    + intros r Hr. discriminate Hr.
  - apply (update_product_analytics_spec today "p" Views 1 db_some).
    + unfold int4, int4_min, int4_max. lia.
    + apply well_typed_db_some.
    + intros Hr. discriminate Hr.
    + intros r [= <-]. exists 41. split; [reflexivity|].
      unfold int4, int4_min, int4_max. lia.
Defined.

(** C1, as stated, fails in the state where the counter of views of the day
    holds the largest [integer]: the call neither inserts nor adds, it
    raises.  It also fails where that counter is NULL: the call returns and
    the counter is still NULL. *)
Lemma update_product_analytics_overflows :
  update_product_analytics today (Some "p") (Some "views") (Some 1) db_full
  = Raise numeric_value_out_of_range ∧
  ¬ inserts_or_adds today "p" Views 1 db_full ∧
  update_product_analytics today (Some "p") (Some "views") (Some 1) db_null
  = Ok db_null ∧
  ¬ inserts_or_adds today "p" Views 1 db_null.
Proof.
  split_and!; [reflexivity| |reflexivity|].
  - unfold inserts_or_adds. cbv zeta.
    change (row_for "p" (CURRENT_DATE today) (product_analytics db_full))
      with (Some (row_p (Some 2147483647))).
    intros (i & r' & v & _ & Hcall & _). discriminate Hcall.
  - unfold inserts_or_adds. cbv zeta.
    change (row_for "p" (CURRENT_DATE today) (product_analytics db_null))
      with (Some (row_p None)).
    intros (i & r' & v & _ & _ & Hv & _). discriminate Hv.
Qed.

End AnalyticsFacts.

(** ** Image utilities *)

Module ImageFacts.
Import ImageUtils.

(** *** [resizeImage] *)

Lemma to_unsigned_long_inject (n : Z) :
  0 ≤ n < 2 ^ 32 → to_unsigned_long (inject_Z n) = n.
Proof.
  intros Hn. unfold to_unsigned_long. simpl.
  rewrite Z.quot_1_r. by apply Z.mod_small.
Qed.

Lemma to_unsigned_long_div (a b : Z) :
  0 ≤ a → 0 < b → a `div` b < 2 ^ 32 →
  to_unsigned_long (inject_Z a / inject_Z b) = a `div` b.
Proof.
  intros Ha Hb Hlt. unfold to_unsigned_long.
  destruct b as [|pb|pb]; try lia. simpl.
  rewrite Z.mul_1_r. rewrite Z.quot_div_nonneg by lia.
  apply Z.mod_small. split; [|done]. apply Z.div_pos; lia.
Qed.

(** An integer in the range of the attribute is stored as it is. *)
Lemma canvas_attribute_inject (default_value n : Z) :
  0 ≤ n ≤ 2147483647 → canvas_attribute default_value (inject_Z n) = n.
Proof.
  intros Hn. unfold canvas_attribute. cbv zeta.
  rewrite to_unsigned_long_inject by lia. by rewrite decide_True by lia.
Qed.

(** A quotient is stored truncated. *)
Lemma canvas_attribute_div (default_value a b : Z) :
  0 ≤ a → 0 < b → a `div` b ≤ 2147483647 →
  canvas_attribute default_value (inject_Z a / inject_Z b) = a `div` b.
Proof.
  intros Ha Hb Hle. unfold canvas_attribute. cbv zeta.
  rewrite to_unsigned_long_div by lia. by rewrite decide_True by lia.
Qed.

(** The three cases of the conditional, on the canvas. *)
Lemma canvas_dimensions_landscape (w h : Z) :
  0 < h → h < w → 1200 < w →
  canvas_dimensions w h 1200 1200
  = {| width := 1200; height := (h * 1200) `div` w |}.
Proof.
  intros Hh Hw Hbig. unfold canvas_dimensions, new_dimensions.
  rewrite !decide_True by lia. simpl fst. simpl snd.
  assert ((h * 1200) `div` w < 1200).
  { apply Z.div_lt_upper_bound; nia. }
  rewrite canvas_attribute_inject by lia.
  rewrite canvas_attribute_div by lia. done.
Qed.

Lemma canvas_dimensions_portrait (w h : Z) :
  0 < w → w ≤ h → 1200 < h →
  canvas_dimensions w h 1200 1200
  = {| width := (w * 1200) `div` h; height := 1200 |}.
Proof.
  intros Hw Hh Hbig. unfold canvas_dimensions, new_dimensions.
  rewrite decide_False, decide_True by lia. simpl fst. simpl snd.
  assert ((w * 1200) `div` h ≤ 1200).
  { apply Z.div_le_upper_bound; nia. }
  rewrite canvas_attribute_inject by lia.
  rewrite canvas_attribute_div by lia. done.
Qed.

Lemma canvas_dimensions_small (w h : Z) :
  0 < w → 0 < h → w ≤ 1200 → h ≤ 1200 →
  canvas_dimensions w h 1200 1200 = {| width := w; height := h |}.
Proof.
  intros Hw Hh Hw' Hh'. unfold canvas_dimensions, new_dimensions.
  destruct (decide (w > h)).
  - rewrite decide_False by lia. simpl.
    by rewrite !canvas_attribute_inject by lia.
  - rewrite decide_False by lia. simpl.
    by rewrite !canvas_attribute_inject by lia.
Qed.

(** The values computed before they are assigned to the canvas have the
    aspect ratio of the image exactly. *)
Lemma new_dimensions_aspect (w h : Z) :
  0 < w → 0 < h →
  let d := new_dimensions w h 1200 1200 in
  (d.1 * inject_Z h == inject_Z w * d.2)%Q.
Proof.
  intros Hw Hh. unfold new_dimensions.
  assert (¬ (inject_Z w == 0)%Q) as Hw0.
  { unfold Qeq. simpl. lia. }
  assert (¬ (inject_Z h == 0)%Q) as Hh0.
  { unfold Qeq. simpl. lia. }
  repeat case_decide; cbv zeta; simpl fst; simpl snd.
  - rewrite inject_Z_mult. field. done.
  - reflexivity.
  - rewrite inject_Z_mult. field. done.
  - reflexivity.
Qed.




(** *** [imageCache] *)

Lemma map_set_keys (key value : string) (m : JsMap) :
  (map_set key value m).*1
  = if map_has key m then m.*1 else m.*1 ++ [key].
Proof.
  unfold map_set. destruct (map_has key m).
  - rewrite <- list_fmap_compose. apply list_fmap_ext.
    intros i [k v] _. simpl. case_decide; simpl; congruence.
  - by rewrite fmap_app.
Qed.

Lemma map_set_NoDup (key value : string) (m : JsMap) :
  NoDup m.*1 → NoDup (map_set key value m).*1.
Proof.
  intros Hnd. rewrite map_set_keys. unfold map_has.
  case_bool_decide as Hin; [done|].
  apply NoDup_app. split_and!; [done| |apply NoDup_singleton].
  by intros x Hx ->%list_elem_of_singleton.
Qed.

Lemma map_set_length (key value : string) (m : JsMap) :
  (length (map_set key value m) ≤ S (length m))%nat.
Proof.
  unfold map_set. destruct (map_has key m).
  - rewrite length_fmap. lia.
  - rewrite length_app. simpl. lia.
Qed.

Lemma map_delete_absent (key : string) (m : JsMap) :
  key ∉ m.*1 → map_delete key m = m.
Proof.
  unfold map_delete. induction m as [|[k v] m IH]; intros Hk; [done|].
  rewrite filter_cons_True.
  - f_equal. apply IH. intros Hin. apply Hk. by right.
  - simpl. intros ->. apply Hk. by left.
Qed.

(** Deleting the first key of a map drops its first entry and nothing else. *)
Lemma map_delete_first (k0 v0 : string) (rest : JsMap) :
  NoDup ((k0, v0) :: rest).*1 → map_delete k0 ((k0, v0) :: rest) = rest.
Proof.
  intros Hnd. apply NoDup_cons in Hnd as [Hk0 _].
  unfold map_delete. rewrite filter_cons_False by (simpl; congruence).
  by apply map_delete_absent.
Qed.

Lemma map_delete_NoDup (key : string) (m : JsMap) :
  NoDup m.*1 → NoDup (map_delete key m).*1.
Proof.
  intros H. eapply sublist_NoDup; [exact H|].
  apply fmap_sublist, sublist_filter.
Qed.

(** The entries the cache holds when [set] stores the new one. *)
Lemma set_evicts_first (key value k0 v0 : string) (rest : JsMap) :
  NoDup ((k0, v0) :: rest).*1 → map_size ((k0, v0) :: rest) > 100 →
  set key value ((k0, v0) :: rest) = map_set key value rest.
Proof.
  intros Hnd Hsize. unfold set. rewrite decide_True by done.
  change (first_key ((k0, v0) :: rest)) with (Some k0). cbv iota.
  by rewrite map_delete_first.
Qed.

Lemma set_keeps_small (key value : string) (cache : JsMap) :
  map_size cache ≤ 100 → set key value cache = map_set key value cache.
Proof. intros Hsize. unfold set. by rewrite decide_False by lia. Qed.

Lemma cache_step_inv (op : CacheOp) (cache : JsMap) :
  cache_inv cache → cache_inv (cache_step cache op).
Proof.
  intros [Hnd Hsize]. destruct op as [key|key value|]; simpl; [done| |].
  - destruct (decide (map_size cache > 100)) as [Hbig|Hsmall].
    + destruct cache as [|[k0 v0] rest].
      { unfold map_size in Hbig. simpl in Hbig. lia. }
      rewrite set_evicts_first by done. split.
      * apply map_set_NoDup. by apply NoDup_cons in Hnd as [_ ?].
      * pose proof (map_set_length key value rest).
        unfold map_size in *. simpl length in Hsize. lia.
    + rewrite set_keeps_small by lia. split; [by apply map_set_NoDup|].
      pose proof (map_set_length key value cache). unfold map_size in *. lia.
  - split; [apply NoDup_nil_2|]. unfold map_size. simpl. lia.
Qed.

Lemma cache_run_inv (ops : list CacheOp) (cache : JsMap) :
  cache_inv cache → cache_inv (cache_run ops cache).
Proof.
  revert cache. induction ops as [|op ops IH]; intros cache H; [done|].
  simpl. by apply IH, cache_step_inv.
Qed.

Lemma cache_inv_empty : cache_inv [].
Proof. split; [apply NoDup_nil_2|]. unfold map_size. simpl. lia. Qed.

(** C6 at the failing input, and what the code guarantees.  After 101
    insertions under distinct keys the cache holds 101 entries: the guard
    [size > 100] lets the 101st in.  Over all runs from the empty cache the
    size never exceeds 101; a [set] on a cache of more than 100 entries first
    drops the entry inserted earliest, whether or not it was read since, and
    [get] does not change the cache: after the 101 insertions, a read of the
    first key and one more insertion, the first key is gone. *)
Theorem imageCache_holds_101 :
  map_size (cache_run (set_fresh_keys 101) []) = 101 ∧
  (∀ ops, map_size (cache_run ops []) ≤ 101) ∧
  (∀ ops k0 v0 rest key value,
     cache_run ops [] = (k0, v0) :: rest →
     map_size (cache_run ops []) > 100 →
     cache_run (ops ++ [CacheSet key value]) [] = map_set key value rest) ∧
  (∀ ops key, cache_run (ops ++ [CacheGet key]) [] = cache_run ops []) ∧
  (let cache :=
     cache_run (set_fresh_keys 101
                  ++ [CacheGet (nth_key 0); CacheSet (nth_key 101) "url"]) [] in
   get (nth_key 0) cache = None ∧ first_key cache = Some (nth_key 1) ∧
   map_size cache = 101).
Proof.
  split_and!; [| | | |vm_compute; done].
  - vm_compute. reflexivity.
  - intros ops. apply (cache_run_inv ops []), cache_inv_empty.
  - intros ops k0 v0 rest key value Hrun Hsize.
    unfold cache_run in *. rewrite fold_left_app. simpl.
    destruct (cache_run_inv ops [] cache_inv_empty) as [Hnd _].
    unfold cache_run in Hnd. rewrite Hrun in *.
    by apply set_evicts_first.
  - intros ops key. unfold cache_run. by rewrite fold_left_app.
Qed.

End ImageFacts.

(** ** Upload to storage *)

Module StorageFacts.
Import ImageUtils Storage.

Lemma validateFileUpload_valid (file : File) :
  valid (validateFileUpload file) = true
  ↔ type file ∈ ALLOWED_TYPES ∧ size file ≤ MAX_FILE_SIZE.
Proof.
  unfold validateFileUpload, ALLOWED_TYPES, MAX_FILE_SIZE. cbv zeta.
  repeat case_decide; simpl; split; intros HH; try done;
    try (destruct HH as [? ?]; first [done | lia]).
Qed.

Lemma validateImageFile_valid (file : File) :
  isValid (validateImageFile file) = true
  ↔ type file ∈ ALLOWED_TYPES ∧ size file ≤ MAX_FILE_SIZE.
Proof.
  unfold validateImageFile, ALLOWED_TYPES, MAX_FILE_SIZE.
  repeat case_decide; simpl; split; intros HH; try done;
    try (destruct HH as [? ?]; first [done | lia]).
Qed.

Lemma validators_error_message (file : File) :
  (valid (validateFileUpload file) = false →
   is_Some (upload_error (validateFileUpload file))) ∧
  (isValid (validateImageFile file) = false →
   is_Some (ImageUtils.error (validateImageFile file))).
Proof.
  unfold validateFileUpload, validateImageFile. cbv zeta.
  split; repeat case_decide; simpl; try done; by eexists.
Qed.

(** C8.  A file whose type is not JPEG, PNG or WebP, or whose size exceeds
    5MB, makes [uploadProductImage] return an error result, with empty [url]
    and [path], after the single progress report of the validation stage:
    the image is neither resized nor uploaded and the bucket holds the objects
    it held.  A 6MB PNG is refused for its size.  A file of an allowed type
    and of at most 5MB passes both validations, and the upload goes on to the
    resize step. *)
Theorem uploadProductImage_validates
  (env : Env) (file : File) (productId : string) (index : Z)
  (objects : Bucket) :
  (type file ∉ ALLOWED_TYPES ∨ size file > MAX_FILE_SIZE →
   let o := uploadProductImage env file productId index objects in
   is_error (result o) ∧ url (result o) = "" ∧ path (result o) = "" ∧
   effects o = [OnProgress {| progress := 10; stage := validating |}] ∧
   Forall (λ e, resizes_or_uploads e = false) (effects o) ∧
   objects_after o = objects) ∧
  (type file ∈ ALLOWED_TYPES → size file ≤ MAX_FILE_SIZE →
   valid (validateFileUpload file) = true ∧
   isValid (validateImageFile file) = true ∧
   ∃ rest,
     effects (uploadProductImage env file productId index objects)
     = [OnProgress {| progress := 10; stage := validating |};
        OnProgress {| progress := 30; stage := resizing |};
        CallResizeImage file 1200 1200 (85 / 100)] ++ rest) ∧
  (type file = "image/png" → size file = 6 * 1024 * 1024 →
   result (uploadProductImage env file productId index objects)
   = {| url := ""; path := "";
        error := Some "File validation failed: File size exceeds 5MB limit" |}).
Proof.
  split_and!.
  - intros Hbad o.
    assert (valid (validateFileUpload file) = false) as Hv.
    { destruct (valid (validateFileUpload file)) eqn:E; [|done].
      apply validateFileUpload_valid in E as [? ?]. destruct Hbad; [done|lia]. }
    subst o. unfold uploadProductImage. cbv zeta. rewrite Hv. simpl.
    split_and!; try done.
    + by eexists.
    + by repeat constructor.
  - intros Htype Hsize.
    assert (valid (validateFileUpload file) = true) as Hv
      by (by apply validateFileUpload_valid).
    assert (isValid (validateImageFile file) = true) as Hi
      by (by apply validateImageFile_valid).
    split_and!; [done|done|].
    unfold uploadProductImage. cbv zeta. rewrite Hv, Hi. simpl negb. cbv iota.
    destruct (resizeImage _ _ _ _ _) as [blob|msg].
    + destruct (storage_upload _ _ _ _) as [objects' [msg|]]; simpl;
        by eexists.
    + simpl. by eexists.
  - intros Htype Hsize. unfold uploadProductImage, validateFileUpload.
    cbv zeta. rewrite Hsize. rewrite decide_True by lia. reflexivity.
Qed.

Lemma uploadProductImage_validates_witness :
  result (uploadProductImage upload_env png_6MB "p" 0 [])
  = {| url := ""; path := "";
       error := Some "File validation failed: File size exceeds 5MB limit" |} ∧
  objects_after (uploadProductImage upload_env png_6MB "p" 0 []) = [] ∧
  isValid (validateImageFile jpeg_1MB) = true.
Proof.
  destruct (uploadProductImage_validates upload_env png_6MB "p" 0 [])
    as (Hbad & _ & H6).
  destruct (uploadProductImage_validates upload_env jpeg_1MB "p" 0 [])
    as (_ & Hgood & _).
  split_and!.
  - apply H6; reflexivity.
  - apply Hbad. right. unfold MAX_FILE_SIZE. simpl. lia.
  - apply Hgood; [|simpl; unfold MAX_FILE_SIZE; lia].
    simpl. unfold ALLOWED_TYPES. apply list_elem_of_here.
Defined.

End StorageFacts.

(** ** The auth store *)

Module AuthFacts.
Import Auth.

(** C9.  For a signed-in user [checkAdminStatus()] always returns, never
    throws, and leaves [user] and [isLoading] as they were.  It resolves to
    [isAdmin = false] when the user has no profile row, when the query
    reports an error and when the query throws; [isAdmin] is [true] exactly
    when the query returns, without error, a profile row whose [is_admin] is
    [true]. *)
Theorem checkAdminStatus_spec
  (u : User) (response : ProfileResponse) (s : AuthState) :
  user s = Some u →
  (∃ s', checkAdminStatus response s = Returns s' ∧
         user s' = user s ∧ isLoading s' = isLoading s ∧
         (isAdmin s' = true ↔
          ∃ row, response = QueryResolved (Some row) None ∧
                 is_admin row = Some true)) ∧
  (response = QueryResolved None None →
   checkAdminStatus response s = Returns (set_isAdmin s false)) ∧
  (∀ data e, response = QueryResolved data (Some e) →
   checkAdminStatus response s = Returns (set_isAdmin s false)) ∧
  (∀ reason, response = QueryRejected reason →
   checkAdminStatus response s = Returns (set_isAdmin s false)).
Proof.
  intros Hu. unfold checkAdminStatus. rewrite Hu.
  split_and!.
  - destruct response as [reason|data [e|]]; simpl.
    + eexists. split_and!; [done..|]. simpl. split; [done|].
      by intros (row & ? & _).
    + eexists. split_and!; [done..|]. simpl. split; [done|].
      by intros (row & ? & _).
    + eexists. split_and!; [done..|]. simpl.
      destruct data as [[[[]|]]|]; simpl; split; try done.
      * intros _. by eexists.
      * by intros (row & [= <-] & ?).
      * by intros (row & [= <-] & ?).
      * by intros (row & ? & _).
  - by intros ->.
  - by intros data e ->.
  - by intros reason ->.
Qed.

Lemma checkAdminStatus_spec_witness :
  checkAdminStatus (QueryResolved None None) signed_in
  = Returns (set_isAdmin signed_in false).
Proof.
  destruct (checkAdminStatus_spec alice (QueryResolved None None) signed_in)
    as (_ & H & _); [reflexivity|].
  by apply H.
Defined.

End AuthFacts.


(** * Further properties *)

(** ** The cart store and the cart modal *)

Module CartMoreFacts.
Import Cart CartFacts CartModal.

Lemma filter_other_products productId (l : list CartItem) :
  (∀ item, item ∈ l → product_id item ≠ productId) →
  filter (λ item, product_id item ≠ productId) l = l.
Proof.
  induction l as [|x l IH]; intros H; [done|].
  rewrite filter_cons_True by (apply H; by left).
  f_equal. apply IH. intros item Hin. apply H. by right.
Qed.

Lemma fmap_other_products productId q (l : list CartItem) :
  (∀ item, item ∈ l → product_id item ≠ productId) →
  (λ item, if decide (product_id item = productId)
           then with_quantity item q else item) <$> l = l.
Proof.
  induction l as [|x l IH]; intros H; [done|].
  rewrite fmap_cons, decide_False by (apply H; by left).
  f_equal. apply IH. intros item Hin. apply H. by right.
Qed.

Lemma set_items_same (s : CartState) : set_items s (items s) = s.
Proof. by destruct s. Qed.

(** X1.  Adding a product that has no line in the cart and removing it again
    gives back the cart, whatever the quantity added. *)
Theorem addItem_removeItem_round_trip
  (product : Product) (q now : Z) (s : CartState) :
  find_product (prod_id product) (items s) = None →
  removeItem (prod_id product) (addItem product q now s) = s.
Proof.
  intros Hnone. unfold addItem. rewrite Hnone.
  unfold removeItem. simpl. rewrite filter_app.
  rewrite filter_other_products by (by apply find_product_None).
  rewrite filter_cons_False by (simpl; tauto).
  rewrite filter_nil, app_nil_r. by destruct s.
Qed.

Lemma addItem_removeItem_round_trip_witness :
  removeItem "A" (addItem product_A 3 1751241602000 (set_items init [line_B]))
  = set_items init [line_B].
Proof.
  apply (addItem_removeItem_round_trip product_A 3 1751241602000
           (set_items init [line_B])).
  reflexivity.
Defined.

(** X2.  [updateQuantity] and [removeItem] for a product that has no line
    leave the cart as it is: [updateQuantity] never adds a line. *)
Theorem updateQuantity_absent (productId : string) (q : Z) (s : CartState) :
  find_product productId (items s) = None →
  updateQuantity productId q s = s ∧ removeItem productId s = s.
Proof.
  intros Hnone. pose proof (find_product_None _ _ Hnone) as H.
  assert (removeItem productId s = s) as Hrem.
  { unfold removeItem. rewrite filter_other_products by done.
    apply set_items_same. }
  split; [|done]. unfold updateQuantity. case_decide; [done|].
  rewrite fmap_other_products by done. apply set_items_same.
Qed.

Lemma updateQuantity_absent_witness :
  updateQuantity "C" 4 cart_AB = cart_AB ∧ removeItem "C" cart_AB = cart_AB.
Proof. apply (updateQuantity_absent "C" 4 cart_AB). reflexivity. Defined.

(** *** The buttons of a line *)

Lemma total_from_removed (l : list CartItem) item :
  NoDup (product_id <$> l) → item ∈ l →
  total_from 0 (filter (λ x, product_id x ≠ product_id item) l)
  = total_from 0 l - quantity item.
Proof.
  intros Hnd Hin. apply list_elem_of_lookup in Hin as [i Hi].
  assert (∀ x, x ∈ take i l ++ drop (S i) l →
               product_id x ≠ product_id item) as Hothers.
  { intros x Hx Heq.
    rewrite <- (take_drop_middle l i item Hi), fmap_app, fmap_cons in Hnd.
    apply NoDup_app in Hnd as (_ & Hl & Hr).
    apply NoDup_cons in Hr as [Hr _].
    apply elem_of_app in Hx as [Hx|Hx].
    - apply (Hl (product_id x)); [by apply list_elem_of_fmap_2|].
      rewrite Heq. by left.
    - apply Hr. rewrite <- Heq. by apply list_elem_of_fmap_2. }
  rewrite <- (take_drop_middle l i item Hi) at 1 2.
  rewrite filter_app, filter_cons_False by tauto.
  rewrite <- filter_app, filter_other_products by done.
  rewrite !total_from_app, total_from_cons. lia.
Qed.

(** X3.  In a cart with one line per product, the minus button of a line that
    holds at least one unit lowers [getTotalItems()] by exactly one (the line
    disappears when it held one unit), and the plus button raises it by
    exactly one. *)
Theorem buttons_change_total_by_one (item : CartItem) (s : CartState) :
  one_line_per_product s → item ∈ items s → 1 ≤ quantity item →
  getTotalItems (minus item s) = getTotalItems s - 1 ∧
  getTotalItems (plus item s) = getTotalItems s + 1 ∧
  (quantity item = 1 →
   ∀ x, x ∈ items (minus item s) → product_id x ≠ product_id item).
Proof.
  intros Hone Hin Hq. unfold minus, plus, handleQuantityChange, getTotalItems.
  fold (total_from 0 (items s)).
  split_and!.
  - destruct (decide (quantity item = 1)) as [H1|H1].
    + rewrite updateQuantity_nonpositive by lia. simpl.
      fold (total_from 0 (filter (λ x, product_id x ≠ product_id item)
                                 (items s))).
      rewrite total_from_removed by done. lia.
    + rewrite updateQuantity_positive by lia. simpl.
      match goal with |- fold_left ?f ?l 0 = _ =>
        change (fold_left f l 0) with (total_from 0 l) end.
      rewrite total_from_with_quantity by done. lia.
  - rewrite updateQuantity_positive by lia. simpl.
    match goal with |- fold_left ?f ?l 0 = _ =>
      change (fold_left f l 0) with (total_from 0 l) end.
    rewrite total_from_with_quantity by done. lia.
  - intros H1 x. rewrite updateQuantity_nonpositive by lia.
    apply removeItem_removes.
Qed.

Lemma buttons_change_total_by_one_witness :
  getTotalItems (minus line_B cart_AB) = getTotalItems cart_AB - 1 ∧
  getTotalItems (plus line_B cart_AB) = getTotalItems cart_AB + 1.
Proof.
  destruct (buttons_change_total_by_one line_B cart_AB) as (Hm & Hp & _).
  - unfold one_line_per_product. simpl.
    apply NoDup_cons. split; [|apply NoDup_singleton].
    intros H%list_elem_of_singleton. discriminate H.
  - right. by left.
  - simpl. lia.
  - by split.
Defined.

(** *** Quantities stay positive *)

Lemma step_positive_quantities (a : Action) (s : CartState) :
  adds_units a → positive_quantities s → positive_quantities (step s a).
Proof.
  intros Ha Hs. destruct a as [product q now|productId q|productId|]; simpl.
  - simpl in Ha. unfold addItem.
    destruct (find_product _ _) as [e|] eqn:E.
    + apply find_product_Some in E as [He _].
      pose proof (Hs e He) as Hqe.
      rewrite updateQuantity_positive by lia.
      intros x Hx. simpl in Hx.
      apply list_elem_of_fmap in Hx as (y & -> & Hy).
      case_decide; simpl; [lia|by apply Hs].
    + intros x Hx. simpl in Hx.
      apply elem_of_app in Hx as [Hx|Hx]; [by apply Hs|].
      apply list_elem_of_singleton in Hx as ->. done.
  - unfold updateQuantity. case_decide as Hq.
    + intros x Hx. simpl in Hx.
      apply list_elem_of_filter in Hx as [_ Hx]. by apply Hs.
    + intros x Hx. simpl in Hx.
      apply list_elem_of_fmap in Hx as (y & -> & Hy).
      case_decide; simpl; [lia|by apply Hs].
  - intros x Hx. simpl in Hx.
    apply list_elem_of_filter in Hx as [_ Hx]. by apply Hs.
  - intros x Hx. by apply elem_of_nil in Hx.
Qed.

Lemma total_from_lower_bound (l : list CartItem) :
  (∀ item, item ∈ l → 1 ≤ quantity item) →
  Z.of_nat (length l) ≤ total_from 0 l.
Proof.
  induction l as [|x l IH]; intros H; [done|].
  rewrite total_from_cons. simpl length.
  assert (1 ≤ quantity x) by (apply H; by left).
  assert (Z.of_nat (length l) ≤ total_from 0 l).
  { apply IH. intros item Hin. apply H. by right. }
  lia.
Qed.

(** X4.  When every [addItem] adds at least one unit, then after any sequence
    of [addItem], [updateQuantity], [removeItem] and [clearCart] on the empty
    cart every line holds at least one unit, [getTotalItems()] is at least the
    number of lines, and it is 0 exactly when the cart is empty. *)
Theorem quantities_stay_positive (actions : list Action) :
  Forall adds_units actions →
  let s := run actions init in
  positive_quantities s ∧
  Z.of_nat (length (items s)) ≤ getTotalItems s ∧
  (getTotalItems s = 0 ↔ items s = []).
Proof.
  intros Hall.
  assert (∀ s0, positive_quantities s0 →
                positive_quantities (run actions s0)) as Hrun.
  { induction Hall as [|a actions Ha _ IH]; intros s0 Hs0; [done|].
    simpl. apply IH. by apply step_positive_quantities. }
  assert (positive_quantities (run actions init)) as Hpos.
  { apply Hrun. intros x Hx. by apply elem_of_nil in Hx. }
  cbv zeta. pose proof (total_from_lower_bound _ Hpos) as Hlow.
  split_and!; [done|done|]. unfold getTotalItems.
  fold (total_from 0 (items (run actions init))). split.
  - intros H0. destruct (items (run actions init)); [done|].
    simpl length in Hlow. lia.
  - intros ->. reflexivity.
Qed.

Lemma quantities_stay_positive_witness :
  positive_quantities
    (run [AddItem product_A 2 1751241600000; UpdateQuantity "A" 0;
          AddItem product_B 1 1751241601000] init).
Proof.
  apply (quantities_stay_positive
           [AddItem product_A 2 1751241600000; UpdateQuantity "A" 0;
            AddItem product_B 1 1751241601000]).
  repeat constructor; simpl; lia.
Defined.

End CartMoreFacts.

(** ** The cart store with its server mirror *)

Module CartSyncFacts.
Import Cart CartSync.

(** X5.  The local cart after an action is what the action does to the local
    cart alone, whatever the network answers and whoever is signed in: a
    failed mirror write is never rolled back locally.  Without a user the
    server tables are untouched by any sequence of actions. *)
Theorem local_state_unconditional
  (user : option Auth.User) (steps : list (Net * Action)) (w : World) :
  local (CartSync.run user steps w) = Cart.run (steps.*2) (local w) ∧
  (user = None → server (CartSync.run user steps w) = server w).
Proof.
  revert w. induction steps as [|[net a] steps IH]; intros w; [done|].
  simpl. destruct (IH (CartSync.step net user w a)) as [IHl IHs].
  assert (local (CartSync.step net user w a) = Cart.step (local w) a) as Hl.
  { destruct a as [product q now|productId q|productId|]; simpl; try done.
    - unfold CartSync.addItem, Cart.addItem.
      destruct (find_product _ _); [|done].
      unfold CartSync.updateQuantity, Cart.updateQuantity.
      by case_decide.
    - unfold CartSync.updateQuantity, Cart.updateQuantity. by case_decide. }
  split.
  - by rewrite IHl, Hl.
  - intros ->. rewrite IHs by done.
    destruct a as [product q now|productId q|productId|]; simpl; try done.
    + unfold CartSync.addItem. destruct (find_product _ _); [|done].
      unfold CartSync.updateQuantity. by case_decide.
    + unfold CartSync.updateQuantity. by case_decide.
Qed.

(** *** What a signed-in user's actions leave alone *)

Lemma cart_of_Some uid sv c :
  cart_of uid sv = Some c →
  c ∈ shopping_carts sv ∧ sc_user_id c = Some uid.
Proof.
  unfold cart_of. intros H.
  destruct (filter _ (shopping_carts sv)) as [|c' [|]] eqn:E; simplify_eq.
  assert (c ∈ filter (λ c, sc_user_id c = Some uid) (shopping_carts sv)) as Hin
    by (rewrite E; by left).
  apply list_elem_of_filter in Hin as [? ?]. done.
Qed.

Lemma update_items_untouched net c p q cid sv :
  cid ≠ c → untouched cid sv (update_items net c p q sv).
Proof.
  intros Hne. unfold untouched, update_items.
  destruct (write_ok net); [|done]. simpl.
  induction (cart_items sv) as [|r l IH]; [done|].
  rewrite fmap_cons, !filter_cons, IH.
  destruct (decide (in_cart_of_product c p r)) as [[Hc _]|_]; [|done].
  simpl. rewrite !decide_False; [done|congruence|congruence].
Qed.

Lemma delete_items_untouched net c p cid sv :
  cid ≠ c → untouched cid sv (delete_items net c p sv).
Proof.
  intros Hne. unfold untouched, delete_items.
  destruct (write_ok net); [|done]. simpl.
  rewrite list_filter_filter. apply list_filter_iff.
  intros r. split; [tauto|]. intros Hr. split; [done|].
  intros [Hc _]. congruence.
Qed.

Lemma delete_cart_items_untouched net c cid sv :
  cid ≠ c → untouched cid sv (delete_cart_items net c sv).
Proof.
  intros Hne. unfold untouched, delete_cart_items.
  destruct (write_ok net); [|done]. simpl.
  rewrite list_filter_filter. apply list_filter_iff.
  intros r. split; [tauto|]. intros Hr. split; [done|congruence].
Qed.

Lemma insert_item_untouched net c product q cid sv :
  cid ≠ c → untouched cid sv (insert_item net c product q sv).
Proof.
  intros Hne. unfold untouched, insert_item.
  destruct (_ && _); [|done]. simpl.
  rewrite filter_app, filter_cons_False, filter_nil, app_nil_r; [done|].
  simpl. congruence.
Qed.

Lemma insert_cart_result net uid sv sv' cid :
  insert_cart net uid sv = (sv', cid) →
  cart_items sv' = cart_items sv ∧
  (shopping_carts sv' = shopping_carts sv ∧ cid = None ∨
   shopping_carts sv'
   = shopping_carts sv
       ++ [{| sc_id := new_cart_id net; sc_user_id := Some uid |}] ∧
   cid = Some (new_cart_id net) ∧
   (new_cart_id net ∉ sc_id <$> shopping_carts sv) ∧
   (Some uid ∉ sc_user_id <$> shopping_carts sv)).
Proof.
  unfold insert_cart. destruct (_ && _) eqn:E; intros [= <- <-].
  - split; [done|]. right. split_and!; [done|done| |].
    + apply andb_prop in E as [E _]. apply andb_prop in E as [_ E].
      by apply bool_decide_eq_true in E.
    + apply andb_prop in E as [_ E]. by apply bool_decide_eq_true in E.
  - split; [done|]. by left.
Qed.

(** The carts of the table after one action: those before, and possibly a new
    cart of the user. *)
Lemma step_carts net (u : Auth.User) a w :
  let sv := server w in
  let sv' := server (CartSync.step net (Some u) w a) in
  shopping_carts sv' = shopping_carts sv ∨
  shopping_carts sv'
  = shopping_carts sv
      ++ [{| sc_id := new_cart_id net;
             sc_user_id := Some (Auth.user_id u) |}] ∧
  (new_cart_id net ∉ sc_id <$> shopping_carts sv) ∧
  (Some (Auth.user_id u) ∉ sc_user_id <$> shopping_carts sv).
Proof.
  cbv zeta.
  assert (∀ p q, shopping_carts
            (server (CartSync.updateQuantity net (Some u) p q w))
          = shopping_carts (server w)) as Hupd.
  { intros p q. unfold CartSync.updateQuantity.
    case_decide; simpl.
    - unfold sync_remove. destruct (select_cart _ _ _) as [[c|]|]; try done.
      unfold delete_items. by destruct (write_ok net).
    - unfold sync_update. destruct (select_cart _ _ _) as [[c|]|]; try done.
      unfold update_items. by destruct (write_ok net). }
  destruct a as [product q now|productId q|productId|]; simpl.
  - unfold CartSync.addItem. destruct (find_product _ _); [by left|].
    simpl. unfold sync_add.
    destruct (select_cart _ _ _) as [[c|]|]; [| |by left].
    + left. unfold insert_item. by destruct (_ && _).
    + destruct (insert_cart net (Auth.user_id u) (server w)) as [sv1 cid] eqn:E.
      apply insert_cart_result in E as (_ & [[E ->]|(E & -> & H1 & H2)]).
      * by left.
      * right. split; [|done]. unfold insert_item. by destruct (_ && _).
  - by left.
  - left. unfold sync_remove. destruct (select_cart _ _ _) as [[c|]|]; try done.
    unfold delete_items. by destruct (write_ok net).
  - left. unfold sync_clear. destruct (select_cart _ _ _) as [[c|]|]; try done.
    unfold delete_cart_items. by destruct (write_ok net).
Qed.

Lemma select_cart_Some net uid sv c :
  select_cart net uid sv = Some (Some c) →
  c ∈ shopping_carts sv ∧ sc_user_id c = Some uid.
Proof.
  unfold select_cart. destruct (select_reply net); try done.
  intros [= H]. by apply cart_of_Some.
Qed.

(** X6.  An action of a signed-in user never removes or changes a row of
    [shopping_carts] (it adds at most one cart, for that user) and never
    touches the [cart_items] of a cart that is not the user's. *)
Theorem other_carts_untouched
  (net : Net) (u : Auth.User) (a : Action) (w : World) :
  let sv := server w in
  let sv' := server (CartSync.step net (Some u) w a) in
  (shopping_carts sv' = shopping_carts sv ∨
   shopping_carts sv'
   = shopping_carts sv
       ++ [{| sc_id := new_cart_id net;
              sc_user_id := Some (Auth.user_id u) |}]) ∧
  ∀ cid,
    (∀ c, c ∈ shopping_carts sv' → sc_id c = cid →
          sc_user_id c ≠ Some (Auth.user_id u)) →
    filter (λ r, ci_cart_id r = Some cid) (cart_items sv')
    = filter (λ r, ci_cart_id r = Some cid) (cart_items sv).
Proof.
  cbv zeta. split.
  { destruct (step_carts net u a w) as [H|[H _]]; [by left|by right]. }
  intros cid Hcid.
  assert (∀ c, c ∈ shopping_carts (server w) →
               sc_user_id c = Some (Auth.user_id u) → cid ≠ sc_id c) as Hne.
  { intros c Hc Hu Heq. apply (Hcid c); [|done|done].
    destruct (step_carts net u a w) as [->|[-> _]]; [done|].
    apply elem_of_app. by left. }
  assert (∀ p q, untouched cid (server w)
            (server (CartSync.updateQuantity net (Some u) p q w))) as Hupd.
  { intros p q. unfold CartSync.updateQuantity. case_decide; simpl.
    - unfold sync_remove.
      destruct (select_cart _ _ _) as [[c|]|] eqn:E; try done.
      apply select_cart_Some in E as [? ?].
      apply delete_items_untouched. by apply Hne.
    - unfold sync_update.
      destruct (select_cart _ _ _) as [[c|]|] eqn:E; try done.
      apply select_cart_Some in E as [? ?].
      apply update_items_untouched. by apply Hne. }
  fold (untouched cid (server w) (server (CartSync.step net (Some u) w a))).
  destruct a as [product q now|productId q|productId|]; simpl.
  - unfold CartSync.addItem.
    destruct (find_product _ _) eqn:Hfind; [apply Hupd|].
    simpl. unfold sync_add.
    destruct (select_cart _ _ _) as [[c|]|] eqn:E; [| |done].
    + apply select_cart_Some in E as [? ?].
      apply insert_item_untouched. by apply Hne.
    + destruct (insert_cart net (Auth.user_id u) (server w))
        as [sv1 cid1] eqn:E1.
      pose proof (insert_cart_result _ _ _ _ _ E1)
        as (Hitems & [[Hc ->]|(Hc & -> & H1 & H2)]).
      * unfold untouched. by rewrite Hitems.
      * assert (cid ≠ new_cart_id net) as Hnew.
        { intros ->.
          apply (Hcid {| sc_id := new_cart_id net;
                         sc_user_id := Some (Auth.user_id u) |});
            [|done|done].
          unfold CartSync.step, CartSync.addItem. rewrite Hfind. simpl.
          unfold sync_add. rewrite E, E1.
          unfold insert_item. destruct (_ && _); simpl; rewrite Hc;
            apply elem_of_app; right; by left. }
        unfold untouched.
        rewrite (insert_item_untouched net (new_cart_id net) product q cid sv1)
          by done.
        by rewrite Hitems.
  - apply Hupd.
  - unfold sync_remove.
    destruct (select_cart _ _ _) as [[c|]|] eqn:E; try done.
    apply select_cart_Some in E as [? ?].
    apply delete_items_untouched. by apply Hne.
  - unfold sync_clear.
    destruct (select_cart _ _ _) as [[c|]|] eqn:E; try done.
    apply select_cart_Some in E as [? ?].
    apply delete_cart_items_untouched. by apply Hne.
Qed.

(** *** The mirror when every request is carried out *)

Lemma user_key_filter uid (l : list ShoppingCart) :
  NoDup (omap sc_user_id l) →
  (length (filter (λ c, sc_user_id c = Some uid) l) ≤ 1)%nat.
Proof.
  induction l as [|c l IH]; simpl; [lia|]. intros Hnd.
  rewrite filter_cons. destruct (decide _) as [Hc|Hc].
  - rewrite Hc in Hnd. apply NoDup_cons in Hnd as [Hnin Hnd].
    destruct (filter _ l) as [|c0 k] eqn:E; [simpl; lia|].
    exfalso. apply Hnin. apply list_elem_of_omap. exists c0.
    assert (c0 ∈ filter (λ c, sc_user_id c = Some uid) l) as Hin
      by (rewrite E; by left).
    by apply list_elem_of_filter in Hin as [? ?].
  - apply IH. destruct (sc_user_id c); [|done].
    by apply NoDup_cons in Hnd as [_ ?].
Qed.

Lemma cart_of_None uid sv :
  constraints sv → cart_of uid sv = None →
  Some uid ∉ sc_user_id <$> shopping_carts sv.
Proof.
  intros [_ Hkey _ _] Hnone Hin.
  apply list_elem_of_fmap in Hin as (c & Hu & Hc).
  pose proof (user_key_filter uid _ Hkey) as Hlen.
  unfold cart_of in Hnone.
  destruct (filter _ (shopping_carts sv)) as [|c1 [|c2 k]] eqn:E;
    [|done|simpl in Hlen; lia].
  eapply (filter_nil_not_elem_of _ _ c); [exact E| |exact Hc]. done.
Qed.

Lemma cart_of_new uid cid sv :
  Some uid ∉ sc_user_id <$> shopping_carts sv →
  cart_of uid {| shopping_carts :=
                   shopping_carts sv
                     ++ [{| sc_id := cid; sc_user_id := Some uid |}];
                 cart_items := cart_items sv |}
  = Some {| sc_id := cid; sc_user_id := Some uid |}.
Proof.
  intros Hnin. unfold cart_of. simpl.
  rewrite filter_app, filter_cons_True, filter_nil by done.
  assert (filter (λ c, sc_user_id c = Some uid) (shopping_carts sv) = [])
    as ->; [|done].
  induction (shopping_carts sv) as [|c l IH]; [done|].
  rewrite fmap_cons, not_elem_of_cons in Hnin. destruct Hnin as [Hc Hl].
  rewrite filter_cons_False by done. by apply IH.
Qed.

Lemma rows_deleted c p (l : list CartItemDb) :
  row_content
    <$> filter (λ r, ci_cart_id r = Some c)
               (filter (λ r, ¬ in_cart_of_product c p r) l)
  = filter (λ t, t.1 ≠ Some p)
           (row_content <$> filter (λ r, ci_cart_id r = Some c) l).
Proof.
  induction l as [|r l IH]; [done|].
  rewrite (filter_cons (λ r, ci_cart_id r = Some c) r).
  rewrite (filter_cons (λ r, ¬ in_cart_of_product c p r) r).
  unfold in_cart_of_product at 1 3.
  destruct (decide (ci_cart_id r = Some c)) as [Hc|Hc];
    destruct (decide (¬ _)) as [Hp|Hp].
  - rewrite filter_cons_True, !fmap_cons, filter_cons_True, IH; [done| |done].
    simpl. tauto.
  - rewrite fmap_cons, filter_cons_False, IH; [done|]. simpl.
    intros Hne. apply Hp. tauto.
  - by rewrite filter_cons_False.
  - done.
Qed.

Lemma lines_deleted p (l : list CartItem) :
  line_content <$> filter (λ item, product_id item ≠ p) l
  = filter (λ t, t.1 ≠ Some p) (line_content <$> l).
Proof.
  induction l as [|item l IH]; [done|].
  rewrite fmap_cons, !filter_cons. simpl.
  destruct (decide (product_id item ≠ p)) as [Hp|Hp].
  - rewrite decide_True by congruence. by rewrite fmap_cons, IH.
  - rewrite decide_False; [done|]. intros H. apply Hp. congruence.
Qed.

Lemma rows_updated c p q (l : list CartItemDb) :
  row_content
    <$> filter (λ r, ci_cart_id r = Some c)
          ((λ r, if decide (in_cart_of_product c p r)
                 then {| ci_id := ci_id r; ci_cart_id := ci_cart_id r;
                         ci_product_id := ci_product_id r;
                         ci_quantity := q |}
                 else r) <$> l)
  = (λ t, if decide (t.1 = Some p) then (t.1, q) else t)
      <$> (row_content <$> filter (λ r, ci_cart_id r = Some c) l).
Proof.
  induction l as [|r l IH]; [done|].
  rewrite fmap_cons, !filter_cons.
  destruct (decide (in_cart_of_product c p r)) as [[Hc Hp]|Hn]; simpl.
  - rewrite !decide_True by done. rewrite !fmap_cons, IH. simpl.
    by rewrite decide_True.
  - destruct (decide (ci_cart_id r = Some c)) as [Hc|Hc]; [|done].
    rewrite !fmap_cons, IH. simpl.
    rewrite decide_False; [done|]. intros Hp. apply Hn. by split.
Qed.

Lemma lines_updated p q (l : list CartItem) :
  line_content
    <$> ((λ item, if decide (product_id item = p)
                  then with_quantity item q else item) <$> l)
  = (λ t, if decide (t.1 = Some p) then (t.1, q) else t)
      <$> (line_content <$> l).
Proof.
  induction l as [|item l IH]; [done|].
  rewrite !fmap_cons, IH. f_equal. simpl.
  destruct (decide (product_id item = p)) as [Hp|Hp].
  - by rewrite decide_True by congruence.
  - rewrite decide_False; [done|congruence].
Qed.

Lemma constraints_sublist sv (l : list CartItemDb) :
  constraints sv → sublist l (cart_items sv) →
  constraints (with_cart_items sv l).
Proof.
  intros [H1 H2 H3 H4] Hsub. split; simpl; [done|done| |].
  - eapply sublist_NoDup; [exact H3|]. by apply fmap_sublist.
  - intros r cid Hr. apply H4. eapply elem_of_sublist; [exact Hr|done].
Qed.

Lemma sync_remove_mirror net (u : Auth.User) p sv :
  online net → constraints sv →
  constraints (sync_remove net (Some u) p sv) ∧
  row_content <$> rows_of_user (Auth.user_id u) (sync_remove net (Some u) p sv)
  = filter (λ t, t.1 ≠ Some p)
           (row_content <$> rows_of_user (Auth.user_id u) sv).
Proof.
  intros (Hsel & _ & Hw) Hcon. unfold sync_remove, select_cart.
  rewrite Hsel. unfold rows_of_user at 2.
  destruct (cart_of (Auth.user_id u) sv) as [c|] eqn:Ec.
  - unfold delete_items. rewrite Hw. split.
    + apply constraints_sublist; [done|]. apply sublist_filter.
    + unfold rows_of_user.
      change (cart_of (Auth.user_id u) (with_cart_items sv ?l))
        with (cart_of (Auth.user_id u) sv).
      rewrite Ec. simpl. apply rows_deleted.
  - split; [done|]. unfold rows_of_user. by rewrite Ec.
Qed.

Lemma sync_update_mirror net (u : Auth.User) p q sv :
  online net → constraints sv →
  constraints (sync_update net (Some u) p q sv) ∧
  row_content
    <$> rows_of_user (Auth.user_id u) (sync_update net (Some u) p q sv)
  = (λ t, if decide (t.1 = Some p) then (t.1, q) else t)
      <$> (row_content <$> rows_of_user (Auth.user_id u) sv).
Proof.
  intros (Hsel & _ & Hw) Hcon. unfold sync_update, select_cart.
  rewrite Hsel. unfold rows_of_user at 2.
  destruct (cart_of (Auth.user_id u) sv) as [c|] eqn:Ec.
  - unfold update_items. rewrite Hw. split.
    + destruct Hcon as [H1 H2 H3 H4]. split; simpl; [done|done| |].
      * rewrite <- list_fmap_compose.
        erewrite list_fmap_ext; [exact H3|].
        intros i r _. simpl. by destruct (decide _).
      * intros r cid Hr Hcid.
        apply list_elem_of_fmap in Hr as (r0 & -> & Hr0).
        apply (H4 r0); [done|]. by destruct (decide _).
    + unfold rows_of_user.
      change (cart_of (Auth.user_id u) (with_cart_items sv ?l))
        with (cart_of (Auth.user_id u) sv).
      rewrite Ec. simpl. apply rows_updated.
  - split; [done|]. unfold rows_of_user. by rewrite Ec.
Qed.

Lemma sync_clear_mirror net (u : Auth.User) sv :
  online net → constraints sv →
  constraints (sync_clear net (Some u) sv) ∧
  rows_of_user (Auth.user_id u) (sync_clear net (Some u) sv) = [].
Proof.
  intros (Hsel & _ & Hw) Hcon. unfold sync_clear, select_cart.
  rewrite Hsel.
  destruct (cart_of (Auth.user_id u) sv) as [c|] eqn:Ec.
  - unfold delete_cart_items. rewrite Hw. split.
    + apply constraints_sublist; [done|]. apply sublist_filter.
    + unfold rows_of_user.
      change (cart_of (Auth.user_id u) (with_cart_items sv ?l))
        with (cart_of (Auth.user_id u) sv).
      rewrite Ec. simpl. rewrite list_filter_filter.
      induction (cart_items sv) as [|r l IH]; [done|].
      rewrite filter_cons_False; [done|tauto].
  - split; [done|]. unfold rows_of_user. by rewrite Ec.
Qed.

Lemma insert_item_rows net cid product q sv :
  write_ok net = true → (new_item_id net ∉ ci_id <$> cart_items sv) →
  constraints sv → cid ∈ sc_id <$> shopping_carts sv →
  constraints (insert_item net cid product q sv) ∧
  shopping_carts (insert_item net cid product q sv) = shopping_carts sv ∧
  filter (λ r, ci_cart_id r = Some cid)
         (cart_items (insert_item net cid product q sv))
  = filter (λ r, ci_cart_id r = Some cid) (cart_items sv)
      ++ [{| ci_id := new_item_id net; ci_cart_id := Some cid;
             ci_product_id := Some (prod_id product); ci_quantity := q |}].
Proof.
  intros Hw Hfresh [H1 H2 H3 H4] Hcid. unfold insert_item.
  rewrite Hw, bool_decide_eq_true_2 by done. simpl. split_and!.
  - split; simpl; [done|done| |].
    + rewrite fmap_app. apply NoDup_app. split_and!; [done| |].
      * intros x Hx. simpl. rewrite list_elem_of_singleton. by intros ->.
      * apply NoDup_singleton.
    + intros r c Hr Hc. apply elem_of_app in Hr as [Hr|Hr].
      * by apply (H4 r).
      * apply list_elem_of_singleton in Hr as ->. simpl in Hc. congruence.
  - done.
  - by rewrite filter_app, filter_cons_True.
Qed.

Lemma sync_add_mirror net (u : Auth.User) product q sv :
  online net → fresh_ids net sv → constraints sv →
  constraints (sync_add net (Some u) product q sv) ∧
  row_content
    <$> rows_of_user (Auth.user_id u) (sync_add net (Some u) product q sv)
  = (row_content <$> rows_of_user (Auth.user_id u) sv)
      ++ [(Some (prod_id product), q)].
Proof.
  intros (Hsel & Hins & Hw) [Hfc Hfi] Hcon. unfold sync_add, select_cart.
  rewrite Hsel. unfold rows_of_user at 2.
  destruct (cart_of (Auth.user_id u) sv) as [c|] eqn:Ec.
  - pose proof (cart_of_Some _ _ _ Ec) as [Hc Hu].
    destruct (insert_item_rows net (sc_id c) product q sv)
      as (Hcon' & Hcarts & Hrows); [done|done|done| |].
    { apply list_elem_of_fmap. by exists c. }
    split; [done|]. unfold rows_of_user.
    assert (cart_of (Auth.user_id u) (insert_item net (sc_id c) product q sv)
            = Some c) as ->.
    { unfold cart_of. rewrite Hcarts. exact Ec. }
    by rewrite Hrows, fmap_app.
  - pose proof (cart_of_None _ _ Hcon Ec) as Hnone.
    unfold insert_cart.
    rewrite Hins, !bool_decide_eq_true_2 by done. simpl.
    set (sv1 := {| shopping_carts := _; cart_items := cart_items sv |}).
    assert (constraints sv1) as Hcon1.
    { destruct Hcon as [H1 H2 H3 H4]. split; simpl; [| |done|].
      - rewrite fmap_app. apply NoDup_app. split_and!; [done| |].
        + intros x Hx. simpl. rewrite list_elem_of_singleton. by intros ->.
        + apply NoDup_singleton.
      - rewrite omap_app. apply NoDup_app. split_and!; [done| |].
        + intros x Hx. simpl. rewrite list_elem_of_singleton. intros ->.
          apply Hnone. apply list_elem_of_omap in Hx as (c & Hc & Hu).
          apply list_elem_of_fmap. by exists c.
        + apply NoDup_singleton.
      - intros r cid Hr Hcid. rewrite fmap_app. apply elem_of_app. left.
        by apply (H4 r). }
    destruct (insert_item_rows net (new_cart_id net) product q sv1)
      as (Hcon' & Hcarts & Hrows); [done|done|done| |].
    { simpl. rewrite fmap_app. apply elem_of_app. right. by left. }
    split; [done|]. unfold rows_of_user.
    assert (cart_of (Auth.user_id u)
              (insert_item net (new_cart_id net) product q sv1)
            = Some {| sc_id := new_cart_id net;
                      sc_user_id := Some (Auth.user_id u) |}) as ->.
    { unfold cart_of. rewrite Hcarts. by apply cart_of_new. }
    simpl. rewrite Hrows. simpl.
    assert (filter (λ r, ci_cart_id r = Some (new_cart_id net))
                   (cart_items sv) = []) as ->; [|done].
    destruct (filter _ (cart_items sv)) as [|r k] eqn:E; [done|].
    exfalso. apply Hfc.
    assert (r ∈ filter (λ r, ci_cart_id r = Some (new_cart_id net))
                       (cart_items sv)) as Hin by (rewrite E; by left).
    apply list_elem_of_filter in Hin as [Hr Hin].
    by apply (items_cart_fkey sv Hcon r).
Qed.

Lemma step_mirror net (u : Auth.User) a w :
  online net → fresh_ids net (server w) →
  constraints (server w) → mirrored (Auth.user_id u) w →
  constraints (server (CartSync.step net (Some u) w a)) ∧
  mirrored (Auth.user_id u) (CartSync.step net (Some u) w a).
Proof.
  intros Hon Hfresh Hcon Hmir. unfold mirrored in *.
  assert (∀ p,
    constraints (server (CartSync.removeItem net (Some u) p w)) ∧
    mirrored (Auth.user_id u) (CartSync.removeItem net (Some u) p w))
    as Hrem.
  { intros p.
    destruct (sync_remove_mirror net u p (server w)) as [Hc Hr]; [done..|].
    split; [exact Hc|]. unfold mirrored. etrans; [exact Hr|].
    rewrite Hmir. symmetry. apply lines_deleted. }
  assert (∀ p q,
    constraints (server (CartSync.updateQuantity net (Some u) p q w)) ∧
    mirrored (Auth.user_id u) (CartSync.updateQuantity net (Some u) p q w))
    as Hupd.
  { intros p q. unfold CartSync.updateQuantity.
    case_decide; [apply Hrem|].
    destruct (sync_update_mirror net u p q (server w)) as [Hc Hr]; [done..|].
    split; [exact Hc|]. unfold mirrored. etrans; [exact Hr|].
    rewrite Hmir. symmetry. apply lines_updated. }
  destruct a as [product q now|productId q|productId|]; simpl.
  - unfold CartSync.addItem. destruct (find_product _ _); [apply Hupd|].
    destruct (sync_add_mirror net u product q (server w)) as [Hc Hr];
      [done..|].
    split; [exact Hc|]. unfold mirrored. etrans; [exact Hr|].
    rewrite Hmir. symmetry. apply (fmap_app line_content).
  - apply Hupd.
  - apply Hrem.
  - destruct (sync_clear_mirror net u (server w)) as [Hc Hr]; [done..|].
    split; [exact Hc|]. unfold mirrored.
    etrans; [exact (f_equal (fmap row_content) Hr)|done].
Qed.

(** X7.  While every request of a signed-in user is carried out, the mirror
    stays exact: if the rows of the user's cart list the products and
    quantities of the local lines in order, they still do after any sequence
    of actions, and the keys and the foreign key of the two tables hold. *)
Theorem mirror_preserved
  (u : Auth.User) (steps : list (Net * Action)) (w : World)
  (Hcon : constraints (server w))
  (Hmir : mirrored (Auth.user_id u) w)
  (Hok : carried_out (Some u) steps w) :
  constraints (server (CartSync.run (Some u) steps w)) ∧
  mirrored (Auth.user_id u) (CartSync.run (Some u) steps w).
Proof.
  revert w Hcon Hmir Hok.
  induction steps as [|[net a] steps IH]; intros w Hcon Hmir Hok; [done|].
  destruct Hok as (Hon & Hfresh & Hok). simpl in *.
  destruct (step_mirror net u a w) as [Hcon' Hmir']; [done..|].
  by apply IH.
Qed.

Lemma constraints_empty : constraints (server world_empty).
Proof.
  split; simpl; [apply NoDup_nil_2..|]. intros r cid Hr.
  by apply elem_of_nil in Hr.
Qed.

Lemma carried_out_session :
  carried_out (Some Auth.alice) session_steps world_empty.
Proof.
  simpl. unfold online, fresh_ids.
  repeat split; try reflexivity;
    apply (bool_decide_unpack _); vm_compute; exact I.
Qed.

Lemma mirror_preserved_witness :
  constraints (server (CartSync.run (Some Auth.alice) session_steps
                                    world_empty)) ∧
  mirrored (Auth.user_id Auth.alice)
           (CartSync.run (Some Auth.alice) session_steps world_empty).
Proof.
  apply mirror_preserved.
  - apply constraints_empty.
  - reflexivity.
  - apply carried_out_session.
Defined.

(** *** Reloading a mirrored cart *)

Lemma reported_content (stored : list CartItemDb) (rows : list CartItemRow)
  (lines : list CartItem) :
  Forall2 reported stored rows → Forall2 line_reflects_row rows lines →
  line_content <$> lines = row_content <$> stored.
Proof.
  intros H. revert lines.
  induction H as [|r row stored rows Hr _ IH]; intros lines Hl.
  - by apply Forall2_nil_inv_l in Hl as ->.
  - apply Forall2_cons_inv_l in Hl as (line & lines' & Hline & Hl & ->).
    rewrite !fmap_cons, (IH _ Hl). f_equal.
    destruct Hr as (_ & Hp & Hq & _).
    destruct Hline as (_ & Hp' & _ & Hq' & _).
    unfold line_content, row_content. by rewrite Hp, Hp', Hq', Hq.
Qed.

(** X8.  Reloading a mirrored cart changes no product and no quantity: when
    the rows of the user's cart list the local lines and the server reports
    them (in any order, every product visible), the lines after [loadCart]
    carry the same products with the same quantities. *)
Theorem loadCart_of_mirror
  (uid : string) (w : World) (response : CartResponse)
  (Hmir : mirrored uid w)
  (Hrep : reports uid (server w) response) :
  line_content <$> items (loadCart true response (local w))
  ≡ₚ line_content <$> items (local w).
Proof.
  unfold reports in Hrep. unfold mirrored in Hmir.
  destruct (cart_of uid (server w)) as [c|] eqn:Ec.
  - destruct Hrep as (stored & rows & Hperm & Hrows & ->).
    destruct (CartFacts.loadCart_try_rows
                {| cart_id := sc_id c; Cart.cart_items := Some rows |} rows)
      as (lines & Htry & Hlines); [done| |].
    { intros r Hr. apply list_elem_of_lookup in Hr as [i Hi].
      destruct (Forall2_lookup_r _ _ _ _ _ Hrows Hi) as (x & _ & Hx).
      by destruct Hx as (_ & _ & _ & ?). }
    unfold loadCart. cbn [negb]. cbv zeta. rewrite Htry.
    assert (items (set_isLoading
                     (set_items (set_isLoading (local w) true) lines) false)
            = lines) as -> by done.
    rewrite (reported_content _ _ _ Hrows Hlines), <- Hmir.
    by apply fmap_Permutation.
  - subst response. done.
Qed.

Lemma loadCart_of_mirror_witness :
  line_content
    <$> items (loadCart true session_response
                 (local (CartSync.run (Some Auth.alice) session_steps
                                      world_empty)))
  ≡ₚ line_content
       <$> items (local (CartSync.run (Some Auth.alice) session_steps
                                      world_empty)).
Proof.
  apply (loadCart_of_mirror (Auth.user_id Auth.alice)).
  - reflexivity.
  - unfold reports. simpl. eexists _, _. split_and!; [reflexivity| |done].
    repeat constructor. by eexists.
Defined.

End CartSyncFacts.
(** ** Counting interactions *)

Module TrackingFacts.
Import Analytics AnalyticsFacts Tracking.

Lemma int4_add_zero_inv (a z : option Z) :
  int4_add a (Some 0) = Ok z → z = a.
Proof.
  destruct a as [x|]; simpl; [|by intros [= <-]].
  case_decide; [|done]. intros [= <-]. by rewrite Z.add_0_r.
Qed.

Lemma case_metric_other (mname : string) (m' : metric) (k : option Z) :
  metric_name m' ≠ mname →
  case_metric (Some mname) (metric_name m') k = Some 0.
Proof.
  intros Hne. unfold case_metric. rewrite decide_False; [done|congruence].
Qed.

(** [DO UPDATE] for the metric [mname] keeps every other counter, and the
    key of the row. *)
Lemma do_update_other (mname : string) (k : option Z) (r r' : AnalyticsRow) :
  do_update (Some mname) k r = Ok r' →
  product_id r' = product_id r ∧ date r' = date r ∧
  ∀ m', metric_name m' ≠ mname → counter m' r' = counter m' r.
Proof.
  unfold do_update. name_columns. intros H.
  destruct (int4_add (views r) _) as [v|] eqn:Ev; [|done].
  destruct (int4_add (likes r) _) as [l|] eqn:El; [|done].
  destruct (int4_add (saves r) _) as [s|] eqn:Es; [|done].
  destruct (int4_add (shares r) _) as [h|] eqn:Eh; [|done].
  destruct (int4_add (cart_adds r) _) as [c|] eqn:Ec; [|done].
  destruct (int4_add (purchases r) _) as [u|] eqn:Eu; [|done].
  simpl in H. injection H as <-. simpl. split_and!; [done|done|].
  intros m' Hm'.
  destruct m'; simpl;
    rewrite (case_metric_other mname _ k Hm') in *;
    by eapply int4_add_zero_inv.
Qed.

Lemma list_find_insert_same {A} (P : A → Prop) `{!∀ x, Decision (P x)}
  (t : list A) (i : nat) (r r' : A) :
  t !! i = Some r → (P r ↔ P r') →
  list_find P (<[i := r']> t)
  = (λ jx, (jx.1, if decide (jx.1 = i) then r' else jx.2)) <$> list_find P t.
Proof.
  revert i. induction t as [|x t IH]; intros i Hi HP; [done|].
  destruct i as [|i]; simpl in *.
  - injection Hi as ->.
    destruct (decide (P r')) as [Hr'|Hr'];
      destruct (decide (P r)) as [Hr|Hr]; [done|tauto|tauto|].
    destruct (list_find P t) as [[j y]|]; simpl; [|done].
    destruct (decide (S j = 0%nat)); [lia|done].
  - destruct (decide (P x)); [done|].
    rewrite (IH i Hi HP).
    destruct (list_find P t) as [[j y]|]; simpl; [|done].
    f_equal. f_equal.
    destruct (decide (j = i)); destruct (decide (S j = S i)); [done|lia..|done].
Qed.

Lemma count_insert (m : metric) (p : uuid) (d : Z) (db : Database)
  (i : nat) (r r' : AnalyticsRow) :
  product_analytics db !! i = Some r →
  product_id r' = product_id r → date r' = date r →
  counter m r' = counter m r →
  count m p d (with_analytics db (<[i := r']> (product_analytics db)))
  = count m p d db.
Proof.
  intros Hi Hp Hd Hm. unfold count, row_for, conflicting_row. simpl.
  rewrite (list_find_insert_same _ _ i r r' Hi).
  - destruct (list_find _ (product_analytics db)) as [[j x]|] eqn:E;
      simpl; [|done].
    destruct (decide (j = i)) as [->|Hne]; [|done].
    apply list_find_Some in E as (Hx & _). simplify_eq. by rewrite Hm.
  - unfold conflicts. by rewrite Hp, Hd.
Qed.

Lemma count_insert_elsewhere (m : metric) (p : uuid) (d : Z) (db : Database)
  (i : nat) (r r' : AnalyticsRow) :
  product_analytics db !! i = Some r →
  product_id r' = product_id r → date r' = date r →
  ¬ conflicts (Some p) d r →
  count m p d (with_analytics db (<[i := r']> (product_analytics db)))
  = count m p d db.
Proof.
  intros Hi Hp Hd Hn. unfold count, row_for, conflicting_row. simpl.
  rewrite (list_find_insert_same _ _ i r r' Hi).
  - destruct (list_find _ (product_analytics db)) as [[j x]|] eqn:E;
      simpl; [|done].
    destruct (decide (j = i)) as [->|Hne]; [|done].
    apply list_find_Some in E as (Hx & Hc & _). by simplify_eq.
  - unfold conflicts. by rewrite Hp, Hd.
Qed.

Lemma count_snoc (m : metric) (p : uuid) (d : Z) (db : Database)
  (r : AnalyticsRow) :
  (conflicts (Some p) d r → counter m r = Some 0 ∧
     row_for p d (product_analytics db) = None) →
  count m p d (with_analytics db (product_analytics db ++ [r]))
  = count m p d db.
Proof.
  intros Hr. unfold count, row_for, conflicting_row in *. simpl.
  destruct (list_find _ (product_analytics db)) as [[j x]|] eqn:E.
  - by erewrite list_find_app_l.
  - rewrite list_find_app_r by done. simpl.
    destruct (decide (conflicts (Some p) d r)) as [Hc|Hc]; [|done].
    simpl. by destruct (Hr Hc) as [-> _].
Qed.

(** X9.  A call of [trackProductInteraction] changes one number only: the
    count of any other metric, any other product or any other day is as
    before, whatever the metric name and whether or not the call succeeds. *)
Theorem track_changes_one_count
  (ses : Session) (p : uuid) (mname : string) (db : Database)
  (m' : metric) (p' : uuid) (d' : Z)
  (Hother : metric_name m' ≠ mname ∨ p' ≠ p ∨ d' ≠ CURRENT_DATE ses) :
  count m' p' d' (trackProductInteraction ses p mname db) = count m' p' d' db.
Proof.
  unfold trackProductInteraction, update_product_analytics.
  destruct (conflicting_row (Some p) (CURRENT_DATE ses) (product_analytics db))
    as [[i r]|] eqn:E.
  - destruct (do_update (Some mname) (Some 1) r) as [r'|] eqn:Eu; [|done].
    simpl. apply do_update_other in Eu as (Hp & Hd & Hm).
    apply list_find_Some in E as (Hi & (_ & Hrp & Hrd) & _).
    destruct (decide (metric_name m' = mname)) as [Heq|Hne].
    + apply (count_insert_elsewhere m' p' d' db i r r'); [done..|].
      intros (_ & Hp' & Hd'). rewrite Hrp in Hp'. destruct Hother as [?|[?|?]];
        [done|congruence|congruence].
    + apply (count_insert m' p' d' db i r r'); [done..|]. by apply Hm.
  - case_decide; [|done]. simpl. apply count_snoc.
    intros (_ & Hp' & Hd'). simpl in Hp', Hd'. injection Hp' as <-.
    subst d'. split.
    + destruct Hother as [Hm|[?|?]]; [|done..].
      destruct m'; simpl in *; unfold case_metric;
        (rewrite decide_False; [done|congruence]).
    + unfold row_for. by rewrite E.
Qed.

Lemma track_changes_one_count_witness :
  count Likes "p" 20269
        (trackProductInteraction today "p" "views" db_some)
  = count Likes "p" 20269 db_some.
Proof.
  apply track_changes_one_count. left. discriminate.
Defined.

(** One call on a counted product: the count goes up by one and the state
    stays one in which the next call does the same. *)
Lemma track_count (ses : Session) (p : uuid) (m : metric) (db : Database) :
  p ∈ products db → well_typed db →
  unique_product_date (product_analytics db) →
  counted m p (CURRENT_DATE ses) db →
  count m p (CURRENT_DATE ses) db + 1 ≤ int4_max →
  let db' := trackProductInteraction ses p (metric_name m) db in
  count m p (CURRENT_DATE ses) db' = count m p (CURRENT_DATE ses) db + 1 ∧
  products db' = products db ∧ well_typed db' ∧
  unique_product_date (product_analytics db') ∧
  counted m p (CURRENT_DATE ses) db'.
Proof.
  intros Hp Hwt Huniq Hcounted Hfit. cbv zeta.
  assert (int4 1) as H1 by (unfold int4, int4_min, int4_max; lia).
  unfold trackProductInteraction, count, counted in *.
  destruct (row_for p (CURRENT_DATE ses) (product_analytics db))
    as [r|] eqn:Hrow.
  - destruct (Hcounted r eq_refl) as [v Hv]. rewrite Hv in Hfit.
    simpl in Hfit.
    destruct (row_for_Some _ _ _ _ Hrow) as (i & Hfind & Hi & _).
    assert (int4 v) as Hiv.
    { eapply (Hwt r); [|exact Hv]. by eapply list_elem_of_lookup_2. }
    assert (int4 (v + 1)) as Hfit'.
    { unfold int4, int4_min, int4_max in *. lia. }
    destruct (update_adds ses p m 1 db r v Hwt Hrow Hv Hfit')
      as (j & r' & Hj & Hcall & Hm & _ & (_ & Hp' & Hd' & _)).
    pose proof (update_product_analytics_invariant ses p m 1 db _
                  H1 Hwt Huniq Hcall) as (Hwt' & Huniq' & Hprod).
    rewrite Hcall.
    assert (row_for p (CURRENT_DATE ses)
              (product_analytics
                 (with_analytics db (<[j := r']> (product_analytics db))))
            = Some r') as Hrow'.
    { unfold row_for. simpl.
      assert (j = i) as ->.
      { apply (Huniq j i r r); try done.
        apply list_find_Some in Hfind as (_ & (? & ? & _) & _).
        congruence. }
      by rewrite (conflicting_row_insert p _ _ i r r' Hfind Hp' Hd'). }
    rewrite Hrow', Hm, Hv. simpl. split_and!; try done.
    intros x [= <-]. by rewrite Hm.
  - clear Hfit.
    pose proof (update_inserts ses p m 1 db Hrow Hp) as Hcall.
    pose proof (update_product_analytics_invariant ses p m 1 db _
                  H1 Hwt Huniq Hcall) as (Hwt' & Huniq' & Hprod).
    rewrite Hcall.
    destruct (proposed_row_counters ses p m 1) as (Hp' & Hd' & Hm & _).
    assert (row_for p (CURRENT_DATE ses)
              (product_analytics
                 (with_analytics db
                    (product_analytics db
                       ++ [proposed_row ses (Some p) (Some (metric_name m))
                                        (Some 1)])))
            = Some (proposed_row ses (Some p) (Some (metric_name m))
                                 (Some 1))) as Hrow'.
    { unfold row_for. simpl.
      by rewrite (conflicting_row_snoc p _ _ _ (row_for_None _ _ _ Hrow)
                    Hp' Hd'). }
    rewrite Hrow', Hm. simpl. split_and!; try done.
    intros x [= <-]. by rewrite Hm.
Qed.

(** X10.  Interactions of one day add up: after [n] calls for metric [m] of
    a product of the catalogue whose counter is not NULL, in a table with one
    row per product and day, the count of the day is [n] higher, as long as
    it stays an [integer]. *)
Theorem track_all_count
  (sessions : list Session) (p : uuid) (m : metric) (d : Z) (db : Database)
  (Hday : Forall (λ ses, CURRENT_DATE ses = d) sessions)
  (Hp : p ∈ products db)
  (Hwt : well_typed db)
  (Huniq : unique_product_date (product_analytics db))
  (Hcounted : counted m p d db)
  (Hfit : count m p d db + Z.of_nat (length sessions) ≤ int4_max) :
  count m p d (track_all sessions p (metric_name m) db)
  = count m p d db + Z.of_nat (length sessions).
Proof.
  revert db Hp Hwt Huniq Hcounted Hfit.
  induction Hday as [|ses sessions Hd _ IH]; intros db Hp Hwt Huniq Hc Hfit.
  - simpl. lia.
  - subst d. simpl.
    destruct (track_count ses p m db) as (Hn & Hprod & Hwt' & Huniq' & Hc');
      [done..|simpl length in Hfit; lia|].
    rewrite IH; [|by rewrite Hprod|done|done|done|].
    + rewrite Hn. simpl length. lia.
    + rewrite Hn. simpl length in Hfit. lia.
Qed.

Lemma unique_db_some : unique_product_date (product_analytics db_some).
Proof.
  intros i j r1 r2 Hi Hj _ _ _.
  apply list_lookup_singleton_Some in Hi as [-> _].
  by apply list_lookup_singleton_Some in Hj as [-> _].
Qed.

Lemma counted_db_some m : counted m "p" 20269 db_some.
Proof. intros r [= <-]. destruct m; by eexists. Qed.

Lemma track_all_count_witness :
  count Views "p" 20269 (track_all three_sessions "p" "views" db_some) = 44.
Proof.
  apply (track_all_count three_sessions "p" Views 20269 db_some).
  - by repeat constructor.
  - by left.
  - apply well_typed_db_some.
  - apply unique_db_some.
  - apply counted_db_some.
  - vm_compute. discriminate.
Defined.

End TrackingFacts.

(** ** The pages that add to the cart *)

Module PagesFacts.
Import Cart CartSync Analytics Tracking Pages.

(** X11.  When the analytics calls reach the procedure on one day, for a
    product of the catalogue whose [cart_adds] counter is not NULL and has
    room for two more: a product put into the cart from the feed is counted
    twice in [cart_adds], from the search page or the wishlist once; a
    further unit of a product already in the cart is counted once from the
    feed and not at all from the other pages. *)
Theorem cart_adds_counted
  (net net2 : Net) (user : option Auth.User) (product : Product) (now d : Z)
  (w : World)
  (Hrpc : rpc_ok net = true) (Hrpc2 : rpc_ok net2 = true)
  (Hday : CURRENT_DATE (rpc_session net) = d)
  (Hday2 : CURRENT_DATE (rpc_session net2) = d)
  (Hp : prod_id product ∈ products (analytics w))
  (Hwt : well_typed (analytics w))
  (Huniq : unique_product_date (product_analytics (analytics w)))
  (Hcounted : counted CartAdds (prod_id product) d (analytics w))
  (Hfit : count CartAdds (prod_id product) d (analytics w) + 2 ≤ int4_max) :
  let cart_adds_of w' := count CartAdds (prod_id product) d (analytics w') in
  let feed := feed_handleAddToCart net net2 user product now w in
  let search := search_handleAddToCart net user product now w in
  match find_product (prod_id product) (items (local w)) with
  | None =>
      cart_adds_of feed = cart_adds_of w + 2 ∧
      cart_adds_of search = cart_adds_of w + 1
  | Some _ =>
      cart_adds_of feed = cart_adds_of w + 1 ∧
      cart_adds_of search = cart_adds_of w
  end.
Proof.
  cbv zeta. subst d.
  unfold feed_handleAddToCart, search_handleAddToCart, CartSync.addItem.
  destruct (find_product _ _) as [existing|]; cbv zeta.
  - assert (analytics (CartSync.updateQuantity net user (prod_id product)
                         (quantity existing + 1) w) = analytics w) as ->.
    { unfold CartSync.updateQuantity. by case_decide. }
    split; [|done]. simpl. unfold track. rewrite Hrpc2, <- Hday2 in *.
    change "cart_adds" with (metric_name CartAdds).
    destruct (TrackingFacts.track_count (rpc_session net2) (prod_id product)
                CartAdds (analytics w)) as [-> _]; [done..|lia|done].
  - simpl. unfold track. rewrite Hrpc, Hrpc2.
    change "cart_adds" with (metric_name CartAdds).
    destruct (TrackingFacts.track_count (rpc_session net) (prod_id product)
                CartAdds (analytics w))
      as (Hn & Hprod & Hwt' & Huniq' & Hc'); [done..|lia|].
    split; [|done]. rewrite <- Hday2 in *.
    destruct (TrackingFacts.track_count (rpc_session net2) (prod_id product)
                CartAdds
                (trackProductInteraction (rpc_session net) (prod_id product)
                   (metric_name CartAdds) (analytics w))) as [-> _];
      [by rewrite Hprod|done|done|done|lia|lia].
Qed.

Lemma cart_adds_counted_witness :
  count CartAdds "p" 20269
        (analytics (feed_handleAddToCart (net_ok "c-1" "i-1") net_later None
                      product_p 1751241600000 world_some)) = 3 ∧
  count CartAdds "p" 20269
        (analytics (search_handleAddToCart (net_ok "c-1" "i-1") None
                      product_p 1751241600000 world_some)) = 2.
Proof.
  apply (cart_adds_counted (net_ok "c-1" "i-1") net_later None product_p
           1751241600000 20269 world_some); try reflexivity.
  - by left.
  - apply AnalyticsFacts.well_typed_db_some.
  - apply TrackingFacts.unique_db_some.
  - apply TrackingFacts.counted_db_some.
  - vm_compute. discriminate.
Defined.

End PagesFacts.
(** ** The auth store *)

Module AuthStoreFacts.
Import Auth AuthStore.

(** [checkAdminStatus] of a signed-in user, as the other actions use it. *)
Lemma checkAdminStatus_awaited (r : ProfileResponse) (s : AuthState) :
  ∃ s', awaited (checkAdminStatus r s) = Some s' ∧
        user s' = user s ∧ isLoading s' = isLoading s ∧
        (is_Some (user s) → (isAdmin s' = true ↔ says_admin r)) ∧
        (user s = None → s' = s).
Proof.
  unfold checkAdminStatus, says_admin.
  destruct (user s) as [u|] eqn:Hu.
  - destruct r as [reason|data [e|]]; simpl.
    + eexists. split_and!; [done..| |done]. intros _. simpl.
      split; [done|]. by intros (row & ? & _).
    + eexists. split_and!; [done..| |done]. intros _. simpl.
      split; [done|]. by intros (row & ? & _).
    + eexists. split_and!; [done..| |done]. intros _. simpl.
      destruct data as [[[[]|]]|]; simpl; split; try done.
      * intros _. by eexists.
      * by intros (row & [= <-] & ?).
      * by intros (row & [= <-] & ?).
      * by intros (row & ? & _).
  - exists s. by split_and!.
Qed.

(** X12.  In every state the store reaches after [initialize], by actions
    that do not overlap, the admin flag is set only while a user is signed in,
    and the store is no longer loading. *)
Theorem admin_flag_needs_user
  (g : GetUserResponse) (r : ProfileResponse) (actions : list Action)
  (Hlater : Forall after_start actions) :
  let s := run actions (initialize g r init) in
  (isAdmin s = true → is_Some (user s)) ∧ isLoading s = false.
Proof.
  cbv zeta.
  assert ((isAdmin (initialize g r init) = true
           → is_Some (user (initialize g r init))) ∧
          isLoading (initialize g r init) = false) as Hstart.
  { unfold initialize. destruct g as [|[u|]]; simpl; [done| |done].
    destruct (checkAdminStatus_awaited r
                {| user := Some u; isLoading := false; isAdmin := false |})
      as (s' & -> & Hu & Hl & _). rewrite Hu, Hl. by split; [eexists|]. }
  revert Hstart. generalize (initialize g r init).
  induction Hlater as [|a actions Ha _ IH]; intros s [Hadm Hload]; [done|].
  simpl. apply IH. clear IH.
  destruct a as [| [u|] r' | [|[u|] [e|]] r' | [|[u|] [e|]] | [] | r'];
    simpl; try done.
  - destruct (checkAdminStatus_awaited r' (set_user s (Some u)))
      as (s' & -> & Hu & Hl & _). simpl. rewrite Hu, Hl.
    by split; [eexists|].
  - destruct (checkAdminStatus_awaited r' (set_user s (Some u)))
      as (s' & -> & Hu & Hl & _). simpl. rewrite Hu, Hl.
    by split; [eexists|].
  - destruct (checkAdminStatus_awaited r' s) as (s' & -> & Hu & Hl & _ & Hn).
    simpl. rewrite Hu, Hl. split; [|done]. intros Hs'.
    destruct (user s) as [u|] eqn:E; [by eexists|].
    rewrite (Hn eq_refl) in Hs'. by apply Hadm.
Qed.

Lemma admin_flag_needs_user_witness :
  let s := run a_session
               (initialize (GetUserResolved None) (QueryResolved None None)
                           init) in
  (isAdmin s = true → is_Some (user s)) ∧ isLoading s = false.
Proof.
  apply admin_flag_needs_user. by repeat constructor.
Defined.

(** X13.  [signIn] returns the error of the response.  With an error, or
    without a user in the response, the store is unchanged; otherwise the user
    of the response is signed in and the admin flag is what the profile query
    says, whatever it was before.  [signIn] never throws unless the request
    itself rejects. *)
Theorem signIn_spec
  (data_user : option User) (error : option string) (r : ProfileResponse)
  (s : AuthState) :
  let e := signIn (AuthResolved data_user error) r s in
  returned e = Some error ∧
  isLoading (state e) = isLoading s ∧
  match error, data_user with
  | None, Some u =>
      user (state e) = Some u ∧ (isAdmin (state e) = true ↔ says_admin r)
  | _, _ => state e = s
  end.
Proof.
  cbv zeta. unfold signIn.
  destruct data_user as [u|], error as [e|]; try done.
  destruct (checkAdminStatus_awaited r (set_user s (Some u)))
    as (s' & -> & Hu & Hl & Ha & _). simpl.
  split_and!; [done|done|done|]. apply Ha. by eexists.
Qed.

End AuthStoreFacts.
(** ** Uploads, deletion and media records *)

Module StorageBatchFacts.
Import ImageUtils Storage StorageBatch StorageFacts.

(** The two ways an upload ends. *)
Lemma upload_outcome (env : Env) (file : File) (productId : string)
  (index : Z) (objects : Bucket) :
  let o := uploadProductImage env file productId index objects in
  (error (result o) = None ∧
   path (result o)
   = data_path env ("products/" +:+ productId +:+ "-" +:+ pretty index
                      +:+ "-" +:+ pretty (date_now env) +:+ ".jpg") ∧
   url (result o) = public_url env (path (result o)) ∧
   (path (result o) ∉ objects.*1) ∧
   ∃ blob, objects_after o = objects ++ [(path (result o), blob)]) ∨
  (is_Some (error (result o)) ∧ url (result o) = "" ∧ path (result o) = "" ∧
   objects_after o = objects).
Proof.
  cbv zeta. unfold uploadProductImage. cbv zeta.
  destruct (validators_error_message file) as [Hv Hi].
  destruct (valid (validateFileUpload file)); simpl.
  2: { right. split_and!; try done; by eexists. }
  destruct (isValid (validateImageFile file)); simpl.
  2: { right. split_and!; try done; by apply Hi. }
  destruct (resizeImage _ _ _ _ _) as [blob|msg].
  2: { right. split_and!; try done; by eexists. }
  unfold storage_upload. destruct (service_error env) as [msg|].
  { right. split_and!; try done; by eexists. }
  case_bool_decide as Hin.
  { right. split_and!; try done; by eexists. }
  left. simpl. split_and!; try done; by exists blob.
Qed.

(** An upload that succeeds asks for the public URL of the path it
    returns. *)
Lemma upload_asks_public_url (env : Env) (file : File) (productId : string)
  (index : Z) (objects : Bucket) :
  let o := uploadProductImage env file productId index objects in
  error (result o) = None →
  CallGetPublicUrl STORAGE_BUCKET (path (result o)) ∈ effects o.
Proof.
  cbv zeta. unfold uploadProductImage. cbv zeta.
  destruct (validators_error_message file) as [Hv Hi].
  destruct (valid (validateFileUpload file)); simpl; [|done].
  destruct (isValid (validateImageFile file)); simpl.
  2: { intros He. destruct Hi as [msg Hmsg]; [done|]. congruence. }
  destruct (resizeImage _ _ _ _ _) as [blob|msg]; [|done].
  unfold storage_upload. destruct (service_error env) as [msg|]; [done|].
  case_bool_decide as Hin; [done|]. intros _. simpl.
  rewrite ?elem_of_app, !elem_of_cons. tauto.
Qed.

(** X14.  [uploadProductImage] only ever adds to the bucket.  When it
    reports no error it has stored exactly one new object, under the path
    that the storage client reports ([data.path]) for the upload it sent
    under [products/<productId>-<index>-<Date.now()>.jpg], a path that held
    nothing before, and returns that reported path with its public URL; the
    last effect but one is the [getPublicUrl] call for that path.  When it
    reports an error the bucket is as before and [url] and [path] are
    empty. *)
Theorem uploadProductImage_outcome
  (env : Env) (file : File) (productId : string) (index : Z)
  (objects : Bucket) :
  let o := uploadProductImage env file productId index objects in
  match error (result o) with
  | None =>
      path (result o)
      = data_path env ("products/" +:+ productId +:+ "-" +:+ pretty index
                         +:+ "-" +:+ pretty (date_now env) +:+ ".jpg") ∧
      url (result o) = public_url env (path (result o)) ∧
      (path (result o) ∉ objects.*1) ∧
      (∃ blob, objects_after o = objects ++ [(path (result o), blob)]) ∧
      CallGetPublicUrl STORAGE_BUCKET (path (result o)) ∈ effects o
  | Some _ =>
      url (result o) = "" ∧ path (result o) = "" ∧ objects_after o = objects
  end.
Proof.
  cbv zeta.
  pose proof (upload_asks_public_url env file productId index objects) as Hurl.
  destruct (upload_outcome env file productId index objects)
    as [(He & H)|([msg ->] & H)]; [|exact H].
  rewrite He. destruct H as (H1 & H2 & H3 & H4). split_and!; try done.
  by apply Hurl.
Qed.

Lemma uploadProductImages_from_spec (uploads : list (Env * File))
  (productId : string) (i : Z) (objects : Bucket) :
  let r := uploadProductImages_from i uploads productId objects in
  length r.1 = length uploads ∧
  (∃ new, r.2 = objects ++ new ∧
          new.*1 = path <$> filter (λ x, error x = None) r.1) ∧
  (NoDup objects.*1 → NoDup r.2.*1) ∧
  (∀ k env file, uploads !! k = Some (env, file) →
     ∃ objects_k,
       r.1 !! k = Some (result (uploadProductImage env file productId
                                  (i + Z.of_nat k) objects_k))).
Proof.
  cbv zeta. revert i objects.
  induction uploads as [|[env file] rest IH]; intros i objects.
  - simpl. split_and!; [done| |done|done]. exists []. by rewrite app_nil_r.
  - simpl.
    destruct (IH (i + 1)
                (objects_after (uploadProductImage env file productId i
                                                   objects)))
      as (Hlen & (new & Hnew & Hpaths) & Hnodup & Hk).
    destruct (uploadProductImages_from (i + 1) rest productId _)
      as [results objects'] eqn:E.
    simpl in *. split_and!.
    + by rewrite Hlen.
    + destruct (upload_outcome env file productId i objects)
        as [(He & _ & _ & _ & blob & Ho)|([msg He] & _ & _ & Ho)].
      * rewrite Ho in Hnew. rewrite filter_cons_True by done.
        eexists (_ :: new). split.
        -- rewrite Hnew. by rewrite <- app_assoc.
        -- by rewrite !fmap_cons, Hpaths.
      * rewrite Ho in Hnew. rewrite filter_cons_False by (by rewrite He).
        by exists new.
    + intros Hnd. apply Hnodup.
      destruct (upload_outcome env file productId i objects)
        as [(He & _ & _ & Hfresh & blob & Ho)|([msg He] & _ & _ & Ho)];
        rewrite Ho; [|done].
      rewrite fmap_app. apply NoDup_app. split_and!; [done| |].
      * intros x Hx. simpl. rewrite list_elem_of_singleton. by intros ->.
      * apply NoDup_singleton.
    + intros [|k] env' file' Hlook; simpl in Hlook.
      * injection Hlook as -> ->. exists objects. simpl.
        by rewrite Z.add_0_r.
      * destruct (Hk k env' file' Hlook) as (objects_k & Hres).
        exists objects_k.
        replace (i + Z.of_nat (S k)) with (i + 1 + Z.of_nat k) by lia.
        exact Hres.
Qed.

(** X15.  [uploadProductImages] returns one result per file, the [k]-th being
    that of [uploadProductImage] called with index [k]: a file that fails
    does not stop the batch.  The bucket afterwards is the bucket before
    followed by one object for each result without error, in order, under the
    path of that result; paths that were distinct stay distinct. *)
Theorem uploadProductImages_spec
  (uploads : list (Env * File)) (productId : string) (objects : Bucket) :
  let r := uploadProductImages uploads productId objects in
  length r.1 = length uploads ∧
  (∃ new, r.2 = objects ++ new ∧
          new.*1 = path <$> filter (λ x, error x = None) r.1) ∧
  (NoDup objects.*1 → NoDup r.2.*1) ∧
  (∀ k env file, uploads !! k = Some (env, file) →
     ∃ objects_k,
       r.1 !! k = Some (result (uploadProductImage env file productId
                                  (Z.of_nat k) objects_k))).
Proof.
  exact (uploadProductImages_from_spec uploads productId 0 objects).
Qed.

(** X16.  Deleting the path an upload returned undoes the upload: the bucket
    is again the one before the upload.  A delete that fails returns [false]
    and changes nothing. *)
Theorem upload_then_delete
  (env : Env) (file : File) (productId : string) (index : Z)
  (objects : Bucket)
  (Hok : error (result (uploadProductImage env file productId index objects))
         = None) :
  let o := uploadProductImage env file productId index objects in
  deleteProductImage false (path (result o)) (objects_after o)
  = (true, objects) ∧
  deleteProductImage true (path (result o)) (objects_after o)
  = (false, objects_after o).
Proof.
  cbv zeta. split; [|done].
  destruct (upload_outcome env file productId index objects)
    as [(_ & _ & _ & Hfresh & blob & Ho)|([msg He] & _)]; [|congruence].
  rewrite Ho. clear Ho Hok. revert Hfresh.
  generalize (path (result (uploadProductImage env file productId index
                                               objects))).
  intros p Hfresh. unfold deleteProductImage. f_equal.
  rewrite filter_app, filter_cons_False, filter_nil, app_nil_r
    by (simpl; tauto).
  induction objects as [|ob objects IH]; [done|].
  rewrite fmap_cons, not_elem_of_cons in Hfresh. destruct Hfresh as [H1 H2].
  rewrite filter_cons_True by done. by rewrite IH.
Qed.

Lemma upload_then_delete_witness :
  let o := uploadProductImage upload_env jpeg_1MB "p" 0 [] in
  deleteProductImage false (path (result o)) (objects_after o) = (true, []) ∧
  deleteProductImage true (path (result o)) (objects_after o)
  = (false, objects_after o).
Proof.
  apply (upload_then_delete upload_env jpeg_1MB "p" 0 []).
  by vm_compute.
Defined.

End StorageBatchFacts.

Module AdminProductsFacts.
Import ImageUtils Storage StorageBatch AdminProducts.

Lemma media_records_saved (be : Backend) (productId name : string)
  (results : list UploadResult) (i : Z) (table : list MediaRecord)
  (objects : Bucket) :
  let o := media_records be productId name i results table objects in
  ∃ new, saved o = table ++ new ∧
         length new = length (mediaInserts o) ∧
         (∀ rec, rec ∈ new →
            i ≤ display_order rec < i + Z.of_nat (length results) ∧
            is_primary rec = bool_decide (display_order rec = 0)) ∧
         ((∃ rec, rec ∈ new ∧ display_order rec = i) ↔
          ∃ r rest, results = r :: rest ∧ skipped r = false ∧
                    insert_reply be i = Inserted).
Proof.
  cbv zeta. revert i table.
  induction results as [|r rest IH]; intros i table.
  - simpl. exists []. rewrite app_nil_r. split_and!; [done|done| |].
    + intros rec Hrec. by apply elem_of_nil in Hrec.
    + split; [intros (rec & Hrec & _); by apply elem_of_nil in Hrec|].
      by intros (? & ? & ? & _).
  - simpl. destruct (skipped r) eqn:Hs.
    + destruct (IH (i + 1) table) as (new & Hsaved & Hlen & Hall & _).
      exists new. split_and!; [done|done| |].
      * intros rec Hrec. destruct (Hall rec Hrec) as [? ?]. split; [lia|done].
      * split.
        -- intros (rec & Hrec & Hi). destruct (Hall rec Hrec) as [? _]. lia.
        -- intros (r0 & rest0 & [= <- <-] & Hs' & _). congruence.
    + destruct (insert_reply be i) eqn:Hins.
      * simpl.
        set (mediaRecord := {| media_product_id := productId;
                               media_url := url r;
                               is_primary := bool_decide (i = 0);
                               display_order := i;
                               alt_text := _ |}).
        destruct (IH (i + 1) (table ++ [mediaRecord]))
          as (new & Hsaved & Hlen & Hall & _).
        exists (mediaRecord :: new). split_and!.
        -- rewrite Hsaved. by rewrite <- app_assoc.
        -- simpl. by rewrite Hlen.
        -- intros rec [->|Hrec]%elem_of_cons.
           ++ simpl. split; [lia|done].
           ++ destruct (Hall rec Hrec) as [? ?]. split; [lia|done].
        -- split; [|intros _; exists mediaRecord; split; [by left|done]].
           intros _. by exists r, rest.
      * simpl. exists []. rewrite app_nil_r. split_and!; [done|done| |].
        -- intros rec Hrec. by apply elem_of_nil in Hrec.
        -- split; [intros (rec & Hrec & _); by apply elem_of_nil in Hrec|].
           by intros (? & ? & ? & _ & ?).
      * simpl. exists []. rewrite app_nil_r. split_and!; [done|done| |].
        -- intros rec Hrec. by apply elem_of_nil in Hrec.
        -- split; [intros (rec & Hrec & _); by apply elem_of_nil in Hrec|].
           by intros (? & ? & ? & _ & ?).
Qed.

(** X17.  Among the media records one submission saves, a record is primary
    exactly when it is the record of the first file, and records are saved in
    the order of the files.  So the submission saves a primary record if and
    only if the first file was uploaded and its record inserted: when the
    first upload fails, the images that are saved are all secondary. *)
Theorem primary_is_first_file
  (be : Backend) (productId name : string) (results : list UploadResult)
  (table : list MediaRecord) (objects : Bucket) :
  let o := media_records be productId name 0 results table objects in
  ∃ new, saved o = table ++ new ∧
         (∀ rec, rec ∈ new →
            (is_primary rec = true ↔ display_order rec = 0) ∧
            0 ≤ display_order rec < Z.of_nat (length results)) ∧
         ((∃ rec, rec ∈ new ∧ is_primary rec = true) ↔
          ∃ r rest, results = r :: rest ∧ skipped r = false ∧
                    insert_reply be 0 = Inserted).
Proof.
  cbv zeta.
  destruct (media_records_saved be productId name results 0 table objects)
    as (new & Hsaved & _ & Hall & Hfirst).
  exists new. split_and!; [done| |].
  - intros rec Hrec. destruct (Hall rec Hrec) as [Hrange ->].
    split; [|lia]. by rewrite bool_decide_eq_true.
  - rewrite <- Hfirst. split; intros (rec & Hrec & Hp); exists rec;
      (split; [done|]); destruct (Hall rec Hrec) as [_ Hprim];
      rewrite Hprim in *.
    + by apply bool_decide_eq_true in Hp.
    + by apply bool_decide_eq_true.
Qed.

Lemma media_records_thrown (be : Backend) (productId name : string)
  (results : list UploadResult) (i : Z) (table : list MediaRecord)
  (objects : Bucket) :
  let o := media_records be productId name i results table objects in
  if thrown o then
    ∃ k r, results !! k = Some r ∧ skipped r = false ∧
           insert_reply be (i + Z.of_nat k) ≠ Inserted ∧
           bucket o = cleaned_up be (i + Z.of_nat k) r objects ∧
           length (saved o)
           = (length table
              + length (filter (λ x, skipped x = false) (take k results)))%nat
  else
    bucket o = objects ∧
    mediaInserts o = filter (λ x, skipped x = false) results.
Proof.
  cbv zeta. revert i table.
  induction results as [|r rest IH]; intros i table; [done|].
  simpl. destruct (skipped r) eqn:Hs.
  - specialize (IH (i + 1) table).
    destruct (thrown (media_records be productId name (i + 1) rest table
                                    objects)).
    + destruct IH as (k & r0 & Hk & Hs0 & Hins & Hb & Hlen).
      exists (S k), r0.
      replace (i + Z.of_nat (S k)) with (i + 1 + Z.of_nat k) by lia.
      split_and!; try done. simpl.
      rewrite filter_cons_False by (by rewrite Hs). done.
    + destruct IH as [Hb Hm]. split; [done|].
      by rewrite filter_cons_False by (by rewrite Hs).
  - destruct (insert_reply be i) eqn:Hins; simpl.
    + specialize (IH (i + 1)
                     (table ++ [{| media_product_id := productId;
                                   media_url := url r;
                                   is_primary := bool_decide (i = 0);
                                   display_order := i;
                                   alt_text := name +:+ " - Image "
                                               +:+ pretty (i + 1) |}])).
      destruct (thrown (media_records be productId name (i + 1) rest _
                                      objects)).
      * destruct IH as (k & r0 & Hk & Hs0 & Hins0 & Hb & Hlen).
        exists (S k), r0.
        replace (i + Z.of_nat (S k)) with (i + 1 + Z.of_nat k) by lia.
        split_and!; try done. simpl.
        rewrite filter_cons_True by done. rewrite Hlen, length_app. simpl.
        lia.
      * destruct IH as [Hb Hm]. split; [done|].
        rewrite filter_cons_True by done. by rewrite Hm.
    + exists 0%nat, r. rewrite Z.add_0_r. unfold cleaned_up. rewrite Hins.
      split_and!; try done; simpl; lia.
    + exists 0%nat, r. rewrite Z.add_0_r. unfold cleaned_up. rewrite Hins.
      split_and!; try done; simpl; lia.
Qed.

(** X18.  When the insert of a media record does not go through, the loop
    stops there: the records saved before it stay in [product_media], and of
    the uploaded files at most the file of that record is removed (when the
    insert resolved with an error; none when the request rejected), so the
    files of the other uploads stay in the bucket.  When every insert goes
    through, the bucket is untouched and every upload that was not skipped
    has its record. *)
Theorem media_cleanup_is_partial
  (be : Backend) (productId name : string) (results : list UploadResult)
  (table : list MediaRecord) (objects : Bucket) :
  let o := media_records be productId name 0 results table objects in
  if thrown o then
    ∃ k r, results !! k = Some r ∧ skipped r = false ∧
           insert_reply be (Z.of_nat k) ≠ Inserted ∧
           bucket o = cleaned_up be (Z.of_nat k) r objects ∧
           length (saved o)
           = (length table
              + length (filter (λ x, skipped x = false) (take k results)))%nat
  else
    bucket o = objects ∧
    mediaInserts o = filter (λ x, skipped x = false) results.
Proof.
  exact (media_records_thrown be productId name results 0 table objects).
Qed.

Lemma media_records_inserted (be : Backend) (productId name : string)
  (results : list UploadResult) (i : Z) (table : list MediaRecord)
  (objects : Bucket) :
  thrown (media_records be productId name i results table objects) = false →
  ∀ k x, results !! k = Some x → skipped x = false →
         insert_reply be (i + Z.of_nat k) = Inserted.
Proof.
  revert i table.
  induction results as [|r rest IH]; intros i table Ht k x Hk Hx; [done|].
  simpl in Ht. destruct k as [|k]; simpl in Hk.
  - injection Hk as ->. rewrite Hx in Ht. rewrite Z.add_0_r.
    by destruct (insert_reply be i).
  - replace (i + Z.of_nat (S k)) with (i + 1 + Z.of_nat k) by lia.
    destruct (skipped r); [by eapply IH|].
    destruct (insert_reply be i); [|done|done]. simpl in Ht. by eapply IH.
Qed.

Lemma usable_uploads (results : list UploadResult) :
  filter (λ r, has_error r = false ∧ nonempty (url r) = true) results
  = filter (λ x, skipped x = false) results.
Proof.
  apply list_filter_iff. intros x. unfold skipped.
  destruct (has_error x), (nonempty (url x)); simpl; intuition congruence.
Qed.

Lemma filter_all_length {A} (P : A → Prop) `{!∀ x, Decision (P x)}
    (l : list A) :
  ¬ (length (filter P l) < length l)%nat → Forall P l.
Proof.
  intros Hlt. apply Forall_forall. intros x Hx.
  destruct (decide (P x)) as [|Hn]; [done|].
  exfalso. apply Hlt. by eapply length_filter_lt.
Qed.

(** X19.  How the block "Upload images if any" ends.  The check "No media
    records were saved" never fires.  The block throws 'All image uploads
    failed' when there are images and no upload is usable, and nothing is
    saved; it throws the error of a media insert when an insert does not go
    through.  When every insert goes through, all usable uploads have their
    record and no file is removed, and then: if some upload was not usable
    the block still ends with an error, the TypeError of
    [toast.warning(message)], after the records are saved; only when every
    upload was usable (or there was no image) does it end normally, with one
    record more for each image. *)
Theorem save_images_outcome
  (be : Backend) (uploads : list (Env * File)) (productId name : string)
  (table : list MediaRecord) (objects : Bucket) :
  let r := uploadProductImages uploads productId objects in
  let usable := filter (λ x, skipped x = false) r.1 in
  let e := save_images be uploads productId name table objects in
  e.2 ≠ Some NoRecordsSaved ∧
  match e.2 with
  | Some AllUploadsFailed =>
      uploads ≠ [] ∧ usable = [] ∧ saved e.1 = table ∧ bucket e.1 = r.2
  | Some MediaError =>
      usable ≠ [] ∧
      ∃ k x, r.1 !! k = Some x ∧ skipped x = false ∧
             insert_reply be (Z.of_nat k) ≠ Inserted ∧
             bucket e.1 = cleaned_up be (Z.of_nat k) x r.2
  | Some NoRecordsSaved => False
  | Some ToastWarning =>
      usable ≠ [] ∧ (length usable < length r.1)%nat ∧
      (∀ k x, r.1 !! k = Some x → skipped x = false →
              insert_reply be (Z.of_nat k) = Inserted) ∧
      mediaInserts e.1 = usable ∧
      length (saved e.1) = (length table + length usable)%nat ∧
      bucket e.1 = r.2
  | None =>
      Forall (λ x, skipped x = false) r.1 ∧
      (∀ k x, r.1 !! k = Some x →
              insert_reply be (Z.of_nat k) = Inserted) ∧
      mediaInserts e.1 = r.1 ∧
      length (saved e.1) = (length table + length uploads)%nat ∧
      bucket e.1 = r.2
  end.
Proof.
  cbv zeta. destruct uploads as [|upload rest].
  { simpl. by split_and!. }
  change (save_images be (upload :: rest) productId name table objects)
    with (upload_and_record be (upload :: rest) productId name table objects).
  assert (upload :: rest ≠ []) as Hsome by done.
  revert Hsome. generalize (upload :: rest). clear upload rest.
  intros uploads Hsome. unfold upload_and_record.
  destruct (StorageBatchFacts.uploadProductImages_from_spec uploads productId
              0 objects) as (Hresults & _). cbv zeta in Hresults.
  fold (uploadProductImages uploads productId objects) in Hresults.
  destruct (uploadProductImages uploads productId objects)
    as [uploadResults objects1]. simpl. simpl in Hresults.
  rewrite usable_uploads.
  set (usable := filter (λ x, skipped x = false) uploadResults).
  case_bool_decide as Hnone.
  { simpl. split_and!; try done. by apply nil_length_inv. }
  assert (usable ≠ []) as Husable by (intros Heq; by rewrite Heq in Hnone).
  pose proof (media_records_thrown be productId name uploadResults 0 table
                                   objects1) as Hthrown.
  pose proof (media_records_inserted be productId name uploadResults 0 table
                                     objects1) as Hins.
  destruct (media_records_saved be productId name uploadResults 0 table
                                objects1) as (new & Hsaved & Hlen & _).
  cbv zeta in Hthrown.
  destruct (thrown (media_records be productId name 0 uploadResults table
                                  objects1)).
  { simpl. split; [done|]. split; [done|].
    destruct Hthrown as (k & x & Hk & Hx & Hreply & Hbucket & _).
    by exists k, x. }
  destruct Hthrown as [Hbucket Hm]. fold usable in Hm.
  specialize (Hins eq_refl).
  assert (length (saved (media_records be productId name 0 uploadResults
                                       table objects1))
          = (length table + length usable)%nat) as Hcount.
  { rewrite Hsaved, length_app, Hlen, Hm. done. }
  case_bool_decide as Hzero.
  { exfalso. rewrite Hm in Hzero. by apply Husable, nil_length_inv. }
  case_bool_decide as Hless; simpl.
  - split_and!; try done.
  - pose proof (filter_all_length _ _ Hless) as Hall.
    assert (usable = uploadResults) as Heq.
    { unfold usable. clear -Hall.
      induction Hall as [|x l Hx _ IH]; [done|].
      rewrite filter_cons_True by done. by rewrite IH. }
    rewrite Heq in *. split_and!; try done; [|by rewrite <- Hresults].
    intros k x Hk. apply (Hins k x Hk).
    exact (Forall_lookup_1 _ _ _ _ Hall Hk).
Qed.

(** Of a PNG of 6MB and a JPEG of 1MB the second is uploaded and its record
    saved, as a secondary image; the submission then ends with the TypeError
    of [toast.warning]. *)
Lemma save_images_outcome_witness :
  let e := save_images inserts_all two_files "p" "Shirt" [] [] in
  e.2 = Some ToastWarning ∧
  length (saved e.1) = 1%nat ∧
  is_primary <$> saved e.1 = [false] ∧
  length (bucket e.1) = 1%nat.
Proof.
  cbv zeta.
  pose proof (save_images_outcome inserts_all two_files "p" "Shirt" [] [])
    as [_ H].
  cbv zeta in H.
  assert ((save_images inserts_all two_files "p" "Shirt" [] []).2
          = Some ToastWarning) as He by (by vm_compute).
  rewrite He in H.
  destruct H as (_ & _ & _ & _ & Hsaved & Hbucket).
  split_and!.
  - exact He.
  - rewrite Hsaved. by vm_compute.
  - by vm_compute.
  - rewrite Hbucket. by vm_compute.
Defined.

End AdminProductsFacts.
(** ** Image utilities *)

Module ImageMoreFacts.
Import ImageUtils ImageFacts ImageLoading.

(** *** [resizeImage] with other bounds *)

(** X20.  [resizeImage] compares only the longer side of the image with its
    bound.  For bounds [maxWidth] x [maxHeight] and an image [w] x [h], all
    within the range of a canvas: a landscape image at most [maxWidth] wide
    is left as it is, however tall, and a wider one gets the width [maxWidth]
    and the height [h * maxWidth / w] truncated, which stays below
    [maxWidth]; a portrait or square image is treated likewise by its
    height.  So the result fits a square box, and need not fit another. *)
Theorem resizeImage_longer_side
  (w h maxWidth maxHeight : Z)
  (Hw : 0 < w ≤ 2147483647) (Hh : 0 < h ≤ 2147483647)
  (Hmw : 0 < maxWidth ≤ 2147483647) (Hmh : 0 < maxHeight ≤ 2147483647) :
  let out := canvas_dimensions w h maxWidth maxHeight in
  (h < w → w ≤ maxWidth → out = {| width := w; height := h |}) ∧
  (h < w → maxWidth < w →
     out = {| width := maxWidth; height := (h * maxWidth) `div` w |} ∧
     height out < maxWidth) ∧
  (w ≤ h → h ≤ maxHeight → out = {| width := w; height := h |}) ∧
  (w ≤ h → maxHeight < h →
     out = {| width := (w * maxHeight) `div` h; height := maxHeight |} ∧
     width out ≤ maxHeight) ∧
  (maxWidth = maxHeight → width out ≤ maxWidth ∧ height out ≤ maxHeight).
Proof.
  cbv zeta.
  assert (h < w → (h * maxWidth) `div` w < maxWidth) as Hl.
  { intros. apply Z.div_lt_upper_bound; nia. }
  assert (w ≤ h → (w * maxHeight) `div` h ≤ maxHeight) as Hp.
  { intros. apply Z.div_le_upper_bound; nia. }
  assert (0 ≤ (h * maxWidth) `div` w) as Hl0 by (apply Z.div_pos; lia).
  assert (0 ≤ (w * maxHeight) `div` h) as Hp0 by (apply Z.div_pos; lia).
  assert (h < w → w ≤ maxWidth →
          canvas_dimensions w h maxWidth maxHeight
          = {| width := w; height := h |}) as H1.
  { intros. unfold canvas_dimensions, new_dimensions.
    rewrite decide_True, decide_False by lia. simpl.
    by rewrite !canvas_attribute_inject by lia. }
  assert (h < w → maxWidth < w →
          canvas_dimensions w h maxWidth maxHeight
          = {| width := maxWidth; height := (h * maxWidth) `div` w |}) as H2.
  { intros. unfold canvas_dimensions, new_dimensions.
    rewrite !decide_True by lia. simpl fst. simpl snd.
    rewrite canvas_attribute_inject by lia.
    rewrite canvas_attribute_div by lia. done. }
  assert (w ≤ h → h ≤ maxHeight →
          canvas_dimensions w h maxWidth maxHeight
          = {| width := w; height := h |}) as H3.
  { intros. unfold canvas_dimensions, new_dimensions.
    rewrite !decide_False by lia. simpl.
    by rewrite !canvas_attribute_inject by lia. }
  assert (w ≤ h → maxHeight < h →
          canvas_dimensions w h maxWidth maxHeight
          = {| width := (w * maxHeight) `div` h; height := maxHeight |})
    as H4.
  { intros. unfold canvas_dimensions, new_dimensions.
    rewrite decide_False, decide_True by lia. simpl fst. simpl snd.
    rewrite canvas_attribute_inject by lia.
    rewrite canvas_attribute_div by lia. done. }
  split_and!.
  - done.
  - intros. rewrite H2 by done. simpl. split; [done|]. by apply Hl.
  - done.
  - intros. rewrite H4 by done. simpl. split; [done|]. by apply Hp.
  - intros <-. destruct (decide (h < w)).
    + destruct (decide (w ≤ maxWidth)).
      * rewrite H1 by done. simpl. lia.
      * rewrite H2 by lia. simpl. lia.
    + destruct (decide (h ≤ maxWidth)).
      * rewrite H3 by lia. simpl. lia.
      * rewrite H4 by lia. simpl. lia.
Qed.

(** A 1000 x 800 image passes a 1200 x 300 box untouched. *)
Lemma resizeImage_longer_side_witness :
  canvas_dimensions 1000 800 (width banner_bounds) (height banner_bounds)
  = {| width := 1000; height := 800 |}.
Proof.
  destruct (resizeImage_longer_side 1000 800 (width banner_bounds)
              (height banner_bounds)) as (H & _);
    [simpl; lia..|].
  apply H; simpl; lia.
Defined.

(** *** [imageCache] *)

Lemma map_get_set_same (key value : string) (m : JsMap) :
  map_get key (map_set key value m) = Some value.
Proof.
  unfold map_get, map_set, map_has. case_bool_decide as Hin.
  - induction m as [|[k v] m IH]; [by apply elem_of_nil in Hin|].
    rewrite fmap_cons. simpl.
    destruct (decide (k = key)) as [->|Hne]; simpl.
    + by rewrite decide_True.
    + rewrite decide_False by done.
      rewrite fmap_cons in Hin. apply elem_of_cons in Hin as [?|Hin];
        [done|].
      specialize (IH Hin).
      destruct (list_find _ _) as [[i kv]|]; [|done]. simpl in *. done.
  - assert (list_find (λ kv : string * string, kv.1 = key) m = None) as Hnone.
    { apply list_find_None, Forall_forall. intros [k v] Hkv Hk.
      simpl in Hk. subst k.
      apply Hin. apply list_elem_of_fmap. by exists (key, v). }
    rewrite list_find_app_r by done. simpl. by rewrite decide_True.
Qed.

Lemma map_get_set_other (key value k' : string) (m : JsMap) :
  k' ≠ key → map_get k' (map_set key value m) = map_get k' m.
Proof.
  intros Hne. unfold map_get, map_set. destruct (map_has key m).
  - induction m as [|[k v] m IH]; [done|].
    rewrite fmap_cons. simpl.
    destruct (decide (k = key)) as [->|Hk]; simpl.
    + rewrite !decide_False by done.
      destruct (list_find _ (_ <$> m)) as [[i kv]|];
        destruct (list_find _ m) as [[j kv']|]; simpl in *; congruence.
    + destruct (decide (k = k')); [done|].
      destruct (list_find _ (_ <$> m)) as [[i kv]|];
        destruct (list_find _ m) as [[j kv']|]; simpl in *; congruence.
  - destruct (list_find (λ kv : string * string, kv.1 = k') m)
      as [[i kv]|] eqn:E.
    + by erewrite list_find_app_l.
    + rewrite list_find_app_r by done. simpl. by rewrite decide_False.
Qed.

Lemma map_get_delete (key k' : string) (m : JsMap) :
  map_get k' (map_delete key m)
  = if decide (k' = key) then None else map_get k' m.
Proof.
  unfold map_get, map_delete. destruct (decide (k' = key)) as [->|Hne].
  - assert (list_find (λ kv : string * string, kv.1 = key)
              (filter (λ kv : string * string, kv.1 ≠ key) m) = None) as ->;
      [|done].
    apply list_find_None, Forall_forall.
    intros kv Hkv%list_elem_of_filter. tauto.
  - induction m as [|[k v] m IH]; [done|].
    rewrite filter_cons. simpl.
    destruct (decide (k ≠ key)) as [Hk|Hk]; simpl.
    + destruct (decide (k = k')); [done|].
      destruct (list_find (λ kv : string * string, kv.1 = k')
                  (filter (λ kv : string * string, kv.1 ≠ key) m))
        as [[i kv]|];
        destruct (list_find (λ kv : string * string, kv.1 = k') m)
          as [[j kv']|]; simpl in *; congruence.
    + rewrite decide_False by (intros ->; tauto).
      destruct (list_find (λ kv : string * string, kv.1 = k')
                  (filter (λ kv : string * string, kv.1 ≠ key) m))
        as [[i kv]|];
        destruct (list_find (λ kv : string * string, kv.1 = k') m)
          as [[j kv']|]; simpl in *; congruence.
Qed.

(** X21.  The cache returns what was last stored under a key, and a [set]
    disturbs no other key except the oldest one, which it drops when the
    cache held more than 100 entries (also when the key stored was already
    present). *)
Theorem imageCache_get_set (key value : string) (cache : JsMap) :
  get key (set key value cache) = Some value ∧
  ∀ k', k' ≠ key →
    get k' (set key value cache)
    = if decide (map_size cache > 100 ∧ first_key cache = Some k')
      then None else get k' cache.
Proof.
  unfold get, set. cbv zeta. split; [apply map_get_set_same|].
  intros k' Hne. rewrite map_get_set_other by done.
  destruct (decide (map_size cache > 100)) as [Hbig|Hsmall].
  - destruct (first_key cache) as [firstKey|] eqn:Hfirst.
    + rewrite map_get_delete.
      destruct (decide (k' = firstKey)) as [->|Hk].
      * by rewrite decide_True.
      * rewrite decide_False; [done|]. intros [_ [= ->]]. done.
    + rewrite decide_False; [done|]. by intros [_ ?].
  - rewrite decide_False; [done|]. by intros [? _].
Qed.

(** *** [loadImageWithRetry] *)

Lemma attempts_success (loads : Z → bool) (url : string)
  (maxRetries delay : Z) (fuel : nat) (attempt k : Z) :
  (maxRetries - attempt < Z.of_nat fuel) →
  attempt ≤ k ≤ maxRetries → loads k = true →
  (∀ j, attempt ≤ j < k → loads j = false) →
  attempts loads url maxRetries delay attempt fuel
  = {| src := url;
       waited := (λ j, delay * j) <$> seqZ attempt (k - attempt) |}.
Proof.
  revert attempt. induction fuel as [|fuel IH]; intros attempt Hfuel Hk Hload
    Hbefore; [lia|].
  simpl. rewrite decide_True by lia.
  destruct (decide (attempt = k)) as [->|Hne].
  - rewrite Hload. by rewrite seqZ_nil by lia.
  - rewrite (Hbefore attempt) by lia. rewrite decide_False by lia.
    rewrite (IH (attempt + 1)); [|lia|lia|done|intros; apply Hbefore; lia].
    simpl. rewrite (seqZ_cons attempt) by lia. rewrite fmap_cons.
    replace (Z.succ attempt) with (attempt + 1) by lia.
    by replace (Z.pred (k - attempt)) with (k - (attempt + 1)) by lia.
Qed.

Lemma attempts_failure (loads : Z → bool) (url : string)
  (maxRetries delay : Z) (fuel : nat) (attempt : Z) :
  (maxRetries - attempt < Z.of_nat fuel ∨ maxRetries < attempt) →
  (∀ j, attempt ≤ j ≤ maxRetries → loads j = false) →
  attempts loads url maxRetries delay attempt fuel
  = {| src := FALLBACK_PRODUCT_IMAGE;
       waited := (λ j, delay * j) <$> seqZ attempt (maxRetries - attempt) |}.
Proof.
  revert attempt. induction fuel as [|fuel IH]; intros attempt Hfuel Hall.
  - simpl. by rewrite seqZ_nil by lia.
  - simpl. destruct (decide (attempt ≤ maxRetries)) as [Hle|Hgt].
    + rewrite (Hall attempt) by lia.
      destruct (decide (attempt = maxRetries)) as [->|Hne].
      * by rewrite seqZ_nil by lia.
      * rewrite (IH (attempt + 1)); [|lia|intros; apply Hall; lia].
        simpl. rewrite (seqZ_cons attempt) by lia. rewrite fmap_cons.
        replace (Z.succ attempt) with (attempt + 1) by lia.
        by replace (Z.pred (maxRetries - attempt))
          with (maxRetries - (attempt + 1)) by lia.
    + by rewrite seqZ_nil by lia.
Qed.

(** X22.  [loadImageWithRetry] returns the URL as soon as an attempt loads
    it, having waited [delay], [2 * delay], ... after the failed attempts
    before; when none of the [maxRetries] attempts loads it, it returns the
    fallback image after waiting [delay], ..., [(maxRetries - 1) * delay]: it
    does not wait after the last failure, and with [maxRetries <= 0] it
    returns the fallback without an attempt. *)
Theorem loadImageWithRetry_spec
  (loads : Z → bool) (url : string) (maxRetries delay : Z) :
  (∀ k, 1 ≤ k ≤ maxRetries → loads k = true →
        (∀ j, 1 ≤ j < k → loads j = false) →
        loadImageWithRetry loads url maxRetries delay
        = {| src := url;
             waited := (λ j, delay * j) <$> seqZ 1 (k - 1) |}) ∧
  ((∀ j, 1 ≤ j ≤ maxRetries → loads j = false) →
   loadImageWithRetry loads url maxRetries delay
   = {| src := FALLBACK_PRODUCT_IMAGE;
        waited := (λ j, delay * j) <$> seqZ 1 (maxRetries - 1) |}).
Proof.
  unfold loadImageWithRetry. split.
  - intros k Hk Hload Hbefore. apply attempts_success; [lia|done..].
  - intros Hall. apply attempts_failure; [lia|done].
Qed.

Lemma loadImageWithRetry_spec_witness :
  loadImageWithRetry loads_third "https://cdn.example/a.jpg" 3 1000
  = {| src := "https://cdn.example/a.jpg"; waited := [1000; 2000] |}.
Proof.
  destruct (loadImageWithRetry_spec loads_third "https://cdn.example/a.jpg"
              3 1000) as [H _].
  apply (H 3); [lia|reflexivity|].
  intros j Hj. unfold loads_third. apply bool_decide_eq_false. lia.
Defined.

End ImageMoreFacts.
(** ** The debug logger and the two file validators *)

Module DebugUtilsFacts.
Import DebugUtils.

Lemma addLog_slice (entry : LogEntry) (all : list LogEntry) :
  addLog entry (slice_last maxLogs all)
  = slice_last maxLogs (all ++ [entry]).
Proof.
  unfold addLog, slice_last. cbv zeta.
  assert (0 < maxLogs)%nat as Hpos by (unfold maxLogs; lia).
  revert Hpos. generalize maxLogs. intros n Hpos.
  rewrite !length_app, !length_drop. simpl length.
  destruct (decide (length all < n)%nat) as [Hlt|Hge].
  - rewrite decide_False by lia.
    replace (length all - n)%nat with 0%nat by lia.
    replace (length all + 1 - n)%nat with 0%nat by lia. done.
  - rewrite decide_True by lia.
    rewrite drop_app_le by (rewrite length_drop; lia).
    rewrite drop_drop.
    rewrite (drop_app_le all) by lia.
    do 2 f_equal. lia.
Qed.

(** X23.  The log holds the most recent entries and never more than 1000 of
    them: after any sequence of logging calls and [clearLogs] from the empty
    log, it is the list of the entries logged since the last [clearLogs] cut
    to its last 1000. *)
Theorem log_keeps_last_1000 (ops : list LogOp) :
  log_run ops [] = slice_last maxLogs (since_clear ops []) ∧
  (length (log_run ops []) ≤ maxLogs)%nat.
Proof.
  assert (∀ all, log_run ops (slice_last maxLogs all)
                 = slice_last maxLogs (since_clear ops all)) as H.
  { induction ops as [|[entry|] ops IH]; intros all; simpl.
    - done.
    - by rewrite addLog_slice, IH.
    - apply (IH []). }
  specialize (H []). change (slice_last maxLogs []) with (@nil LogEntry) in H.
  split; [done|]. rewrite H. unfold slice_last. rewrite length_drop. lia.
Qed.

End DebugUtilsFacts.

Module ValidatorsFacts.
Import ImageUtils Storage StorageFacts.

(** X24.  The two validations of [uploadProductImage] accept the same files,
    so the second one never refuses a file: every file that is refused is
    refused by [validateFileUpload], with an error that starts with "File
    validation failed: ". *)
Theorem second_validation_never_fails
  (env : Env) (file : File) (productId : string) (index : Z)
  (objects : Bucket) :
  valid (validateFileUpload file) = isValid (validateImageFile file) ∧
  (isValid (validateImageFile file) = false →
   ∃ reason,
     error (result (uploadProductImage env file productId index objects))
     = Some ("File validation failed: " +:+ reason)).
Proof.
  assert (valid (validateFileUpload file) = isValid (validateImageFile file))
    as Heq.
  { destruct (valid (validateFileUpload file)) eqn:Hv;
      destruct (isValid (validateImageFile file)) eqn:Hi; try done.
    - apply validateFileUpload_valid in Hv.
      apply validateImageFile_valid in Hv. congruence.
    - apply validateImageFile_valid in Hi.
      apply validateFileUpload_valid in Hi. congruence. }
  split; [done|]. intros Hbad. rewrite <- Heq in Hbad.
  unfold uploadProductImage. cbv zeta. rewrite Hbad. simpl. by eexists.
Qed.

End ValidatorsFacts.
(** ** Order numbers *)

Module OrdersFacts.
Import Stdlib.Strings.Ascii Orders.

Lemma append_cons (x : ascii) (a b : string) :
  String x a +:+ b = String x (a +:+ b).
Proof. reflexivity. Qed.

Lemma append_nil (b : string) : "" +:+ b = b.
Proof. reflexivity. Qed.

Lemma append_assoc (a b c : string) : (a +:+ b) +:+ c = a +:+ (b +:+ c).
Proof.
  induction a as [|x a IH]; [done|]. by rewrite !append_cons, IH.
Qed.

Lemma length_append (a b : string) :
  String.length (a +:+ b) = (String.length a + String.length b)%nat.
Proof.
  induction a as [|x a IH]; [done|]. rewrite append_cons. simpl.
  by rewrite IH.
Qed.

Lemma string_take_all (s : string) : string_take (String.length s) s = s.
Proof. induction s as [|x s IH]; simpl; [done|]. by rewrite IH. Qed.

Lemma string_take_append (a b : string) :
  string_take (String.length a) (a +:+ b) = a.
Proof.
  induction a as [|x a IH]; [by destruct b|]. rewrite append_cons. simpl.
  by rewrite IH.
Qed.

Lemma append_inj_length (a b x y : string) :
  String.length a = String.length b → a +:+ x = b +:+ y → a = b ∧ x = y.
Proof.
  revert b. induction a as [|c a IH]; intros [|d b]; try done.
  rewrite !append_cons. intros [= Hlen] [= -> Heq].
  destruct (IH b Hlen Heq) as [-> ->]. done.
Qed.

(** The digits of a number. *)
Lemma pretty_N_go_append (x : N) (s : string) :
  pretty_N_go x s = pretty_N_go x "" +:+ s.
Proof.
  revert s. induction (N.lt_wf_0 x) as [x _ IH]; intros s.
  assert (x = 0 ∨ 0 < x)%N as [->|Hx] by lia.
  - by rewrite !pretty_N_go_0.
  - rewrite !(pretty_N_go_step x) by done.
    set (c := pretty_N_char (x `mod` 10)).
    rewrite (IH (x `div` 10)%N (N.div_lt x 10 Hx eq_refl) (String c s)).
    rewrite (IH (x `div` 10)%N (N.div_lt x 10 Hx eq_refl) (String c "")).
    by rewrite append_assoc.
Qed.

Lemma pretty_N_go_length (k : nat) (x : N) :
  (10 ^ N.of_nat k ≤ x < 10 ^ N.of_nat (S k))%N →
  String.length (pretty_N_go x "") = S k.
Proof.
  revert x. induction k as [|k IH]; intros x Hx.
  - change (10 ^ N.of_nat 0)%N with 1%N in Hx.
    change (10 ^ N.of_nat 1)%N with 10%N in Hx.
    rewrite pretty_N_go_step by lia.
    rewrite (N.div_small x 10) by lia. by rewrite pretty_N_go_0.
  - rewrite !Nat2N.inj_succ, !N.pow_succ_r' in Hx.
    rewrite Nat2N.inj_succ, N.pow_succ_r' in IH.
    rewrite pretty_N_go_step by lia.
    rewrite pretty_N_go_append, length_append. simpl String.length.
    rewrite (IH (x `div` 10)%N); [lia|]. split.
    + apply N.div_le_lower_bound; lia.
    + apply N.Div0.div_lt_upper_bound; lia.
Qed.

Lemma pretty_N_go_head (x : N) :
  (0 < x)%N →
  ∃ c s, pretty_N_go x "" = String c s ∧ c ≠ "0"%char.
Proof.
  induction (N.lt_wf_0 x) as [x _ IH]; intros Hx.
  rewrite pretty_N_go_step by done.
  destruct (N.eq_0_gt_0_cases (x `div` 10)) as [Hz|Hpos].
  - rewrite Hz, pretty_N_go_0. eexists _, _. split; [done|].
    assert (x < 10)%N as Hlt.
    { destruct (decide (x < 10)%N) as [|Hge]; [done|].
      assert (1 ≤ x `div` 10)%N; [|lia].
      apply N.div_le_lower_bound; lia. }
    rewrite N.mod_small by done.
    assert (x = 1 ∨ x = 2 ∨ x = 3 ∨ x = 4 ∨ x = 5 ∨ x = 6
            ∨ x = 7 ∨ x = 8 ∨ x = 9)%N as H9 by lia.
    destruct H9 as [->|[->|[->|[->|[->|[->|[->|[->| ->]]]]]]]]; done.
  - destruct (IH (x `div` 10)%N) as (c & s & Hs & Hc);
      [by apply N.div_lt|done|].
    rewrite pretty_N_go_append, Hs, append_cons. by eexists _, _.
Qed.

Lemma pretty_Z_digits (n : Z) :
  0 < n → pretty n = pretty_N_go (Z.to_N n) "".
Proof.
  intros Hn. destruct n as [|p|p]; try lia.
  unfold pretty, pretty_Z, pretty, pretty_positive, pretty, pretty_N.
  simpl. by destruct (decide (N.pos p = 0%N)).
Qed.

Lemma pad_inj (fill : ascii) (i j : nat) (a b : string) :
  (∃ c s, a = String c s ∧ c ≠ fill) →
  (∃ c s, b = String c s ∧ c ≠ fill) →
  repeat_char fill i +:+ a = repeat_char fill j +:+ b → a = b.
Proof.
  intros (c & s & -> & Hc) (d & t & -> & Hd).
  revert j. induction i as [|i IH]; intros [|j]; simpl repeat_char;
    rewrite ?append_cons, ?append_nil.
  - done.
  - intros [= -> _]. done.
  - intros [= <- _]. done.
  - intros [= Heq]. by apply (IH j).
Qed.

Lemma lpad_digits (n : Z) :
  0 < n < 1000000 →
  ∃ i, lpad (pretty n) 6 "0"%char = repeat_char "0"%char i +:+ pretty n.
Proof.
  intros Hn. unfold lpad.
  assert (String.length (pretty n) ≤ 6)%nat as Hlen.
  { rewrite pretty_Z_digits by lia.
    assert (∃ k, (k ≤ 5)%nat ∧
                 (10 ^ N.of_nat k ≤ Z.to_N n < 10 ^ N.of_nat (S k))%N)
      as (k & Hk & Hrange).
    { destruct (decide (n < 10)); [exists 0%nat; split; [lia|simpl; lia]|].
      destruct (decide (n < 100)); [exists 1%nat; split; [lia|simpl; lia]|].
      destruct (decide (n < 1000)); [exists 2%nat; split; [lia|simpl; lia]|].
      destruct (decide (n < 10000));
        [exists 3%nat; split; [lia|simpl; lia]|].
      destruct (decide (n < 100000));
        [exists 4%nat; split; [lia|simpl; lia]|].
      exists 5%nat; split; [lia|simpl; lia]. }
    rewrite (pretty_N_go_length k) by done. lia. }
  case_decide.
  - by eexists.
  - exists 0%nat. simpl repeat_char. rewrite append_nil.
    replace 6%nat with (String.length (pretty n)) at 1 by lia.
    apply string_take_all.
Qed.

(** X25.  Order numbers drawn from the first 999,999 values of the sequence
    are distinct: two calls of [generate_order_number] give the same text
    only on the same day and for the same sequence value. *)
Theorem order_numbers_distinct
  (today1 today2 : string) (seq1 seq2 : Z)
  (Hday : String.length today1 = String.length today2)
  (H1 : 0 ≤ seq1 < 999999) (H2 : 0 ≤ seq2 < 999999)
  (Heq : (generate_order_number today1 seq1).1
         = (generate_order_number today2 seq2).1) :
  today1 = today2 ∧ seq1 = seq2.
Proof.
  unfold generate_order_number, nextval in Heq. simpl in Heq.
  rewrite ?append_cons, ?append_nil in Heq. injection Heq as Heq.
  apply append_inj_length in Heq as [-> Heq]; [|done].
  split; [done|]. rewrite ?append_cons, ?append_nil in Heq.
  injection Heq as Heq.
  destruct (lpad_digits (seq1 + 1)) as [i Hi]; [lia|].
  destruct (lpad_digits (seq2 + 1)) as [j Hj]; [lia|].
  rewrite Hi, Hj in Heq. apply pad_inj in Heq.
  - apply (inj pretty) in Heq. lia.
  - rewrite pretty_Z_digits by lia. apply pretty_N_go_head. lia.
  - rewrite pretty_Z_digits by lia. apply pretty_N_go_head. lia.
Qed.

Lemma order_numbers_distinct_witness :
  "20250630" = "20250630" ∧ 41 = 41.
Proof.
  apply (order_numbers_distinct "20250630" "20250630" 41 41);
    [reflexivity|lia|lia|reflexivity].
Defined.

(** X26.  From the millionth value on the number no longer fits its six
    places and [lpad] cuts its last digit: a sequence value [n] of seven
    digits gives the order number of the value [n / 10] of the same day, which
    the [UNIQUE] constraint of [orders.order_number] then refuses if that
    number is taken. *)
Theorem order_number_repeats
  (today : string) (seq : Z)
  (Hseq : 999999 ≤ seq < 9999999) :
  (generate_order_number today seq).1
  = (generate_order_number today ((seq + 1) `div` 10 - 1)).1.
Proof.
  unfold generate_order_number, nextval. simpl.
  apply (f_equal (λ s, "ORD-" +:+ today +:+ "-" +:+ s)).
  replace ((seq + 1) `div` 10 - 1 + 1) with ((seq + 1) `div` 10) by lia.
  assert (100000 ≤ (seq + 1) `div` 10 < 1000000) as Hq.
  { split; [apply Z.div_le_lower_bound; lia
           |apply Z.div_lt_upper_bound; lia]. }
  rewrite !pretty_Z_digits by lia.
  assert (Z.to_N ((seq + 1) `div` 10) = (Z.to_N (seq + 1) `div` 10)%N) as Hdiv.
  { rewrite Z2N.inj_div by lia. done. }
  assert (String.length (pretty_N_go (Z.to_N (seq + 1) `div` 10) "") = 6%nat)
    as Hlen6.
  { apply (pretty_N_go_length 5). rewrite <- Hdiv.
    change (10 ^ N.of_nat 5)%N with (Z.to_N 100000).
    change (10 ^ N.of_nat 6)%N with (Z.to_N 1000000). lia. }
  rewrite Hdiv. unfold lpad.
  rewrite (pretty_N_go_step (Z.to_N (seq + 1))) by lia.
  rewrite pretty_N_go_append, length_append, Hlen6. simpl String.length.
  rewrite !decide_False by lia.
  rewrite <- Hlen6. by rewrite string_take_append, string_take_all.
Qed.

Lemma order_number_repeats_witness :
  (generate_order_number "20250630" 1234566).1 = "ORD-20250630-123456" ∧
  (generate_order_number "20250630" 123455).1 = "ORD-20250630-123456".
Proof.
  rewrite (order_number_repeats "20250630" 1234566) by lia.
  split; reflexivity.
Defined.

End OrdersFacts.
(** ** The image uploader *)

Module UploaderFacts.
Import ImageUtils Uploader.

Lemma mains_app (l k : list UploadedImage) :
  mains (l ++ k) = (mains l + mains k)%nat.
Proof. unfold mains. by rewrite filter_app, length_app. Qed.

Lemma mains_cons (img : UploadedImage) (l : list UploadedImage) :
  mains (img :: l) = ((if isMain img then 1 else 0) + mains l)%nat.
Proof.
  unfold mains. rewrite filter_cons.
  destruct (isMain img); [by rewrite decide_True|by rewrite decide_False].
Qed.

Lemma mains_Permutation (l k : list UploadedImage) :
  l ≡ₚ k → mains l = mains k.
Proof. intros H. unfold mains. by rewrite H. Qed.

Lemma existsb_mains (l : list UploadedImage) :
  existsb isMain l = false ↔ mains l = 0%nat.
Proof.
  induction l as [|img l IH]; [done|].
  rewrite mains_cons. simpl. destruct (isMain img); simpl; [done|].
  by rewrite IH.
Qed.

(** After [isMain: i === index] one image is main. *)
Lemma mains_imap_from (k index : nat) (l : list UploadedImage) :
  mains (imap (λ i img, with_isMain img (bool_decide (k + i = index)%nat)) l)
  = (if decide (k ≤ index < k + length l)%nat then 1 else 0)%nat.
Proof.
  revert k. induction l as [|img l IH]; intros k.
  - simpl. by rewrite decide_False by lia.
  - rewrite imap_cons, mains_cons.
    rewrite (imap_ext _ (λ i img0,
               with_isMain img0 (bool_decide (S k + i = index)%nat)));
      [|intros i x _; simpl; f_equal; apply bool_decide_ext; lia].
    rewrite IH. simpl isMain. simpl length.
    destruct (decide (k + 0 = index)%nat) as [Hk|Hk].
    + rewrite (bool_decide_eq_true_2 _ Hk).
      rewrite decide_False by lia. by rewrite decide_True by lia.
    + rewrite (bool_decide_eq_false_2 _ Hk).
      destruct (decide (S k ≤ index < S k + length l)%nat);
        [by rewrite decide_True by lia|by rewrite decide_False by lia].
Qed.

Lemma mains_imap (index : nat) (l : list UploadedImage) :
  mains (imap (λ i img, with_isMain img (bool_decide (i = index))) l)
  = (if decide (index < length l)%nat then 1 else 0)%nat.
Proof.
  pose proof (mains_imap_from 0 index l) as H. simpl in H. rewrite H.
  destruct (decide (index < length l)%nat);
    [by rewrite decide_True by lia|by rewrite decide_False by lia].
Qed.

(** The loop of [handleFileSelect]. *)
Lemma process_all (was_empty : bool) (files : list Picked)
  (acc : list UploadedImage) :
  let P (l : list UploadedImage) :=
    mains l = (if was_empty && bool_decide (l ≠ []) then 1 else 0)%nat ∧
    (was_empty = true → ∀ img, head l = Some img → isMain img = true) in
  P acc →
  P (fold_left (process was_empty) files acc) ∧
  (length (fold_left (process was_empty) files acc)
   ≤ length acc + length files)%nat.
Proof.
  cbv zeta. revert acc.
  induction files as [|p files IH]; intros acc Hacc; [simpl; split; [done|lia]|].
  simpl.
  assert ((mains (process was_empty acc p)
           = (if was_empty && bool_decide (process was_empty acc p ≠ [])
              then 1 else 0)%nat ∧
           (was_empty = true →
            ∀ img, head (process was_empty acc p) = Some img →
                   isMain img = true)) ∧
          (length (process was_empty acc p) ≤ S (length acc))%nat)
    as [Hstep Hlen].
  { unfold process. destruct (isValid _); [|split; [done|lia]].
    destruct (resizeImage _ _ _ _ _) as [blob|msg]; [|split; [done|lia]].
    destruct Hacc as [Hm Hh]. split; [|rewrite length_app; simpl; lia].
    rewrite mains_app, mains_cons, Hm. simpl isMain.
    assert (bool_decide (acc ++ [{| img_id := picked_id p;
                                   img_name := file_name (picked_file p);
                                   img_blob := blob;
                                   preview := picked_preview p;
                                   isMain := was_empty
                                     && bool_decide (length acc = 0%nat) |}]
                         ≠ []) = true) as ->.
    { apply bool_decide_eq_true. by destruct acc. }
    destruct was_empty; simpl.
    - destruct acc as [|x acc]; simpl.
      + split; [done|]. by intros _ img [= <-].
      + split; [reflexivity|by apply Hh].
    - split; [|done]. unfold mains. simpl. lia. }
  destruct (IH _ Hstep) as [HP Hl]. split; [done|]. lia.
Qed.

Lemma handleFileSelect_inv (props : Props) (files : option (list Picked))
  (images : list UploadedImage) :
  uploader_inv props images →
  uploader_inv props (handleFileSelect props files images).
Proof.
  intros Hinv. pose proof Hinv as (Hlen & Hone & Hhead).
  unfold handleFileSelect.
  destruct files as [fileArray|]; [|done]. cbv zeta.
  destruct (decide (Z.of_nat (length fileArray) > _)) as [Hslots|Hslots];
    [done|].
  destruct (process_all (bool_decide (length images = 0%nat)) fileArray [])
    as [[Hm Hh] Hl].
  { split; [by destruct (bool_decide _)|]. by intros _ img. }
  destruct (decide (0 < _)%nat) as [Hnew|Hnew]; [|done].
  set (newImages := fold_left _ fileArray []) in *.
  simpl in Hl. split_and!.
  - rewrite length_app. lia.
  - intros _. rewrite mains_app, Hm.
    rewrite (bool_decide_eq_true_2 (newImages ≠ []))
      by (by destruct newImages; [simpl in Hnew; lia|]).
    destruct images as [|x images]; [done|].
    rewrite Hone by done. rewrite bool_decide_eq_false_2 by done. done.
  - intros Hsel img. destruct images as [|x images].
    + apply Hh. by apply bool_decide_eq_true.
    + by apply Hhead.
Qed.

Lemma removeImage_inv (props : Props) (index : nat)
  (images : list UploadedImage) :
  uploader_inv props images → uploader_inv props (removeImage index images).
Proof.
  intros Hinv. pose proof Hinv as (Hlen & Hone & Hhead). unfold removeImage.
  destruct (images !! index) as [x|] eqn:Hx; [|done]. cbv zeta.
  pose proof (mains_Permutation _ _ (delete_Permutation images index x Hx))
    as Hperm.
  rewrite mains_cons in Hperm.
  assert (images ≠ []) as Hne by (intros ->; done).
  rewrite (Hone Hne) in Hperm.
  assert (length (delete index images) = (length images - 1)%nat) as Hld.
  { apply length_delete. by eexists. }
  destruct (delete index images) as [|first rest] eqn:Hdel.
  { split_and!; [simpl; lia|done|by intros _ img]. }
  destruct (existsb isMain (first :: rest)) eqn:Hsome.
  - split_and!.
    + lia.
    + intros _. destruct (isMain x); [|lia].
      assert (mains (first :: rest) = 0%nat) as H0 by lia.
      apply existsb_mains in H0. congruence.
    + intros Hsel img [= <-].
      destruct images as [|y images]; [done|].
      destruct index as [|index]; simpl in Hx, Hdel.
      * injection Hx as ->. rewrite (Hhead Hsel x eq_refl) in Hperm.
        assert (mains (first :: rest) = 0%nat) as H0 by lia.
        apply existsb_mains in H0. congruence.
      * injection Hdel as -> _. by apply Hhead.
  - apply existsb_mains in Hsome. split_and!.
    + simpl length in *. lia.
    + intros _. rewrite mains_cons in *. simpl.
      destruct (isMain first); lia.
    + by intros _ img [= <-].
Qed.

Lemma setMainImage_inv (props : Props) (index : nat)
  (images : list UploadedImage) :
  (index < length images)%nat →
  uploader_inv props images →
  uploader_inv props (setMainImage props index images).
Proof.
  intros Hi Hinv. pose proof Hinv as (Hlen & Hone & Hhead).
  unfold setMainImage.
  destruct (allowMainSelection props) eqn:Hsel; [|done]. split_and!.
  - by rewrite length_imap.
  - intros _. rewrite mains_imap. by rewrite decide_True.
  - intros ?. congruence.
Qed.

Lemma handleImageDrop_inv (props : Props) (draggedIndex : option nat)
  (dropIndex : nat) (images images' : list UploadedImage) :
  uploader_inv props images →
  handleImageDrop props draggedIndex dropIndex images = Some images' →
  uploader_inv props images'.
Proof.
  intros Hinv. pose proof Hinv as (Hlen & Hone & Hhead).
  unfold handleImageDrop.
  destruct draggedIndex as [dragged|]; [|by intros [= <-]].
  destruct (negb _ || _); [by intros [= <-]|].
  destruct (images !! dragged) as [x|] eqn:Hx; [|done]. cbv zeta.
  intros [= <-].
  set (removed := delete dragged images).
  set (newImages := take dropIndex removed ++ x :: drop dropIndex removed).
  assert (newImages ≡ₚ images) as Hperm.
  { subst newImages. rewrite <- Permutation_middle, take_drop.
    subst removed. symmetry. by apply delete_Permutation. }
  assert (images ≠ []) as Hne by (intros ->; done).
  assert (length newImages = length images) as Hlen'.
  { by rewrite Hperm. }
  case_bool_decide as Hzero.
  - split_and!.
    + rewrite length_imap. lia.
    + intros _. rewrite mains_imap. rewrite decide_True; [done|].
      rewrite Hlen'. destruct images; [done|simpl; lia].
    + intros _ img. rewrite head_lookup, list_lookup_imap.
      destruct (newImages !! 0%nat); [|done]. by intros [= <-].
  - split_and!.
    + lia.
    + intros _. rewrite (mains_Permutation _ _ Hperm). by apply Hone.
    + intros Hsel img. subst newImages removed.
      destruct images as [|y images]; [done|].
      destruct dragged as [|dragged]; [tauto|].
      destruct dropIndex as [|dropIndex]; [tauto|].
      simpl. intros [= <-]. by apply Hhead.
Qed.

(** *** The handlers on shared image objects *)

Lemma represents_objects s refs l :
  UploaderObjects.represents s refs l → UploaderObjects.objects s refs = l.
Proof.
  intros [_ H]. unfold UploaderObjects.objects.
  induction H as [|r img refs l Hr _ IH]; [done|].
  simpl. rewrite Hr. f_equal. exact IH.
Qed.

Lemma represents_length s refs l :
  UploaderObjects.represents s refs l → length refs = length l.
Proof. intros [_ H]. by eapply Forall2_length. Qed.

Lemma represents_bound s refs l r :
  UploaderObjects.represents s refs l → r ∈ refs → (r < length s)%nat.
Proof.
  intros [_ H] Hr. apply list_elem_of_lookup in Hr as [i Hi].
  destruct (Forall2_lookup_l _ _ _ _ _ H Hi) as (img & _ & Himg).
  by eapply lookup_lt_Some.
Qed.

Lemma represents_existsb s refs l :
  UploaderObjects.represents s refs l →
  existsb (UploaderObjects.is_main s) refs = existsb isMain l.
Proof.
  intros [_ H]. induction H as [|r img refs l Hr _ IH]; [done|].
  simpl. unfold UploaderObjects.is_main at 1. by rewrite Hr, IH.
Qed.

(** New objects are put behind the store. *)
Lemma represents_fresh s (new : list UploadedImage) :
  UploaderObjects.represents (s ++ new) (seq (length s) (length new)) new.
Proof.
  split; [apply NoDup_seq|].
  apply Forall2_lookup. intros i.
  destruct (decide (i < length new)%nat) as [Hi|Hi].
  - rewrite lookup_seq_lt by done.
    destruct (lookup_lt_is_Some_2 new i Hi) as [img Himg].
    rewrite Himg. constructor.
    rewrite lookup_app_r by lia.
    by replace (length s + i - length s)%nat with i by lia.
  - rewrite lookup_seq_ge by lia.
    rewrite (lookup_ge_None_2 new i) by lia. constructor.
Qed.

Lemma represents_grow s refs l (new : list UploadedImage) :
  UploaderObjects.represents s refs l →
  UploaderObjects.represents (s ++ new) refs l.
Proof.
  intros [Hnd H]. split; [done|].
  eapply Forall2_impl; [exact H|].
  intros r img Hr. simpl. by apply lookup_app_l_Some.
Qed.

Lemma represents_app s refs l (new : list UploadedImage) :
  UploaderObjects.represents s refs l →
  UploaderObjects.represents (s ++ new)
    (refs ++ seq (length s) (length new)) (l ++ new).
Proof.
  intros Hrep. pose proof (represents_grow s refs l new Hrep) as [Hnd H].
  destruct (represents_fresh s new) as [Hnd' H'].
  split; [|by apply Forall2_app].
  apply NoDup_app. split_and!; [done| |done].
  intros r Hr Hr'. apply elem_of_seq in Hr'.
  pose proof (represents_bound _ _ _ _ Hrep Hr). lia.
Qed.

(** Writing into an object that the array does not hold. *)
Lemma represents_alter_other s refs l r f :
  r ∉ refs → UploaderObjects.represents s refs l →
  UploaderObjects.represents (alter f r s) refs l.
Proof.
  intros Hr [Hnd H]. split; [done|]. clear Hnd.
  induction H as [|r' img refs l Hr' _ IH]; [constructor|].
  apply not_elem_of_cons in Hr as [Hne Hr]. constructor; [|by apply IH].
  by rewrite list_lookup_alter_ne.
Qed.

(** Writing into the first object of the array. *)
Lemma represents_alter_first s r refs img l f :
  UploaderObjects.represents s (r :: refs) (img :: l) →
  UploaderObjects.represents (alter f r s) (r :: refs) (f img :: l).
Proof.
  intros [Hnd H]. apply NoDup_cons in Hnd as [Hr Hnd].
  apply Forall2_cons in H as [Himg H].
  split; [by apply NoDup_cons|]. apply Forall2_cons. split.
  - by rewrite list_lookup_alter_eq, Himg.
  - by apply (represents_alter_other s refs l r f Hr).
Qed.

Lemma represents_forEach s refs l i :
  UploaderObjects.represents s refs l →
  UploaderObjects.represents (UploaderObjects.forEach_isMain i refs s) refs
    (imap (λ j img, with_isMain img (bool_decide (i + j = 0)%nat)) l).
Proof.
  revert s l i. induction refs as [|r refs IH]; intros s l i Hrep.
  - destruct Hrep as [_ H]. apply Forall2_nil_inv_l in H as ->.
    split; [apply NoDup_nil_2|constructor].
  - destruct l as [|img l];
      [destruct Hrep as [_ H]; by apply Forall2_cons_nil_inv in H|].
    pose proof (represents_alter_first s r refs img l
                  (λ img, with_isMain img (bool_decide (i = 0%nat))) Hrep)
      as [Hnd H].
    apply NoDup_cons in Hnd as [Hr Hnd].
    apply Forall2_cons in H as [Himg H].
    simpl UploaderObjects.forEach_isMain. rewrite imap_cons.
    destruct (IH _ l (S i) (conj Hnd H)) as [_ Hrest].
    split; [by apply NoDup_cons|]. apply Forall2_cons. split.
    + assert (∀ k refs' s', r ∉ refs' → 
                UploaderObjects.forEach_isMain k refs' s' !! r = s' !! r)
        as Hkeep.
      { intros k refs'. revert k.
        induction refs' as [|r' refs' IH']; intros k s' Hnot; [done|].
        apply not_elem_of_cons in Hnot as [Hne Hnot]. simpl.
        rewrite IH' by done. by rewrite list_lookup_alter_ne. }
      rewrite Hkeep by done. rewrite Himg. do 2 f_equal.
      apply bool_decide_ext. lia.
    + erewrite imap_ext; [exact Hrest|].
      intros j x _. unfold compose. f_equal. apply bool_decide_ext. lia.
Qed.

Lemma represents_delete s refs l i :
  UploaderObjects.represents s refs l →
  UploaderObjects.represents s (delete i refs) (delete i l).
Proof.
  intros [Hnd H]. split; [|by apply Forall2_delete].
  eapply sublist_NoDup; [exact Hnd|]. apply sublist_delete.
Qed.

(** Each handler, called on an array that holds every image once, does to
    the images what [Uploader] says. *)
Lemma removeImage_represents index st l :
  UploaderObjects.holds st l →
  let st' := UploaderObjects.removeImage index st in
  UploaderObjects.holds st' (removeImage index l) ∧
  UploaderObjects.resizing st' = UploaderObjects.resizing st.
Proof.
  intros Hrep. cbv zeta. unfold UploaderObjects.removeImage, removeImage.
  pose proof Hrep as [_ H].
  pose proof (represents_length _ _ _ Hrep) as Hlen.
  destruct (UploaderObjects.images st !! index) as [r|] eqn:Hr.
  2: { rewrite (lookup_ge_None_2 l index);
         [done|apply lookup_ge_None in Hr; lia]. }
  destruct (Forall2_lookup_l _ _ _ _ _ H Hr) as (img & Himg & Hobj).
  rewrite Himg. cbv zeta.
  pose proof (represents_delete _ _ _ index Hrep) as Hdel.
  rewrite (represents_existsb _ _ _ Hdel).
  destruct (delete index (UploaderObjects.images st)) as [|first rest] eqn:E,
           (delete index l) as [|x k] eqn:E';
    try (apply represents_length in Hdel; simpl in Hdel; lia);
    [done|].
  destruct (existsb isMain (x :: k)); [done|]. simpl.
  split; [|done].
  exact (represents_alter_first _ _ _ _ _ (λ img, with_isMain img true) Hdel).
Qed.

Lemma setMainImage_represents props index st l :
  UploaderObjects.holds st l →
  let st' := UploaderObjects.setMainImage props index st in
  UploaderObjects.holds st' (setMainImage props index l) ∧
  UploaderObjects.resizing st' = UploaderObjects.resizing st.
Proof.
  intros Hrep. cbv zeta. unfold UploaderObjects.setMainImage, setMainImage.
  destruct (allowMainSelection props); [|done]. cbv zeta. simpl.
  unfold UploaderObjects.shown. rewrite (represents_objects _ _ _ Hrep).
  split; [|done]. apply represents_fresh.
Qed.

Lemma handleImageDrop_represents props draggedIndex dropIndex st st' l :
  UploaderObjects.holds st l →
  UploaderObjects.handleImageDrop props draggedIndex dropIndex st
  = Some st' →
  ∃ l', handleImageDrop props draggedIndex dropIndex l = Some l' ∧
        UploaderObjects.holds st' l' ∧
        UploaderObjects.resizing st' = UploaderObjects.resizing st.
Proof.
  intros Hrep. unfold UploaderObjects.handleImageDrop, handleImageDrop.
  destruct draggedIndex as [dragged|]; [|intros [= <-]; by exists l].
  destruct (negb _ || _); [intros [= <-]; by exists l|].
  pose proof Hrep as [Hnd H].
  pose proof (represents_length _ _ _ Hrep) as Hlen.
  destruct (UploaderObjects.images st !! dragged) as [r|] eqn:Hr; [|done].
  destruct (Forall2_lookup_l _ _ _ _ _ H Hr) as (img & Himg & Hobj).
  rewrite Himg. cbv zeta. intros [= <-]. simpl.
  eexists. split; [done|]. split; [|done].
  set (removed := delete dragged (UploaderObjects.images st)).
  set (removed' := delete dragged l).
  assert (UploaderObjects.represents (UploaderObjects.store st)
            (take dropIndex removed ++ r :: drop dropIndex removed)
            (take dropIndex removed' ++ img :: drop dropIndex removed'))
    as Hnew.
  { split.
    - assert (take dropIndex removed ++ r :: drop dropIndex removed
              ≡ₚ UploaderObjects.images st) as ->; [|done].
      rewrite <- Permutation_middle, take_drop. subst removed.
      symmetry. by apply delete_Permutation.
    - apply Forall2_app; [by apply Forall2_take, Forall2_delete|].
      apply Forall2_cons. split; [done|].
      by apply Forall2_drop, Forall2_delete. }
  case_bool_decide; [|done].
  by apply (represents_forEach _ _ _ 0%nat).
Qed.

Lemma settled_shown props st :
  UploaderObjects.settled props st →
  uploader_inv props (UploaderObjects.shown st).
Proof.
  intros (l & Hrep & Hinv & _). unfold UploaderObjects.shown.
  by rewrite (represents_objects _ _ _ Hrep).
Qed.

Lemma settled_init props :
  0 ≤ maxImages props → UploaderObjects.settled props UploaderObjects.init.
Proof.
  intros Hmax. exists []. split_and!.
  - split; [apply NoDup_nil_2|constructor].
  - split_and!; [simpl; lia|done|by intros _ img].
  - by left.
Qed.

Lemma settled_step props st e st' :
  UploaderObjects.settled props st →
  UploaderObjects.rendered st e → UploaderObjects.apart st e →
  UploaderObjects.step props st e = Some st' →
  UploaderObjects.settled props st'.
Proof.
  intros (l & Hrep & Hinv & Hres) Hrendered Hapart Hstep.
  pose proof (represents_length _ _ _ Hrep) as Hlen.
  destruct e as [[fs|index|index|draggedIndex dropIndex]|k];
    simpl in Hrendered, Hapart, Hstep.
  - (* [handleFileSelect] is called *)
    injection Hstep as <-. unfold UploaderObjects.handleFileSelect.
    destruct fs as [fileArray|]; [|by exists l]. cbv zeta.
    destruct (decide (Z.of_nat (length fileArray) > _)) as [Hslots|Hslots];
      [by exists l|].
    exists l. split_and!; [done|done|]. right. exists fileArray.
    simpl. rewrite Hapart. by split.
  - injection Hstep as <-.
    destruct (removeImage_represents index st l Hrep) as [Hrep' Hres'].
    exists (removeImage index l). split_and!; [done| |].
    + by apply removeImage_inv.
    + left. by rewrite Hres'.
  - injection Hstep as <-.
    destruct (setMainImage_represents props index st l Hrep)
      as [Hrep' Hres'].
    exists (setMainImage props index l). split_and!; [done| |].
    + apply setMainImage_inv; [lia|done].
    + left. by rewrite Hres'.
  - destruct (handleImageDrop_represents props draggedIndex dropIndex st st'
                l Hrep Hstep) as (l' & Hl' & Hrep' & Hres').
    exists l'. split_and!; [done| |].
    + by eapply handleImageDrop_inv.
    + left. by rewrite Hres'.
  - (* an awaiting call goes on *)
    injection Hstep as <-. unfold UploaderObjects.resume.
    destruct Hres as [Hres|(fs & Hres & Hslots)].
    { rewrite Hres. simpl. exists l. split_and!; [done|done|by left]. }
    rewrite Hres. destruct k as [|k]; simpl.
    2: { exists l. split_and!; [done|done|]. right. by exists fs. }
    pose proof (handleFileSelect_inv props (Some fs) l Hinv) as Hinv'.
    unfold handleFileSelect in Hinv'. cbv zeta in Hinv'.
    rewrite <- Hlen in Hinv'.
    destruct (decide (Z.of_nat (length fs) > _)) as [?|_] in Hinv'; [done|].
    destruct (decide (0 < _)%nat) as [Hnew|Hnew]; simpl.
    + eexists. split_and!; [by apply represents_app|exact Hinv'|by left].
    + exists l. split_and!; [done|done|by left].
Qed.

(** X27.  As long as no handler of the uploader is called while a call of
    [handleFileSelect] awaits a resize, whatever is picked, removed, chosen
    or dragged (the button of [setMainImage] belonging to an image that is
    shown, the dragged index lying inside the list), the uploader never shows
    more than [maxImages] images and, as soon as it shows one, exactly one of
    them is the main image; when the main image cannot be chosen (the
    default), the main image is the first one.  Without the proviso this
    fails: [removeImage] writes [isMain] into an image object that the array
    of an awaiting [handleFileSelect] still holds, so when the first of three
    images is removed while a fourth is resized, the uploader ends with four
    images, the removed one among them, and two main images. *)
Theorem uploader_keeps_one_main :
  (∀ (props : Props) (events : list UploaderObjects.Event)
     (st' : UploaderObjects.State),
     0 ≤ maxImages props →
     UploaderObjects.one_at_a_time props events UploaderObjects.init →
     UploaderObjects.run props events UploaderObjects.init = Some st' →
     uploader_inv props (UploaderObjects.shown st')) ∧
  (∃ st', UploaderObjects.run default_props
            UploaderObjects.removal_during_resize UploaderObjects.init
          = Some st' ∧
          img_id <$> UploaderObjects.shown st'
          = ["img-1"; "img-2"; "img-3"; "img-4"] ∧
          isMain <$> UploaderObjects.shown st' = [true; true; false; false] ∧
          mains (UploaderObjects.shown st') = 2%nat ∧
          ¬ uploader_inv default_props (UploaderObjects.shown st')).
Proof.
  split.
  - intros props events st' Hmax.
    pose proof (settled_init props Hmax) as Hinit.
    revert Hinit. generalize UploaderObjects.init.
    induction events as [|e events IH]; intros st Hst Hone Hrun.
    + simpl in Hrun. injection Hrun as <-. by apply settled_shown.
    + simpl in Hone, Hrun. destruct Hone as (Hrendered & Hapart & Hrest).
      destruct (UploaderObjects.step props st e) as [st1|] eqn:Hstep; [|done].
      simpl in Hrun. apply (IH st1); [|done|done].
      by eapply settled_step.
  - eexists. split; [by vm_compute|].
    split_and!; [by vm_compute|by vm_compute|by vm_compute|].
    match goal with |- ¬ uploader_inv _ ?l =>
      assert (l ≠ []) as Hne by (by vm_compute);
      assert (mains l = 2%nat) as H2 by (by vm_compute)
    end.
    intros (_ & Hone & _). rewrite (Hone Hne) in H2. discriminate H2.
Qed.

(** Three files are picked, a fourth is picked and resized, then the first
    image is removed: three images are left, the second of the first three
    being the main one. *)
Lemma uploader_keeps_one_main_witness :
  ∃ st', UploaderObjects.run default_props
           UploaderObjects.removal_after_resize UploaderObjects.init
         = Some st' ∧
         img_id <$> UploaderObjects.shown st' = ["img-2"; "img-3"; "img-4"] ∧
         uploader_inv default_props (UploaderObjects.shown st').
Proof.
  eexists. split; [by vm_compute|]. split; [by vm_compute|].
  destruct uploader_keeps_one_main as [H _].
  apply (H default_props UploaderObjects.removal_after_resize).
  - simpl. lia.
  - by vm_compute.
  - by vm_compute.
Defined.

End UploaderFacts.
